(** * The quadplay loader, [console/quadplay-load.js]

    A shallow embedding of the parts of the loader that decide the
    properties stated about it: the alias resolver and the start-mode check
    of [afterLoadGame], the asset cache shared by [loadFont],
    [loadSpritesheet], [loadSound] and [loadMap], the sprite grid and its
    mirrored variants built by [loadSpritesheet], [animationFrame], the
    literal parser [$parse] and the table parser [parseCSV]; and, beside
    them, the color parser [parseHexColor], [transposeGrid] and the
    processing of a table asset, the pixel conversions [getImageData4Bit]
    and [getImageData4BitAndFlip], the tiles of [loadMap],
    [evalJSONGameConstant] and [nullToUndefined], [clearAssetCache], the
    URL helpers and [computeResourceStats].

    Conventions of the embedding.
    - A JavaScript string is the list of its UTF-16 code units.  [u] turns a
      Rocq string literal (UTF-8) into it.
    - A JavaScript number is a rational, an infinity or NaN.  What the
      arithmetic and [parseFloat] return is rounded to binary64, to nearest
      with ties to even; the sign of zero is not modelled.  Rational
      multiples of [Math.PI] are kept symbolic where the parsers produce
      them.
    - Objects that the code shares and mutates live in an explicit store and
      are named by their address. *)

From Stdlib Require Import ZArith QArith Qround Qabs Qpower Lia Lqa String
  Ascii List DecimalString.
From stdpp Require Import base option list gmap sorting.

#[local] Set Warnings "-register-all".

(** ** JavaScript strings and numbers *)

Module JS.

Abbreviation jsstring := (list N).

(** UTF-8 bytes to UTF-16 code units; a code point above the basic plane
    becomes a surrogate pair. *)
Fixpoint utf16_of_utf8 (bytes : list N) : jsstring :=
  match bytes with
  | [] => []
  | b0 :: r0 =>
    if (b0 <? 0x80)%N then b0 :: utf16_of_utf8 r0
    else if (b0 <? 0xE0)%N then
      match r0 with
      | b1 :: r1 => ((b0 mod 0x20) * 0x40 + b1 mod 0x40)%N :: utf16_of_utf8 r1
      | [] => [b0]
      end
    else if (b0 <? 0xF0)%N then
      match r0 with
      | b1 :: b2 :: r2 =>
        ((b0 mod 0x10) * 0x1000 + (b1 mod 0x40) * 0x40 + b2 mod 0x40)%N
          :: utf16_of_utf8 r2
      | _ => [b0]
      end
    else
      match r0 with
      | b1 :: b2 :: b3 :: r3 =>
        let cp := ((b0 mod 0x8) * 0x40000 + (b1 mod 0x40) * 0x1000
                   + (b2 mod 0x40) * 0x40 + b3 mod 0x40 - 0x10000)%N in
        (0xD800 + cp / 0x400)%N :: (0xDC00 + cp mod 0x400)%N :: utf16_of_utf8 r3
      | _ => [b0]
      end
  end.

Definition u (s : string) : jsstring :=
  utf16_of_utf8 (List.map N_of_ascii (list_ascii_of_string s)).

Definition chr (c : ascii) : N := N_of_ascii c.

(** The double quote. *)
Definition quote : N := 0x22%N.

(** [s.indexOf(c) !== -1] for a one-unit [c]. *)
Definition contains (c : N) (s : jsstring) : bool :=
  existsb (N.eqb c) s.

(** [s.substring(a, b)] for [a <= b]. *)
Definition substring (a b : nat) (s : jsstring) : jsstring :=
  take (b - a) (drop a s).

(** [s.replace(c, '')] for a one-unit pattern [c]: the first occurrence. *)
Fixpoint remove_first (c : N) (s : jsstring) : jsstring :=
  match s with
  | [] => []
  | x :: r => if (x =? c)%N then r else x :: remove_first c r
  end.

(** The line terminators, which [.] of a regular expression refuses. *)
Definition is_line_terminator (c : N) : bool :=
  ((c =? 0x0A) || (c =? 0x0D) || (c =? 0x2028) || (c =? 0x2029))%N.

(** The white space [String.prototype.trim] and [parseFloat] strip. *)
Definition is_white_space (c : N) : bool :=
  ((c =? 0x09) || (c =? 0x0A) || (c =? 0x0B) || (c =? 0x0C) || (c =? 0x0D)
   || (c =? 0x20) || (c =? 0xA0) || (c =? 0x1680)
   || ((0x2000 <=? c) && (c <=? 0x200A))
   || (c =? 0x2028) || (c =? 0x2029) || (c =? 0x202F) || (c =? 0x205F)
   || (c =? 0x3000) || (c =? 0xFEFF))%N.

Fixpoint trim_start (s : jsstring) : jsstring :=
  match s with
  | c :: r => if is_white_space c then trim_start r else s
  | [] => []
  end.

Definition trim (s : jsstring) : jsstring :=
  reverse (trim_start (reverse (trim_start s))).

(** [toLowerCase]: the ASCII letters, and capital pi, the one other cased
    letter whose lower case occurs in a token the parsers know. *)
Definition lower_unit (c : N) : N :=
  if ((0x41 <=? c) && (c <=? 0x5A))%N then (c + 0x20)%N
  else if (c =? 0x3A0)%N then 0x3C0%N
  else c.

Definition toLowerCase (s : jsstring) : jsstring := List.map lower_unit s.

(** Numbers. *)
Inductive number :=
| NaN
| Infinity
| NegInfinity
| Fin (q : Q).

(** The integer nearest to [x], the even one of two that are as near. *)
Definition round_half_even (x : Q) : Z :=
  let n := Qfloor x in
  match (x - inject_Z n ?= 1 # 2)%Q with
  | Lt => n
  | Gt => (n + 1)%Z
  | Eq => if Z.even n then n else (n + 1)%Z
  end.

(** The exponent [e] of a positive [a]: [2 ^ e <= a < 2 ^ (e + 1)]. *)
Definition binade (a : Q) : Z :=
  let e := (Z.log2 (Qnum a) - Z.log2 (Zpos (Qden a)))%Z in
  if Qle_bool (2 ^ e) a then e else (e - 1)%Z.

(** The binary64 number that a real number is rounded to: 53 significant
    bits, or fewer below [2 ^ -1022]; a tie goes to the even significand,
    and what rounds to [2 ^ 1024] is infinite.  The result is in lowest
    terms, so that equal numbers are equal terms. *)
Definition binary64 (q : Q) : number :=
  if Qeq_bool q 0 then Fin 0
  else
    let a := Qabs q in
    let s := (52 - Z.max (binade a) (-1022))%Z in
    let r := (inject_Z (round_half_even (a * 2 ^ s)) / 2 ^ s)%Q in
    if Qle_bool (2 ^ 1024) r
    then if Qle_bool 0 q then Infinity else NegInfinity
    else Fin (Qred (if Qle_bool 0 q then r else - r)).

(** The result of an operation whose exact value is [q]. *)
Definition fin (q : Q) : number := binary64 q.

(** A multiple of [2 ^ -k]. *)
Definition dyadic (k : Z) (q : Q) : Prop :=
  exists m : Z, (q == inject_Z m / 2 ^ k)%Q.

(** A binary64 number with at most 53 bits above [2 ^ -k], for a [k] up to
    1074: an integer below [2 ^ 53] in magnitude, a number of quarters
    below [2 ^ 51], and so on. *)
Definition representable (q : Q) : Prop :=
  exists m k : Z,
    (Z.abs m < 2 ^ 53)%Z /\ (0 <= k <= 1074)%Z /\ (q == inject_Z m / 2 ^ k)%Q.

Definition of_Z (z : Z) : number := Fin (inject_Z z).

Definition isNaN (x : number) : bool :=
  match x with NaN => true | _ => false end.

Definition neg (x : number) : number :=
  match x with
  | NaN => NaN
  | Infinity => NegInfinity
  | NegInfinity => Infinity
  | Fin q => fin (- q)
  end.

Definition add (x y : number) : number :=
  match x, y with
  | NaN, _ | _, NaN => NaN
  | Infinity, NegInfinity | NegInfinity, Infinity => NaN
  | Infinity, _ | _, Infinity => Infinity
  | NegInfinity, _ | _, NegInfinity => NegInfinity
  | Fin a, Fin b => fin (a + b)
  end.

Definition sub (x y : number) : number := add x (neg y).

(** [x * k] and [x / k] for a finite constant [k > 0] of the source. *)
Definition scale_by (x : number) (k : Q) : number :=
  match x with
  | Fin a => fin (a * k)
  | other => other
  end.

(** [x >= y] and [x < y]; both are false when an operand is NaN. *)
Definition ge (x y : number) : bool :=
  match x, y with
  | NaN, _ | _, NaN => false
  | Infinity, _ => true
  | _, NegInfinity => true
  | NegInfinity, _ => false
  | _, Infinity => false
  | Fin a, Fin b => Qle_bool b a
  end.

Definition lt (x y : number) : bool :=
  match x, y with
  | NaN, _ | _, NaN => false
  | Infinity, _ => false
  | _, NegInfinity => false
  | NegInfinity, _ => true
  | _, Infinity => true
  | Fin a, Fin b => negb (Qle_bool b a)
  end.

(** [Math.max(x, y)]: NaN when either is. *)
Definition max (x y : number) : number :=
  match x, y with
  | NaN, _ | _, NaN => NaN
  | _, _ => if ge x y then x else y
  end.

Definition floor (x : number) : number :=
  match x with
  | Fin q => of_Z (Qfloor q)
  | other => other
  end.

(** Rounding towards zero, as the quotient of [%] does. *)
Definition Qtrunc (q : Q) : Z :=
  if Qle_bool 0 q then Qfloor q else Qceiling q.

(** [x % y]: the remainder has the sign of the dividend. *)
Definition rem (x y : number) : number :=
  match x, y with
  | NaN, _ | _, NaN => NaN
  | Infinity, _ | NegInfinity, _ => NaN
  | Fin a, Infinity | Fin a, NegInfinity => Fin a
  | Fin a, Fin b =>
    if Qeq_bool b 0 then NaN else fin (a - b * inject_Z (Qtrunc (a / b)))
  end.

(** [a] reduced into the interval from 0 to [b], for [b > 0]. *)
Definition Qmod (a b : Q) : Q := (a - b * inject_Z (Qfloor (a / b)))%Q.

(** Values, as far as the loader's parsers build them.  [VPiTimes q] is the
    number [q * Math.PI] for a nonzero rational [q]. *)
Inductive value :=
| VUndefined
| VBoolean (b : bool)
| VNumber (x : number)
| VPiTimes (q : Q)
| VString (s : jsstring)
| VFunction
| VArray (elements : list value)
| VObject (properties : list (jsstring * value)).

(** [x * Math.PI * k] for a rational [k] of the source. *)
Definition times_PI (x : number) (k : Q) : value :=
  match x with
  | Fin a => if Qeq_bool a 0 then VNumber (Fin 0) else VPiTimes (Qred (a * k))
  | other => VNumber other
  end.

(** How a piece of code ends: normally, or by [throw]. *)
Inductive completion (A : Type) :=
| Normal (a : A)
| Throw (message : jsstring).
Arguments Normal {A} a.
Arguments Throw {A} message.

(** The code ended by [throw]. *)
Definition aborts {A} (r : completion A) : Prop := exists m, r = Throw m.

(** The errors that the engine raises, not the loader. *)
Definition TypeError : jsstring := u "TypeError".
Definition RangeError : jsstring := u "RangeError".

#[export] Instance completion_ret : MRet completion := @Normal.
#[export] Instance completion_bind : MBind completion :=
  fun A B f m => match m with Normal a => f a | Throw e => Throw e end.

(** [x || d] on an optional number: [undefined], [0] and [NaN] are falsy. *)
Definition or_else (x : option number) (d : number) : number :=
  match x with
  | None | Some NaN => d
  | Some (Fin q) => if Qeq_bool q 0 then d else Fin q
  | Some other => other
  end.

(** The integers from [lo] to [hi], as a [for] loop with [<=] visits them. *)
Definition range (lo hi : Z) : list Z :=
  List.map (fun k => (lo + Z.of_nat k)%Z) (seq 0 (Z.to_nat (hi - lo + 1))).

(** [a[i]] for an integer [i]: [undefined] out of range. *)
Definition at_index {A} (a : list A) (i : Z) : option A :=
  if (i <? 0)%Z then None else a !! Z.to_nat i.

(** The order of the default [Array.prototype.sort] on strings: code units,
    lexicographically. *)
Fixpoint string_le (a b : jsstring) : bool :=
  match a, b with
  | [], _ => true
  | _ :: _, [] => false
  | x :: a', y :: b' => ((x <? y) || ((x =? y) && string_le a' b'))%N
  end.

(** [Object.keys(o)] followed by [keys.sort()]. *)
Definition sorted_keys {A} (o : gmap jsstring A) : list jsstring :=
  merge_sort (fun a b => Is_true (string_le a b)) (map_to_list o).*1.

End JS.

(** ** [afterLoadGame]: the start mode and the reference constants *)

Module AfterLoadGame.
Import JS.

Record mode := { name : jsstring; url : jsstring }.

(** [.replace(/^.*\//, '')]: the longest run of units that are not line
    terminators, from the start, ending in a slash. *)
Fixpoint after_last_slash (line : jsstring) (found : option jsstring)
  : option jsstring :=
  match line with
  | [] => found
  | c :: r =>
    if is_line_terminator c then found
    else if (c =? chr "/")%N then after_last_slash r (Some r)
    else after_last_slash r found
  end.

Definition remove_url_prefix (s : jsstring) : jsstring :=
  default s (after_last_slash s None).

(** [_([^\/]+)$] at the head of [s]. *)
Definition underscore_name (s : jsstring) : option jsstring :=
  match s with
  | c :: r =>
    if ((c =? chr "_") && negb (contains (chr "/") r))%N
    then match r with [] => None | _ => Some r end
    else None
  | [] => None
  end.

(** [/(^|\/)_([^\/]+)$/] tried at a slash, from left to right. *)
Fixpoint dollar_after_slash (s : jsstring) : jsstring :=
  match s with
  | [] => []
  | c :: r =>
    if (c =? chr "/")%N then
      match underscore_name r with
      | Some n => c :: chr "$" :: n
      | None => c :: dollar_after_slash r
      end
    else c :: dollar_after_slash r
  end.

(** [.replace(/(^|\/)_([^\/]+)$/, '$1$$$2')] *)
Definition leading_underscore_to_dollar (s : jsstring) : jsstring :=
  match underscore_name s with
  | Some n => chr "$" :: n
  | None => dollar_after_slash s
  end.

(** The name of a declared mode: any URL prefix removed and a leading
    underscore changed to a dollar sign. *)
Definition mode_name (m : jsstring) : jsstring :=
  leading_underscore_to_dollar (remove_url_prefix m).

(** [! gameJSON.start_mode] *)
Definition no_start_mode (start_mode : option jsstring) : bool :=
  match start_mode with
  | None | Some [] => true
  | Some _ => false
  end.

(** Legacy files denote the start mode by an asterisk. *)
Fixpoint upgrade_legacy (modes : list jsstring) (start_mode : option jsstring)
  : list jsstring * option jsstring :=
  match modes with
  | [] => ([], start_mode)
  | m :: rest =>
    if contains (chr "*") m then
      let m' := remove_first (chr "*") m in
      let '(rest', start_mode') := upgrade_legacy rest (Some m') in
      (m' :: rest', start_mode')
    else
      let '(rest', start_mode') := upgrade_legacy rest start_mode in
      (m :: rest', start_mode')
  end.

Definition os_modes : list jsstring :=
  [ u "quad://console/os/_SystemMenu";
    u "quad://console/os/_ConfirmDialog";
    u "quad://console/os/_GameCredits";
    u "quad://console/os/_SetControls";
    u "quad://console/os/_SetControls64" ].

(** The modes the loader works on: the declared ones after the legacy
    upgrade, followed by the injected ones of the console. *)
Definition extended (modes : list jsstring) (start_mode : option jsstring)
  : list jsstring * option jsstring :=
  let '(modes', start_mode') :=
    if no_start_mode start_mode then upgrade_legacy modes start_mode
    else (modes, start_mode) in
  (modes' ++ os_modes, start_mode').

(** [name === gameJSON.start_mode] *)
Definition is_start_mode (start_mode : option jsstring) (n : jsstring) : bool :=
  match start_mode with
  | Some s => bool_decide (n = s)
  | None => false
  end.

Definition numStartModes (modes : list jsstring) (start_mode : option jsstring)
  : nat :=
  length (filter (fun m => Is_true (is_start_mode start_mode (mode_name m))) modes).

Section Modes.
Variable makeURLAbsolute : jsstring -> jsstring -> jsstring.

(** The block "Modes:" up to its [throw]. *)
Definition load_modes (gameURL : jsstring) (modes : list jsstring)
    (start_mode : option jsstring) : completion (list mode) :=
  let '(modes, start_mode) := extended modes start_mode in
  let sourceModes :=
    List.map (fun m => {| name := mode_name m;
                          url := makeURLAbsolute gameURL (m ++ u ".pyxl") |})
             modes in
  if (numStartModes modes start_mode =? 0)%nat
  then Throw (u "No " ++ [quote] ++ u "start_mode" ++ [quote] ++ u " specified")
  else Normal sourceModes.

End Modes.

(** A declared constant: its [type] and, for a reference, the identifier in
    its [value]. *)
Record definition := { type : jsstring; value : jsstring }.

(** What [gameSource.constants] holds. *)
Inductive constant :=
| Evaluated (v : JS.value)
| GlobalReference (identifier : jsstring).

Definition is_reference (d : definition) : bool :=
  bool_decide (type d = u "reference").

(** The [do ... while] loop that follows a reference chain.  [alreadySeen]
    is the map the loop consults: the code puts [c] into it before the loop
    and does not write to it afterwards.  Without fuel the loop is still
    running. *)
Fixpoint follow (fuel : nat) (constants : gmap jsstring definition)
    (alreadySeen : gset jsstring) (path : jsstring) (definition : definition)
  : option (completion (jsstring * jsstring)) :=
  match fuel with
  | O => None
  | S fuel' =>
    let id := value definition in
    let path := path ++ u " → " ++ id in
    if bool_decide (id ∈ alreadySeen)
    then Some (Throw (u "Cycle in reference chain: " ++ path))
    else
      match constants !! id with
      | Some definition' =>
        if is_reference definition'
        then follow fuel' constants alreadySeen path definition'
        else Some (Normal (id, path))
      | None => Some (Normal (id, path))
      end
  end.

(** The body of the loop over the keys, for a constant [c] of type
    reference. *)
Definition resolve (fuel : nat) (constants : gmap jsstring definition)
    (assets : gmap jsstring jsstring) (sourceConstants : gmap jsstring constant)
    (c : jsstring) (definition : definition)
  : option (completion (gmap jsstring constant)) :=
  match follow fuel constants {[ c ]} c definition with
  | None => None
  | Some (Throw m) => Some (Throw m)
  | Some (Normal (id, path)) =>
    if bool_decide (id ∈ dom sourceConstants) || bool_decide (id ∈ dom assets)
    then Some (Normal (<[ c := GlobalReference (value definition) ]> sourceConstants))
    else Some (Throw (u "Unresolved reference: " ++ path))
  end.

Fixpoint resolve_all (fuel : nat) (constants : gmap jsstring definition)
    (assets : gmap jsstring jsstring) (keys : list jsstring)
    (sourceConstants : gmap jsstring constant)
  : option (completion (gmap jsstring constant)) :=
  match keys with
  | [] => Some (Normal sourceConstants)
  | c :: keys' =>
    match constants !! c with
    | Some definition =>
      if is_reference definition then
        match resolve fuel constants assets sourceConstants c definition with
        | Some (Normal sourceConstants') =>
          resolve_all fuel constants assets keys' sourceConstants'
        | stopped => stopped
        end
      else resolve_all fuel constants assets keys' sourceConstants
    | None => resolve_all fuel constants assets keys' sourceConstants
    end
  end.

(** The block "Now evaluate references".  [sourceConstants] is
    [gameSource.constants] as the first pass over the keys left it. *)
Definition evaluate_references (fuel : nat) (constants : gmap jsstring definition)
    (assets : gmap jsstring jsstring) (sourceConstants : gmap jsstring constant)
  : option (completion (gmap jsstring constant)) :=
  resolve_all fuel constants assets (sorted_keys constants) sourceConstants.

End AfterLoadGame.


(** ** The asset cache of [loadFont], [loadSpritesheet], [loadSound], [loadMap] *)

Module Assets.
Import JS.

Abbreviation address := nat.

Inductive asset_type := Font | Spritesheet | Sound | Map.

(** The fields the four loaders give an asset before any fetch completes.
    [_index] is the one-element array of a font or a spritesheet;
    [map_spritesheet] is the [spritesheet] property of a map, set once its
    spritesheet has loaded. *)
Record asset := {
  _name : jsstring;
  _type : asset_type;
  _url : jsstring;
  _jsonURL : jsstring;
  _index : option nat;
  map_spritesheet : option address
}.

(** The metadata document of an asset, as far as the loaders read it before
    they return.  [sprite_url] and [sprite_url_table] are read by [loadMap]
    only; the table is the list of its properties, in the order of its
    keys. *)
Record json := {
  url : jsstring;
  sprite_url : option jsstring;
  sprite_url_table : option (list (jsstring * jsstring))
}.

(** The state the loaders share.  [store] holds every asset object ever
    constructed, at its address; objects are never removed from it.  The
    keys of [assetCache] are the URLs of metadata documents. *)
Record session := {
  store : list asset;
  assetCache : gmap jsstring address;
  fontArray : list address;
  spritesheetArray : list address
}.












Section Loaders.
Variable makeURLAbsolute : jsstring -> jsstring -> jsstring.





(** What happens to the cache during a load session: the loaders are called,
    from the callbacks of the manifest's asset fetches and, for the
    spritesheet of a map, from the callback of a fetch that [loadMap]
    schedules; [loadSpritesheetCallback] stores the sheet into the map. *)
Inductive call :=
| LoadFont (name : jsstring) (j : json) (jsonURL : jsstring)
| LoadSpritesheet (name : jsstring) (j : json) (jsonURL : jsstring)
| LoadSound (name : jsstring) (j : json) (jsonURL : jsstring)
| LoadMap (name : jsstring) (j : json) (jsonURL : jsstring)
| MapSpritesheetLoaded (m sheet : address).

(** The metadata URL a call is keyed on. *)
Definition key (c : call) : option jsstring :=
  match c with
  | LoadFont _ _ k | LoadSpritesheet _ _ k | LoadSound _ _ k | LoadMap _ _ k =>
    Some k
  | MapSpritesheetLoaded _ _ => None
  end.




End Loaders.




End Assets.

(** ** [loadSpritesheet]: the sprite grid, the name table, the mirrored sprites *)

Module Spritesheet.
Import JS.

Abbreviation address := nat.

(** A sprite object.  Of the properties the loader gives it, the model keeps
    those that the grid, the animations and the mirrored variants are built
    from; the pixel statistics, the pivot, the size and the display names
    play no part in them.  [x_flipped] and [y_flipped] are absent until the
    last pass; [frozen] is the state [Object.freeze] leaves. *)
Record sprite := {
  _tileX : nat;
  _tileY : nat;
  id : Z;
  orientation_id : Z;
  scale : Z * Z;
  frames : number;
  _animationName : option jsstring;
  _animationIndex : option nat;
  x_flipped : option address;
  y_flipped : option address;
  frozen : bool
}.

Definition PP : Z * Z := (1, 1)%Z.
Definition NP : Z * Z := (-1, 1)%Z.
Definition PN : Z * Z := (1, -1)%Z.
Definition NN : Z * Z := (-1, -1)%Z.

(** An animation: the array of its sprites with the properties
    [extrapolate], [period] and [frames]. *)
Module Animation.
Record t := {
  elements : list address;
  extrapolate : jsstring;
  period : number;
  frames : number
}.
End Animation.

(** An entry of [json.names].  [other_orientation_id] is an
    [orientation_id] property of the entry: the loader copies onto the sprite
    every property of the entry that is not in its list of built-in ones,
    and of the properties modelled here only this one is not in the list. *)
Module Data.
Inductive frames_field :=
| FramesArray (a : list number)
| FramesNumber (n : number).

Record t := {
  x : option Z;
  y : option Z;
  start : option (Z * Z);
  end_x : option Z;
  end_y : option Z;
  frames : option frames_field;
  default_frames : option number;
  extrapolate : option jsstring;
  other_orientation_id : option Z
}.
End Data.

(** The metadata document and the decoded image, as far as read here.
    [names] has the entries of [json.names] in the order in which
    [for (let anim in json.names)] visits them: the names that are array
    indices first, in ascending order, then the others as they are
    written. *)
Record json := {
  sprite_size : Z * Z;
  gutter : Z;
  transpose : bool;
  default_frames : option number;
  names : list (jsstring * Data.t)
}.

Record image_data := { width : Z; height : Z }.

(** A property of the sheet set from the name table. *)
Inductive named :=
| NamedSprite (s : address)
| NamedAnimation (a : Animation.t).

(** An element of the sheet, which is an array: a column of the grid, or
    what a name that is an array index has put there. *)
Inductive element :=
| Column (cells : list address)
| Named (n : named).

(** The compiled sheet.  [grid] is the array: [sheet[x]] for the indices
    below its length, [None] where the array has a hole.  [table] holds
    [sheet[anim]] for the names that are no array index. *)
Record spritesheet := {
  grid : list (option element);
  table : list (jsstring * named)
}.

(** The array index that a property name is: a decimal numeral without a
    leading zero, below [2 ^ 32 - 1]. *)
Fixpoint decimal (s : jsstring) (acc : N) : option N :=
  match s with
  | [] => Some acc
  | c :: r =>
    if ((chr "0" <=? c) && (c <=? chr "9"))%N
    then decimal r (10 * acc + (c - chr "0"))%N
    else None
  end.

Definition array_index (name : jsstring) : option nat :=
  match name with
  | [] => None
  | c :: r =>
    if (c =? chr "0")%N && negb (bool_decide (r = [])) then None
    else
      n ← decimal name 0;
      if (n <? 2 ^ 32 - 1)%N then Some (N.to_nat n) else None
  end.

(** [sheet[i] = e] *)
Definition assign (i : nat) (e : element) (g : list (option element))
  : list (option element) :=
  if (i <? length g)%nat then <[ i := Some e ]> g
  else g ++ replicate (i - length g) None ++ [Some e].

(** [e.length]: a sprite has none. *)
Definition element_length (e : element) : option nat :=
  match e with
  | Column cells => Some (length cells)
  | Named (NamedAnimation a) => Some (length (Animation.elements a))
  | Named (NamedSprite _) => None
  end.

(** [e[v]]: a sprite has no such property. *)
Definition element_at (e : element) (v : option Z) : option address :=
  v ← v;
  match e with
  | Column cells => at_index cells v
  | Named (NamedAnimation a) => at_index (Animation.elements a) v
  | Named (NamedSprite _) => None
  end.

(** The names that are properties of the sheet like any other: no array
    index and not [length]. *)
Definition ordinary_name (anim : jsstring) : bool :=
  match array_index anim with
  | Some _ => false
  | None => negb (bool_decide (anim = u "length"))
  end.

(** The messages of the loader's own errors, without the names and numbers
    that the source splices into them. *)
Definition larger_than_sheet : jsstring :=
  u "Spritesheet has a sprite_size that is larger than the entire spritesheet.".
Definition x_and_y_or_start : jsstring :=
  u "Animation data must have either x and y fields or a start field, but not both".
Definition named_out_of_bounds : jsstring :=
  u "Named sprite index is out of bounds for the spritesheet.".
Definition not_in_a_line : jsstring :=
  u "Animation frames must be in a horizontal or vertical line".
Definition index_out_of_bounds : jsstring :=
  u "Index in animation is out of bounds for the spritesheet.".

(** The sprite literal of a cell. *)
Definition new_sprite (u v : nat) (lastSpriteID : Z) (sheetDefaultframes : number)
  : sprite :=
  {| _tileX := u; _tileY := v;
     id := lastSpriteID; orientation_id := lastSpriteID;
     scale := PP; frames := sheetDefaultframes;
     _animationName := None; _animationIndex := None;
     x_flipped := None; y_flipped := None; frozen := false |}.

(** The inner loop over [y]: the sprites of column [x].  The state is the
    store and [lastSpriteID]. *)
Fixpoint make_column (transpose : bool) (sheetDefaultframes : number) (x : nat)
    (ys : list nat) (st : list sprite * Z) : list address * (list sprite * Z) :=
  match ys with
  | [] => ([], st)
  | y :: ys' =>
    let u := if transpose then y else x in
    let v := if transpose then x else y in
    let '(h, lastSpriteID) := st in
    let st' := (h ++ [new_sprite u v lastSpriteID sheetDefaultframes],
                (lastSpriteID + 3)%Z) in
    let '(column, st'') := make_column transpose sheetDefaultframes x ys' st' in
    (length h :: column, st'')
  end.

(** The outer loop over [x]. *)
Fixpoint make_grid (transpose : bool) (sheetDefaultframes : number)
    (xs : list nat) (rows : nat) (st : list sprite * Z)
  : list (list address) * (list sprite * Z) :=
  match xs with
  | [] => ([], st)
  | x :: xs' =>
    let '(column, st') :=
      make_column transpose sheetDefaultframes x (seq 0 rows) st in
    let '(columns, st'') := make_grid transpose sheetDefaultframes xs' rows st' in
    (column :: columns, st'')
  end.

(** [Object.assign(sprite, otherProperties)] *)
Definition assign_other (d : Data.t) (s : sprite) : sprite :=
  {| _tileX := _tileX s; _tileY := _tileY s; id := id s;
     orientation_id := default (orientation_id s) (Data.other_orientation_id d);
     scale := scale s; frames := frames s;
     _animationName := _animationName s; _animationIndex := _animationIndex s;
     x_flipped := x_flipped s; y_flipped := y_flipped s; frozen := frozen s |}.

(** The writes to a sprite that a name or an animation makes. *)
Definition name_sprite (anim : jsstring) (index : option nat) (f : number)
    (d : Data.t) (s : sprite) : sprite :=
  {| _tileX := _tileX s; _tileY := _tileY s; id := id s;
     orientation_id := orientation_id (assign_other d s);
     scale := scale s; frames := f;
     _animationName := Some anim; _animationIndex := index;
     x_flipped := x_flipped s; y_flipped := y_flipped s; frozen := frozen s |}.

(** [spritesheet[0].length]: a TypeError when the sheet has no element 0. *)
Definition first_length (g : list (option element)) : completion (option nat) :=
  match g !! 0%nat with
  | Some (Some e) => Normal (element_length e)
  | _ => Throw TypeError
  end.

(** [u < 0 || u >= spritesheet.length || v < 0 || v >= spritesheet[0].length];
    a comparison with [undefined] is false.  [spritesheet[0].length] is
    read in any case: by the test, or by the message of the error. *)
Definition out_of_bounds (g : list (option element)) (u v : option Z)
  : completion bool :=
  let below (w : option Z) := match w with Some w => (w <? 0)%Z | None => false end in
  let beyond (w : option Z) (n : option nat) :=
    match w, n with
    | Some w, Some n => (Z.of_nat n <=? w)%Z
    | _, _ => false
    end in
  n ← first_length g;
  Normal (below u || beyond u (Some (length g)) || below v || beyond v n).

(** [spritesheet[u]] for a [u] that is a number: [undefined] at a hole and
    outside the array. *)
Definition column_at (g : list (option element)) (u : Z) : option element :=
  mjoin (at_index g u).

(** [spritesheet[u][v]] for numbers: no sprite where [spritesheet[u]] is
    [undefined], which is a TypeError, and where [spritesheet[u][v]] is. *)
Definition cell (g : list (option element)) (u v : option Z) : option address :=
  u ← u; e ← column_at g u; element_at e v.

(** [spritesheet[u]]: a [u] that is [undefined] reads the property of that
    name. *)
Definition sheet_at (g : list (option element)) (table : list (jsstring * named))
    (u : option Z) : option element :=
  match u with
  | Some u => column_at g u
  | None =>
    match list_find (fun e => e.1 = JS.u "undefined") table with
    | Some (_, (_, n)) => Some (Named n)
    | None => None
    end
  end.

(** [frames[Math.min(i, frames.length - 1)]], then [Math.max(0.25, _)]. *)
Definition frame_duration (schedule : list number) (i : nat) : number :=
  match at_index schedule (Z.min (Z.of_nat i) (Z.of_nat (length schedule) - 1)) with
  | Some f => max (Fin (1 # 4)) f
  | None => NaN
  end.

(** The sheet as the loop of an animation reads it: when the name of the
    animation is the array index [own], the element there is the array that
    the loop is filling, which reads like a column. *)
Definition while_filling (own : option nat) (animation : list address)
    (g : list (option element)) : list (option element) :=
  match own with
  | Some k => <[ k := Some (Column animation) ]> g
  | None => g
  end.

(** The body of the two nested loops of an animation, over the cells from
    [start] to [end]; [i] counts them. *)
Fixpoint add_frames (js : json) (g : list (option element)) (own : option nat)
    (anim : jsstring) (d : Data.t) (schedule : list number)
    (cells : list (Z * Z)) (i : nat) (h : list sprite) (animation : list address)
  : completion (list sprite * list address) :=
  match cells with
  | [] => Normal (h, animation)
  | (x, y) :: cells' =>
    let u := if transpose js then y else x in
    let v := if transpose js then x else y in
    let sheet := while_filling own animation g in
    out ← out_of_bounds sheet (Some u) (Some v);
    if out : bool then Throw index_out_of_bounds
    else
      match cell sheet (Some u) (Some v) with
      | None => Throw TypeError
      | Some a =>
        add_frames js g own anim d schedule cells' (S i)
          (alter (name_sprite anim (Some i) (frame_duration schedule i) d) a h)
          (animation ++ [a])
      end
  end.

(** [animation[i].frames], read through the store. *)
Definition frames_at (h : list sprite) (animation : list address) (i : Z)
  : option number :=
  a ← at_index animation i; s ← h !! a; Some (frames s).

(** The loop that sums the durations into [period] or [frames]. *)
Fixpoint sum_durations (extrapolate : jsstring) (N : nat)
    (durations : list number) (i : nat) (acc : number * number)
  : number * number :=
  match durations with
  | [] => acc
  | f :: rest =>
    let '(period, total) := acc in
    sum_durations extrapolate N rest (S i)
      (if bool_decide (extrapolate = u "oscillate") then
         if bool_decide (i = 0%nat) || bool_decide (i = (N - 1)%nat)
         then (add period f, total)
         else (add period (scale_by f 2), total)
       else if bool_decide (extrapolate = u "loop") then (add period f, total)
       else (period, add total f))
  end.

(** The state of the loop over [json.names]: the array of the sheet, the
    store of sprites, and the properties that the names have set. *)
Definition naming : Type :=
  list (option element) * list sprite * list (jsstring * named).

(** The body of the loop over [json.names]. *)
Definition apply_name (js : json) (sheetDefaultframes : number)
    (st : naming) (entry : jsstring * Data.t) : completion naming :=
  let '(anim, d) := entry in
  let '(g, h, table) := st in
  let animDefaultframes :=
    max (Fin (1 # 4)) (or_else (Data.default_frames d) sheetDefaultframes) in
  match Data.x d, Data.start d with
  | Some _, Some _ | None, None => Throw x_and_y_or_start
  | Some _, None =>
    (* Named sprite, no animation *)
    let u := if transpose js then Data.y d else Data.x d in
    let v := if transpose js then Data.x d else Data.y d in
    out ← out_of_bounds g u v;
    if out : bool then Throw named_out_of_bounds
    else
      (* const sprite = spritesheet[anim] = spritesheet[u][v]; *)
      match sheet_at g table u with
      | None => Throw TypeError
      | Some e =>
        let sprite := element_at e v in
        if bool_decide (anim = JS.u "length") then Throw RangeError
        else
          match sprite with
          | None => Throw TypeError
          | Some a =>
            let h := alter (name_sprite anim None animDefaultframes d) a h in
            match array_index anim with
            | Some k => Normal (assign k (Named (NamedSprite a)) g, h, table)
            | None => Normal (g, h, table ++ [(anim, NamedSprite a)])
            end
          end
      end
  | None, Some (start_x, start_y) =>
    let end_x := default start_x (Data.end_x d) in
    let end_y := default start_y (Data.end_y d) in
    if negb (start_x =? end_x)%Z && negb (start_y =? end_y)%Z
    then Throw not_in_a_line
    else
      let extrapolate :=
        match Data.extrapolate d with
        | None | Some [] => JS.u "loop"
        | Some e => e
        end in
      let schedule :=
        match Data.frames d with
        | Some (Data.FramesArray a) => a
        | Some (Data.FramesNumber n) => [n]
        | None => [animDefaultframes]
        end in
      let cells :=
        flat_map (fun y => List.map (fun x => (x, y)) (range start_x end_x))
                 (range start_y end_y) in
      (* const animation = spritesheet[anim] = []; an empty array as the
         length empties the sheet *)
      let is_length := bool_decide (anim = JS.u "length") in
      let own := if is_length then None else array_index anim in
      let g :=
        if is_length then []
        else match own with
             | Some k => assign k (Column []) g
             | None => g
             end in
      '(h', animation) ← add_frames js g own anim d schedule cells 0 h [];
      let durations := omap (fun a => frames <$> h' !! a) animation in
      let '(period, total) :=
        sum_durations extrapolate (length animation) durations 0
          (Fin 0, if bool_decide (extrapolate = JS.u "clamp") then Fin 0 else Infinity) in
      let compiled :=
        NamedAnimation {| Animation.elements := animation;
                          Animation.extrapolate := extrapolate;
                          Animation.period := period;
                          Animation.frames := total |} in
      if is_length then Normal (g, h', table)
      else
        match own with
        | Some k => Normal (<[ k := Some (Named compiled) ]> g, h', table)
        | None => Normal (g, h', table ++ [(anim, compiled)])
        end
  end.

Fixpoint apply_names (js : json) (sheetDefaultframes : number)
    (entries : list (jsstring * Data.t)) (st : naming) : completion naming :=
  match entries with
  | [] => Normal st
  | entry :: rest =>
    st' ← apply_name js sheetDefaultframes st entry;
    apply_names js sheetDefaultframes rest st'
  end.

(** [Object.assign(target, sprite)] into a new object [target] that has at
    most the properties [x_flipped] and [y_flipped]: a property that the
    sprite has replaces the one of the target. *)
Definition object_assign (target_x_flipped target_y_flipped : option address)
    (s : sprite) : sprite :=
  {| _tileX := _tileX s; _tileY := _tileY s; id := id s;
     orientation_id := orientation_id s; scale := scale s; frames := frames s;
     _animationName := _animationName s; _animationIndex := _animationIndex s;
     x_flipped := match x_flipped s with Some o => Some o | None => target_x_flipped end;
     y_flipped := match y_flipped s with Some o => Some o | None => target_y_flipped end;
     frozen := false |}.

Definition set_x_flipped (o : address) (s : sprite) : sprite :=
  {| _tileX := _tileX s; _tileY := _tileY s; id := id s;
     orientation_id := orientation_id s; scale := scale s; frames := frames s;
     _animationName := _animationName s; _animationIndex := _animationIndex s;
     x_flipped := Some o; y_flipped := y_flipped s; frozen := frozen s |}.

Definition set_y_flipped (o : address) (s : sprite) : sprite :=
  {| _tileX := _tileX s; _tileY := _tileY s; id := id s;
     orientation_id := orientation_id s; scale := scale s; frames := frames s;
     _animationName := _animationName s; _animationIndex := _animationIndex s;
     x_flipped := x_flipped s; y_flipped := Some o; frozen := frozen s |}.

(** [o.scale = sc; o.orientation_id += k] *)
Definition reorient (sc : Z * Z) (k : Z) (s : sprite) : sprite :=
  {| _tileX := _tileX s; _tileY := _tileY s; id := id s;
     orientation_id := (orientation_id s + k)%Z; scale := sc; frames := frames s;
     _animationName := _animationName s; _animationIndex := _animationIndex s;
     x_flipped := x_flipped s; y_flipped := y_flipped s; frozen := frozen s |}.

(** [Object.freeze(o)] *)
Definition freeze (s : sprite) : sprite :=
  {| _tileX := _tileX s; _tileY := _tileY s; id := id s;
     orientation_id := orientation_id s; scale := scale s; frames := frames s;
     _animationName := _animationName s; _animationIndex := _animationIndex s;
     x_flipped := x_flipped s; y_flipped := y_flipped s; frozen := true |}.

(** The body of the last pass, for the sprite at [a]: the three mirrored
    objects are allocated at [X], [Y] and [B]. *)
Definition mirror (a : address) (h : list sprite) : list sprite :=
  match h !! a with
  | None => h
  | Some sprite0 =>
    (* sprite.x_flipped = Object.assign({x_flipped:sprite}, sprite); *)
    let X := length h in
    let h := alter (set_x_flipped X) a (h ++ [object_assign (Some a) None sprite0]) in
    let h := alter (reorient NP 1) X h in
    let sprite1 := set_x_flipped X sprite0 in
    (* sprite.y_flipped = Object.assign({y_flipped:sprite}, sprite); *)
    let Y := length h in
    let h := alter (set_y_flipped Y) a (h ++ [object_assign None (Some a) sprite1]) in
    let h := alter (reorient PN 2) Y h in
    let sprite2 := set_y_flipped Y sprite1 in
    (* sprite.x_flipped.y_flipped = sprite.y_flipped.x_flipped =
         Object.assign({}, sprite); *)
    let B := length h in
    let h := h ++ [object_assign None None sprite2] in
    let h := alter (set_x_flipped B) Y h in
    let h := alter (set_y_flipped B) X h in
    let h := alter (reorient NN 3) B h in
    alter freeze a (alter freeze B (alter freeze Y (alter freeze X h)))
  end.

(** The same, as the code runs it: the first assignment throws when the
    sprite is frozen, which it is once the pass has been over it. *)
Definition flip (a : address) (h : list sprite) : completion (list sprite) :=
  match h !! a with
  | None => Throw TypeError
  | Some sprite => if frozen sprite then Throw TypeError else Normal (mirror a h)
  end.

(** The loop over [y], for an element that is an array of sprites. *)
Fixpoint flip_cells (cells : list address) (h : list sprite)
  : completion (list sprite) :=
  match cells with
  | [] => Normal h
  | a :: rest => h' ← flip a h; flip_cells rest h'
  end.

(** "Create flipped versions and freeze": the loop over [x].  The length
    of a hole is a TypeError, the length of a sprite is [undefined], and an
    animation is an array of sprites like a column. *)
Fixpoint create_flipped (g : list (option element)) (h : list sprite)
  : completion (list sprite) :=
  match g with
  | [] => Normal h
  | None :: _ => Throw TypeError
  | Some e :: rest =>
    h' ← match e with
         | Column cells => flip_cells cells h
         | Named (NamedAnimation a) => flip_cells (Animation.elements a) h
         | Named (NamedSprite _) => Normal h
         end;
    create_flipped rest h'
  end.

(** The array of a sheet that has its columns and nothing else. *)
Definition columns (g : list (list address)) : list (option element) :=
  (fun cells => Some (Column cells)) <$> g.

(** The callback that [loadSpritesheet] gives to the fetch of the image.
    The state is the store of sprites and [lastSpriteID].  The grid
    dimensions are those of the source for [sprite_size + gutter] other than
    zero. *)
Definition compile (js : json) (data : image_data) (st : list sprite * Z)
  : completion (spritesheet * (list sprite * Z)) :=
  let sheetDefaultframes := max (or_else (default_frames js) (Fin 1)) (Fin (1 # 4)) in
  let rows0 := ((height data + gutter js) / (snd (sprite_size js) + gutter js))%Z in
  let cols0 := ((width data + gutter js) / (fst (sprite_size js) + gutter js))%Z in
  let rows := if transpose js then cols0 else rows0 in
  let cols := if transpose js then rows0 else cols0 in
  if ((rows =? 0) || (cols =? 0))%Z then Throw larger_than_sheet
  else
    let '(g, (h, lastSpriteID)) :=
      make_grid (transpose js) sheetDefaultframes
                (seq 0 (Z.to_nat cols)) (Z.to_nat rows) st in
    '(g, h, table) ← apply_names js sheetDefaultframes (names js) (columns g, h, []);
    h ← create_flipped g h;
    Normal ({| grid := g; table := table |}, (h, lastSpriteID)).

(** *** [animationFrame] *)

(** [while ((i > 0) && (f >= animation[i].frames)) { f -= animation[i].frames; --i; }] *)
Fixpoint count_backwards (h : list sprite) (animation : list address)
    (i : nat) (f : number) : completion nat :=
  match i with
  | O => Normal O
  | S i' =>
    match frames_at h animation (Z.of_nat i) with
    | None => Throw TypeError
    | Some d =>
      if ge f d then count_backwards h animation i' (sub f d) else Normal i
    end
  end.

(** [while ((i < N) && (f >= animation[i].frames)) { f -= animation[i].frames; ++i; }]
    with [rest] the elements from [i] on. *)
Fixpoint search_forward (h : list sprite) (rest : list address)
    (i : nat) (f : number) : completion nat :=
  match rest with
  | [] => Normal i
  | a :: rest' =>
    match frames <$> h !! a with
    | None => Throw TypeError
    | Some d =>
      if ge f d then search_forward h rest' (S i) (sub f d) else Normal i
    end
  end.

(** The function from the test of [oscillate] on, with [f] already clamped
    or reduced. *)
Definition find_frame (h : list sprite) (animation : Animation.t) (f : number)
  : completion (option address) :=
  let a := Animation.elements animation in
  let N := Z.of_nat (length a) in
  let forwards :=
    i ← search_forward h a 0 f;
    Normal (at_index a (Z.min (Z.of_nat i) (N - 1))) in
  if bool_decide (Animation.extrapolate animation = JS.u "oscillate") then
    match frames_at h a 0, frames_at h a (N - 1) with
    | Some first, Some last =>
      let reverseTime :=
        scale_by (add (add (Animation.period animation) first) last) (1 # 2) in
      if ge f reverseTime then
        (* Count backwards from the end *)
        let f := sub f reverseTime in
        if (N - 2 <=? 0)%Z then Normal (at_index a (N - 2))
        else
          i ← count_backwards h a (Z.to_nat (N - 2)) f;
          Normal (at_index a (Z.of_nat i))
      else forwards
    | _, _ => Throw TypeError
    end
  else forwards.

(** [((f % period) + period) % period] *)
Definition wrap (f period : number) : number :=
  rem (add (rem f period) period) period.

Definition animationFrame (h : list sprite) (animation : Animation.t)
    (f : number) : completion (option address) :=
  let f := floor f in
  let a := Animation.elements animation in
  let N := Z.of_nat (length a) in
  if bool_decide (Animation.extrapolate animation = JS.u "clamp") then
    if lt f (Fin 0) then Normal (at_index a 0)
    else if ge f (Animation.frames animation) then Normal (at_index a (N - 1))
    else find_frame h animation f
  else find_frame h animation (wrap f (Animation.period animation)).

(** [o.x_flipped] or [o.y_flipped] for the object at [a]. *)
Definition property (h : list sprite) (field : sprite -> option address)
    (a : address) : option address :=
  h !! a ≫= field.

(** [sheet[name]] as an animation. *)
Definition animation_named (name : jsstring) (sheet : spritesheet)
  : option Animation.t :=
  match array_index name with
  | Some k =>
    match grid sheet !! k with
    | Some (Some (Named (NamedAnimation a))) => Some a
    | _ => None
    end
  | None =>
    match list_find (fun e => e.1 = name) (table sheet) with
    | Some (_, (_, NamedAnimation a)) => Some a
    | _ => None
    end
  end.

(** Every name of the table is a property of the sheet like any other. *)
Definition ordinary (js : json) : bool :=
  forallb (fun entry : jsstring * Data.t => ordinary_name entry.1) (names js).

End Spritesheet.

(** ** The literal parser [$parse] and the table parser [parseCSV] *)

Module Parser.
Import JS.

Definition is_digit (c : N) : bool := ((0x30 <=? c) && (c <=? 0x39))%N.

(** The longest run of decimal digits at the head of [s]: its value after
    [acc], the number of digits, and what follows. *)
Fixpoint digits (acc : Z) (count : nat) (s : jsstring) : Z * nat * jsstring :=
  match s with
  | c :: r =>
    if is_digit c then digits (10 * acc + Z.of_N (c - 0x30))%Z (S count) r
    else (acc, count, s)
  | [] => (acc, count, s)
  end.

(** Whether [p] is a prefix of [s], and what follows it. *)
Fixpoint strip_prefix (p s : jsstring) : option jsstring :=
  match p, s with
  | [], _ => Some s
  | x :: p', y :: s' => if (x =? y)%N then strip_prefix p' s' else None
  | _ :: _, [] => None
  end.

(** An exponent part at the head of [s], if there is a complete one. *)
Definition exponent (s : jsstring) : Z :=
  match s with
  | c :: r =>
    if ((c =? chr "e") || (c =? chr "E"))%N then
      let '(negative, r') :=
        match r with
        | sign :: r' =>
          if (sign =? chr "-")%N then (true, r')
          else if (sign =? chr "+")%N then (false, r')
          else (false, r)
        | [] => (false, r)
        end in
      let '(e, count, _) := digits 0 0 r' in
      match count with
      | O => 0%Z
      | _ => if negative then (- e)%Z else e
      end
    else 0%Z
  | [] => 0%Z
  end.

(** [m * 10^e] *)
Definition times_power_of_ten (m : Q) (e : Z) : Q :=
  if (e <? 0)%Z then (m / inject_Z (10 ^ (- e)))%Q else (m * inject_Z (10 ^ e))%Q.

(** [parseFloat(s)]: leading white space is skipped, the longest prefix that
    is a decimal literal is read, what follows is ignored; NaN when there is
    no such prefix. *)
Definition parseFloat (s : jsstring) : number :=
  let s := trim_start s in
  let '(negative, s) :=
    match s with
    | sign :: r =>
      if (sign =? chr "-")%N then (true, r)
      else if (sign =? chr "+")%N then (false, r)
      else (false, s)
    | [] => (false, s)
    end in
  match strip_prefix (u "Infinity") s with
  | Some _ => if negative then NegInfinity else Infinity
  | None =>
    let '(int, int_count, s1) := digits 0 0 s in
    let '(all, frac_count, s2) :=
      match s1 with
      | c :: r =>
        if (c =? chr ".")%N then
          let '(all, frac_count, s2) := digits int 0 r in
          match int_count, frac_count with
          | O, O => (int, O, s1)
          | _, _ => (all, frac_count, s2)
          end
        else (int, O, s1)
      | [] => (int, O, s1)
      end in
    match int_count, frac_count with
    | O, O => NaN
    | _, _ =>
      let mantissa := (inject_Z all / inject_Z (10 ^ Z.of_nat frac_count))%Q in
      let magnitude := times_power_of_ten mantissa (exponent s2) in
      fin (if negative then (- magnitude)%Q else magnitude)
    end
  end.

(** The tokens that [$parse] knows by name, in the order and the groups of
    its [switch], with the value of each group. *)
Definition named_constants : list (list jsstring * value) :=
  [ ([u "true"], VBoolean true);
    ([u "false"], VBoolean false);
    ([u "nil"; u "∅"; u "builtin"], VUndefined);
    ([u "function"], VFunction);
    ([u "infinity"; u "∞"; u "+infinity"; u "+∞"], VNumber Infinity);
    ([u "-infinity"; u "-∞"], VNumber NegInfinity);
    ([u "nan"], VNumber NaN);
    ([u "pi"; u "π"; u "+pi"; u "+π"], VPiTimes 1);
    ([u "-pi"; u "-π"], VPiTimes (-1));
    ([u "¼pi"; u "¼π"; u "+¼pi"; u "+¼π"], VPiTimes (1 # 4));
    ([u "-¼pi"; u "-¼π"], VPiTimes (-1 # 4));
    ([u "½pi"; u "½π"; u "+½pi"; u "+½π"], VPiTimes (1 # 4));
    ([u "-½pi"; u "-½π"], VPiTimes (-1 # 4));
    ([u "¾pi"; u "¾π"; u "+¾pi"; u "+¾π"], VPiTimes (3 # 4));
    ([u "-¾pi"; u "-¾π"], VPiTimes (-3 # 4));
    ([u "¼"], VNumber (Fin (1 # 4)));
    ([u "½"], VNumber (Fin (1 # 2)));
    ([u "¾"], VNumber (Fin (3 # 4)));
    ([u "⅓"], VNumber (Fin (1 # 3)));
    ([u "⅔"], VNumber (Fin (2 # 3)));
    ([u "⅕"], VNumber (Fin (1 # 5)));
    ([u "⅖"], VNumber (Fin (2 # 5)));
    ([u "⅗"], VNumber (Fin (3 # 5)));
    ([u "⅘"], VNumber (Fin (4 # 5)));
    ([u "⅙"], VNumber (Fin (1 # 6)));
    ([u "⅚"], VNumber (Fin (5 # 6)));
    ([u "⅐"], VNumber (Fin (1 # 7)));
    ([u "⅛"], VNumber (Fin (1 # 8)));
    ([u "⅜"], VNumber (Fin (3 # 8)));
    ([u "⅝"], VNumber (Fin (5 # 8)));
    ([u "⅞"], VNumber (Fin (7 # 8)));
    ([u "⅑"], VNumber (Fin (1 # 9)));
    ([u "⅒"], VNumber (Fin (1 # 10)));
    ([u "-¼"], VNumber (Fin (-1 # 4)));
    ([u "-½"], VNumber (Fin (-1 # 2)));
    ([u "-¾"], VNumber (Fin (-3 # 4)));
    ([u "-⅓"], VNumber (Fin (-1 # 3)));
    ([u "-⅔"], VNumber (Fin (-2 # 3)));
    ([u "-⅕"], VNumber (Fin (-1 # 5)));
    ([u "-⅖"], VNumber (Fin (-2 # 5)));
    ([u "-⅗"], VNumber (Fin (-3 # 5)));
    ([u "-⅘"], VNumber (Fin (-4 # 5)));
    ([u "-⅙"], VNumber (Fin (-1 # 6)));
    ([u "-⅚"], VNumber (Fin (-5 # 6)));
    ([u "-⅐"], VNumber (Fin (-1 # 7)));
    ([u "-⅛"], VNumber (Fin (-1 # 8)));
    ([u "-⅜"], VNumber (Fin (-3 # 8)));
    ([u "-⅝"], VNumber (Fin (-5 # 8)));
    ([u "-⅞"], VNumber (Fin (-7 # 8)));
    ([u "-⅑"], VNumber (Fin (-1 # 9)));
    ([u "-⅒"], VNumber (Fin (-1 # 10))) ].

Fixpoint lookup_named (table : list (list jsstring * value)) (token : jsstring)
  : option value :=
  match table with
  | [] => None
  | (labels, v) :: rest =>
    if existsb (fun l => bool_decide (l = token)) labels then Some v
    else lookup_named rest token
  end.

(** [/suffix$/.test(token)] for a literal suffix. *)
Definition ends_with (suffix token : jsstring) : bool :=
  bool_decide (drop (length token - length suffix) token = suffix).

(** The [default] of the [switch] on the token. *)
Definition parse_number (token : jsstring) : value :=
  if ends_with (u "deg") token || ends_with (u "°") token
  then times_PI (parseFloat token) (1 # 180)
  else if ends_with (u "%") token
  then VNumber (scale_by (parseFloat token) (1 # 100))
  else VNumber (parseFloat token).

(** The value of a bare token. *)
Definition parse_token (token : jsstring) : value :=
  default (parse_number token) (lookup_named named_constants token).

(** [while (set.indexOf(source[i]) !== -1) { ++i; }], with [rest] the units
    from [i] on. *)
Fixpoint skip (set rest : jsstring) (i : nat) : nat :=
  match rest with
  | c :: r => if contains c set then skip set r (S i) else i
  | [] => i
  end.

(** The first index of a unit of [set] in the text whose units from [i] on
    are [rest]; the length of the text when there is none. *)
Fixpoint first_of (set rest : jsstring) (i : nat) : nat :=
  match rest with
  | c :: r => if contains c set then i else first_of set r (S i)
  | [] => i
  end.

(** [regexIndexOf(text, re, i)] for a pattern [re] that is a class of
    units, [set]. *)
Definition regexIndexOf (text set : jsstring) (i : nat) : nat :=
  first_of set (drop i text) i.

(** The scan for the closing quote of a string: a quote that follows a
    backslash does not close it. *)
Fixpoint closing_quote (previous : N) (rest : jsstring) (i : nat) : nat :=
  match rest with
  | c :: r =>
    if negb (c =? quote)%N || (previous =? chr "\")%N
    then closing_quote c r (S i)
    else i
  | [] => i
  end.

Definition blanks : jsstring := [chr " "; 0x09; 0x0A]%N.
Definition blanks_and_comma : jsstring := chr "," :: blanks.
Definition blanks_and_colon : jsstring := chr ":" :: blanks.
(** The units that end an unquoted key. *)
Definition key_end : jsstring := [chr ":"; chr " "; 0x0A; 0x09; quote]%N.
(** The units that end a bare token. *)
Definition token_end : jsstring :=
  [chr ","; chr ":"; chr "["; chr "{"; chr "}"; chr "]"; chr " "; 0x0A; 0x09; quote]%N.

Definition ellipsis : jsstring := u "…".

Definition is_ellipsis (v : value) : bool :=
  match v with
  | VString s => bool_decide (s = ellipsis)
  | _ => false
  end.

(** [t[key] = v] *)
Fixpoint set_property (key : jsstring) (v : value) (t : list (jsstring * value))
  : list (jsstring * value) :=
  match t with
  | [] => [(key, v)]
  | (k, w) :: rest =>
    if bool_decide (k = key) then (k, v) :: rest
    else (k, w) :: set_property key v rest
  end.

(** The case of a quoted string, for [source[i]] a quote: the string and
    the index after its closing quote. *)
Definition quoted_string (source : jsstring) (i : nat) : jsstring * nat :=
  let begin := S i in
  let i := closing_quote quote (drop begin source) begin in
  (substring begin i source, S i).

(** [$parse(source, i)]: the value read and the index after it.  Each call
    and each turn of the loops over the elements of an array or an object
    takes one unit of fuel; without fuel the parser is still running. *)
Fixpoint parse (fuel : nat) (source : jsstring) (i : nat)
  : option (completion (value * nat)) :=
  match fuel with
  | O => None
  | S fuel' =>
    let i := skip blanks (drop i source) i in
    match source !! i with
    | None => Some (Throw (u "hit the end of " ++ source))
    | Some c =>
      if (c =? quote)%N then
        let '(result, next) := quoted_string source i in
        Some (Normal (VString result, next))
      else if (c =? chr "[")%N then
        let i := skip blanks (drop (S i) source) (S i) in
        parse_array fuel' source i []
      else if (c =? chr "{")%N then
        let i := skip blanks (drop (S i) source) (S i) in
        parse_object fuel' source i []
      else
        let end_ := regexIndexOf source token_end i in
        let token := toLowerCase (substring i end_ source) in
        Some (Normal (parse_token token, end_))
    end
  end
with parse_array (fuel : nat) (source : jsstring) (i : nat) (a : list value)
  : option (completion (value * nat)) :=
  match fuel with
  | O => None
  | S fuel' =>
    match source !! i with
    | None => Some (Normal (VArray a, S i))
    | Some c =>
      if (c =? chr "]")%N then Some (Normal (VArray a, S i))
      else
        match parse fuel' source i with
        | None => None
        | Some (Throw m) => Some (Throw m)
        | Some (Normal (result, next)) =>
          if is_ellipsis result then
            let i := regexIndexOf source [chr "]"] i in
            Some (Normal (VArray [], S i))
          else
            let i := skip blanks_and_comma (drop next source) next in
            parse_array fuel' source i (a ++ [result])
        end
    end
  end
with parse_object (fuel : nat) (source : jsstring) (i : nat)
    (t : list (jsstring * value)) : option (completion (value * nat)) :=
  match fuel with
  | O => None
  | S fuel' =>
    match source !! i with
    | None => Some (Normal (VObject t, S i))
    | Some c =>
      if (c =? chr "}")%N then Some (Normal (VObject t, S i))
      else
        (* Read the key: in quotes, or up to the next separator *)
        let '(key, i) :=
          if (c =? quote)%N then quoted_string source i
          else
            let end_ := regexIndexOf source key_end i in
            (substring i end_ source, end_) in
        if bool_decide (key = ellipsis) then
          let i := regexIndexOf source [chr "}"] i in
          Some (Normal (VObject [], S i))
        else
          let i := skip blanks_and_colon (drop i source) i in
          match parse fuel' source i with
          | None => None
          | Some (Throw m) => Some (Throw m)
          | Some (Normal (result, next)) =>
            let i := skip blanks_and_comma (drop next source) next in
            parse_object fuel' source i (set_property key result t)
          end
    end
  end.

(** *** [parseCSV] *)

(** What the first group of [objPattern] matched: a comma, a line break, or
    the empty string at the start of the text. *)
Inductive separator := Comma | LineBreak | Start.

(** [(,|\r?\n|\r|^)] at index [i], with [s] the text from [i] on. *)
Definition match_separator (i : nat) (s : jsstring) : option (separator * jsstring) :=
  match s with
  | c :: r =>
    if (c =? chr ",")%N then Some (Comma, r)
    else if (c =? 0x0D)%N then
      match r with
      | c' :: r' => if (c' =? 0x0A)%N then Some (LineBreak, r') else Some (LineBreak, r)
      | [] => Some (LineBreak, r)
      end
    else if (c =? 0x0A)%N then Some (LineBreak, r)
    else if (i =? 0)%nat then Some (Start, s)
    else None
  | [] => if (i =? 0)%nat then Some (Start, s) else None
  end.

(** The quoted alternative of [objPattern] after the opening quote: the
    text of its group and what follows the closing quote.  The pattern prefers to take a pair of
    quotes as part of the field, and falls back on the first quote of the
    pair as the closing one when no closing quote follows. *)
Fixpoint quoted (s : jsstring) : option (jsstring * jsstring) :=
  match s with
  | [] => None
  | c :: r =>
    if (c =? quote)%N then
      match r with
      | c' :: r' =>
        if (c' =? quote)%N then
          match quoted r' with
          | Some (text, after) => Some (quote :: quote :: text, after)
          | None => Some ([], r)
          end
        else Some ([], r)
      | [] => Some ([], r)
      end
    else
      match quoted r with
      | Some (text, after) => Some (c :: text, after)
      | None => None
      end
  end.

(** The unquoted alternative: the longest run without a comma or a line
    break. *)
Fixpoint unquoted (s : jsstring) : jsstring * jsstring :=
  match s with
  | c :: r =>
    if ((c =? chr ",") || (c =? 0x0D) || (c =? 0x0A))%N then ([], s)
    else let '(text, after) := unquoted r in (c :: text, after)
  | [] => ([], [])
  end.

(** Every pair of quotes becomes one quote. *)
Fixpoint unescape (s : jsstring) : jsstring :=
  match s with
  | c :: r =>
    match r with
    | c' :: r' =>
      if ((c =? quote) && (c' =? quote))%N then quote :: unescape r'
      else c :: unescape r
    | [] => [c]
    end
  | [] => []
  end.

(** The field after the separator, as the loop pushes it:
    [arrMatches[2] ? arrMatches[2].replace(...) : arrMatches[3]].  The third
    group is [undefined] when the quoted alternative matched. *)
Definition field (s : jsstring) : option jsstring * jsstring :=
  let plain := let '(text, after) := unquoted s in (Some text, after) in
  match s with
  | c :: r =>
    if (c =? quote)%N then
      match quoted r with
      | Some ([], after) => (None, after)
      | Some (text, after) => (Some (unescape text), after)
      | None => plain
      end
    else plain
  | [] => plain
  end.

(** [objPattern.exec(strData)] with [lastIndex = i] and [s] the text from
    [i] on: the first match at or after [i], and the new [lastIndex]. *)
Fixpoint exec (i : nat) (s : jsstring)
  : option (separator * option jsstring * nat) :=
  match match_separator i s with
  | Some (sep, r) =>
    let '(cell, after) := field r in
    Some (sep, cell, (i + (length s - length after))%nat)
  | None =>
    match s with
    | _ :: r => exec (S i) r
    | [] => None
    end
  end.

(** [data[data.length - 1].push(x)] *)
Definition push_last {A} (x : A) (data : list (list A)) : list (list A) :=
  alter (fun row => row ++ [x]) (length data - 1)%nat data.

(** The loop over the matches.  Without fuel it is still running. *)
Fixpoint match_all (fuel : nat) (strData : jsstring) (lastIndex : nat)
    (data : list (list (option jsstring))) : option (list (list (option jsstring))) :=
  match fuel with
  | O => None
  | S fuel' =>
    match exec lastIndex (drop lastIndex strData) with
    | None => Some data
    | Some (sep, cell, lastIndex') =>
      let data := match sep with LineBreak => data ++ [[]] | _ => data end in
      match_all fuel' strData lastIndex' (push_last cell data)
    end
  end.

(** [Array.prototype.fill(value, start, end)] for integers [start] and
    [end]. *)
Definition fill {A} (value : A) (start end_ : Z) (a : list A) : list A :=
  let len := Z.of_nat (length a) in
  let k := if (start <? 0)%Z then Z.max (len + start) 0 else Z.min start len in
  let final := if (end_ <? 0)%Z then Z.max (len + end_) 0 else Z.min end_ len in
  imap (fun i x => if ((k <=? Z.of_nat i) && (Z.of_nat i <? final))%Z then value else x) a.

(** The strings that the second pass of [parseCSV] knows by name. *)
Definition special_strings : list (list jsstring * value) :=
  [ ([u "infinity"; u "+infinity"], VNumber Infinity);
    ([u "-infinity"], VNumber NegInfinity);
    ([u "nil"; u "null"], VUndefined);
    ([u "NaN"; u "nan"], VNumber NaN);
    ([u "TRUE"; u "true"], VBoolean true);
    ([u "FALSE"; u "false"], VBoolean false) ].

(** [[+\-0-9\.e]+] over the whole of [s]. *)
Definition numeric (s : jsstring) : bool :=
  match s with
  | [] => false
  | _ => forallb (fun c => contains c (u "+-0123456789.e")) s
  end.

(** The [default] of the [switch] of the second pass; [None] when the cell
    stays as it is. *)
Definition unwrap (val : jsstring) : option value :=
  let n := length val in
  match val with
  | c :: r =>
    if contains c (u "$¥€£§") && numeric r
    then Some (VNumber (parseFloat (drop 1 val)))
    else if ends_with (u "%") val && numeric (take (n - 1) val)
    then Some (VNumber (scale_by (parseFloat (substring 0 (n - 1) val)) (1 # 100)))
    else if ends_with (u " deg") val && numeric (take (n - 4) val)
            || ends_with (u "deg") val && numeric (take (n - 3) val)
    then Some (times_PI (parseFloat (trim (substring 0 (n - 3) val))) (1 # 180))
    else None
  | [] => None
  end.

(** What the second pass makes of a cell. *)
Definition coerce (trim : bool) (cell : option jsstring) : value :=
  let v := match cell with Some s => parseFloat s | None => NaN end in
  if negb (isNaN v) then VNumber v
  else
    match cell with
    | None => VUndefined
    | Some [] => VString []
    | Some s =>
      let val := if trim then JS.trim s else s in
      match lookup_named special_strings val with
      | Some v => v
      | None => default (VString val) (unwrap val)
      end
    end.

(** The second pass on a row.  An element of the result is [None] where the
    array has no element at that index.  The third argument of [fill] is the
    empty string, which [fill] reads as the index 0. *)
Definition normalize (trim : bool) (max : nat) (row : list (option jsstring))
  : list (option value) :=
  let array := List.map (fun c => Some (coerce trim c)) row in
  if (length array <? max)%nat then
    let old := length array in
    let array := array ++ replicate (max - old) None in
    fill (Some (VNumber (of_Z (Z.of_nat old)))) (Z.of_nat max) 0 array
  else array.

Definition parseCSV (fuel : nat) (strData : jsstring) (trim : bool)
  : option (list (list (option value))) :=
  data ← match_all fuel strData 0 [[]];
  let max := foldl Nat.max 0%nat (List.map length data) in
  Some (List.map (normalize trim max) data).

End Parser.

(** ** Inputs used in examples *)

Module Samples.
Import JS.

(** Constants [A], [B] that refer to each other. *)
Definition reference (target : string) : AfterLoadGame.definition :=
  {| AfterLoadGame.type := u "reference"; AfterLoadGame.value := u target |}.

Definition two_cycle : gmap jsstring AfterLoadGame.definition :=
  <[ u "A" := reference "B" ]> (<[ u "B" := reference "A" ]> ∅).

(** A chain from [A] into a cycle that does not pass through [A]. *)
Definition late_cycle : gmap jsstring AfterLoadGame.definition :=
  <[ u "A" := reference "B" ]>
    (<[ u "B" := reference "C" ]> (<[ u "C" := reference "B" ]> ∅)).

(** Two declared modes with the name of the start mode. *)
Definition two_play_modes : list jsstring := [u "Play"; u "bonus/Play"].

(** A stand-in for [makeURLAbsolute], where an example needs one. *)
Definition beside (parentURL childURL : jsstring) : jsstring :=
  parentURL ++ childURL.





(** A sheet of two cells and no names, from a 32 by 16 image. *)
Definition plain : Spritesheet.json :=
  {| Spritesheet.sprite_size := (16, 16)%Z; Spritesheet.gutter := 0%Z;
     Spritesheet.transpose := false; Spritesheet.default_frames := None;
     Spritesheet.names := [] |}.

Definition strip (cells : Z) : Spritesheet.image_data :=
  {| Spritesheet.width := 16 * cells; Spritesheet.height := 16 |}.

(** An entry of [json.names] with only [start], and one with only [x] and
    [y]. *)
Definition run_from (x y : Z) : Spritesheet.Data.t :=
  {| Spritesheet.Data.x := None; Spritesheet.Data.y := None;
     Spritesheet.Data.start := Some (x, y);
     Spritesheet.Data.end_x := None; Spritesheet.Data.end_y := None;
     Spritesheet.Data.frames := None; Spritesheet.Data.default_frames := None;
     Spritesheet.Data.extrapolate := None;
     Spritesheet.Data.other_orientation_id := None |}.

Definition sprite_at (x y : Z) : Spritesheet.Data.t :=
  {| Spritesheet.Data.x := Some x; Spritesheet.Data.y := Some y;
     Spritesheet.Data.start := None;
     Spritesheet.Data.end_x := None; Spritesheet.Data.end_y := None;
     Spritesheet.Data.frames := None; Spritesheet.Data.default_frames := None;
     Spritesheet.Data.extrapolate := None;
     Spritesheet.Data.other_orientation_id := None |}.

Definition with_names (names : list (jsstring * Spritesheet.Data.t))
  : Spritesheet.json :=
  {| Spritesheet.sprite_size := (16, 16)%Z; Spritesheet.gutter := 0%Z;
     Spritesheet.transpose := false; Spritesheet.default_frames := None;
     Spritesheet.names := names |}.

(** [{"spin": {"start": {"x": 0, "y": 0}, "end": {"x": 2}}}]: a loop of
    three cells, one frame each. *)
Definition spin : Spritesheet.json :=
  with_names
    [ (u "spin",
       {| Spritesheet.Data.x := None; Spritesheet.Data.y := None;
          Spritesheet.Data.start := Some (0, 0)%Z;
          Spritesheet.Data.end_x := Some 2%Z; Spritesheet.Data.end_y := None;
          Spritesheet.Data.frames := None;
          Spritesheet.Data.default_frames := None;
          Spritesheet.Data.extrapolate := None;
          Spritesheet.Data.other_orientation_id := None |}) ].

(** [{"blink": {"start": {"x": 0, "y": 0}, "end": {"x": 1},
                "frames": [0.25, 0.5]}}]: a loop whose period is 0.75. *)
Definition blink : Spritesheet.json :=
  with_names
    [ (u "blink",
       {| Spritesheet.Data.x := None; Spritesheet.Data.y := None;
          Spritesheet.Data.start := Some (0, 0)%Z;
          Spritesheet.Data.end_x := Some 1%Z; Spritesheet.Data.end_y := None;
          Spritesheet.Data.frames :=
            Some (Spritesheet.Data.FramesArray [Fin (1 # 4); Fin (1 # 2)]);
          Spritesheet.Data.default_frames := None;
          Spritesheet.Data.extrapolate := None;
          Spritesheet.Data.other_orientation_id := None |}) ].

(** [{"glow": {"start": {"x": 0, "y": 0}, "extrapolate": "oscillate",
               "frames": 4},
      "idle": {"x": 0, "y": 0, "default_frames": 0.25}}]: an animation of
    one cell, and a name for the same cell that shortens its duration. *)
Definition glow : Spritesheet.json :=
  with_names
    [ (u "glow",
       {| Spritesheet.Data.x := None; Spritesheet.Data.y := None;
          Spritesheet.Data.start := Some (0, 0)%Z;
          Spritesheet.Data.end_x := None; Spritesheet.Data.end_y := None;
          Spritesheet.Data.frames := Some (Spritesheet.Data.FramesNumber (Fin 4));
          Spritesheet.Data.default_frames := None;
          Spritesheet.Data.extrapolate := Some (u "oscillate");
          Spritesheet.Data.other_orientation_id := None |});
      (u "idle",
       {| Spritesheet.Data.x := Some 0%Z; Spritesheet.Data.y := Some 0%Z;
          Spritesheet.Data.start := None;
          Spritesheet.Data.end_x := None; Spritesheet.Data.end_y := None;
          Spritesheet.Data.frames := None;
          Spritesheet.Data.default_frames := Some (Fin (1 # 4));
          Spritesheet.Data.extrapolate := None;
          Spritesheet.Data.other_orientation_id := None |}) ].

(** [{"0": {"x": 0, "y": 0}}]: a name for the first cell that is an array
    index. *)
Definition zero : Spritesheet.json :=
  with_names [ (u "0", sprite_at 0 0) ].

(** The sheet and the store that compiling [js] from an image of [cells]
    cells in a row gives, starting from an empty store and sprite ID 0. *)
Definition compiled (js : Spritesheet.json) (cells : Z)
  : option (Spritesheet.spritesheet * list Spritesheet.sprite) :=
  match Spritesheet.compile js (strip cells) ([], 0%Z) with
  | Normal (sheet, (h, _)) => Some (sheet, h)
  | Throw _ => None
  end.

End Samples.

(** ** The layout of a sheet and the timeline of an animation *)

Module SheetLayout.
Import JS Spritesheet.

(** [rows] and [cols] of the loader, after the swap of a transposed sheet. *)
Definition rows (js : json) (data : image_data) : Z :=
  let rows0 := ((height data + gutter js) / (snd (sprite_size js) + gutter js))%Z in
  let cols0 := ((width data + gutter js) / (fst (sprite_size js) + gutter js))%Z in
  if transpose js then cols0 else rows0.

Definition cols (js : json) (data : image_data) : Z :=
  let rows0 := ((height data + gutter js) / (snd (sprite_size js) + gutter js))%Z in
  let cols0 := ((width data + gutter js) / (fst (sprite_size js) + gutter js))%Z in
  if transpose js then rows0 else cols0.

(** The properties of a sprite that the name table leaves alone. *)
Definition fixed (s : sprite)
  : nat * nat * Z * (Z * Z) * option address * option address * bool :=
  (_tileX s, _tileY s, id s, scale s, x_flipped s, y_flipped s, frozen s).

(** What an entry of the name table may name: sprites of the grid. *)
Definition entry_of_grid (g : list (list address)) (e : named) : Prop :=
  match e with
  | NamedSprite a => a ∈ concat g
  | NamedAnimation animation =>
    forall e, e ∈ Animation.elements animation -> e ∈ concat g
  end.

End SheetLayout.

Module Timeline.
Import JS Spritesheet.

(** The time that the durations [ds] take together. *)
Fixpoint Qsum (ds : list Q) : Q :=
  match ds with
  | [] => 0%Q
  | d :: rest => (d + Qsum rest)%Q
  end.

(** The sprites of [animation] last [ds], in this order. *)
Definition lasts (h : list sprite) (animation : list address) (ds : list Q) : Prop :=
  Forall2 (fun a d => frames <$> h !! a = Some (Fin d) /\ (0 < d)%Q) animation ds.

End Timeline.

Module SheetSamples.
Import JS.

(** [{"fade": {"start": {"x": 0, "y": 0}, "end": {"x": 1},
               "extrapolate": "clamp", "frames": [2, 3]}}]: a clamped
    animation of two cells that lasts five frames. *)
Definition fade : Spritesheet.json :=
  Samples.with_names
    [ (u "fade",
       {| Spritesheet.Data.x := None; Spritesheet.Data.y := None;
          Spritesheet.Data.start := Some (0, 0)%Z;
          Spritesheet.Data.end_x := Some 1%Z; Spritesheet.Data.end_y := None;
          Spritesheet.Data.frames :=
            Some (Spritesheet.Data.FramesArray [Fin 2; Fin 3]);
          Spritesheet.Data.default_frames := None;
          Spritesheet.Data.extrapolate := Some (u "clamp");
          Spritesheet.Data.other_orientation_id := None |}) ].

End SheetSamples.

(** ** Colors in hexadecimal: [parseHex] and [parseHexColor] *)

Module Color.
Import JS.

Definition is_hex_digit (c : N) : bool :=
  (((0x30 <=? c) && (c <=? 0x39)) || ((0x41 <=? c) && (c <=? 0x46))
   || ((0x61 <=? c) && (c <=? 0x66)))%N.

Definition hex_value (c : N) : Z :=
  if (c <=? 0x39)%N then Z.of_N (c - 0x30)
  else if (c <=? 0x46)%N then Z.of_N (c - 0x41 + 10)
  else Z.of_N (c - 0x61 + 10).

(** The longest run of hexadecimal digits at the head of [s]: its value
    after [acc] and the number of digits. *)
Fixpoint hex_digits (acc : Z) (count : nat) (s : jsstring) : Z * nat :=
  match s with
  | c :: r =>
    if is_hex_digit c then hex_digits (16 * acc + hex_value c)%Z (S count) r
    else (acc, count)
  | [] => (acc, count)
  end.

(** [parseInt(s, 16)]: white space, a sign and a prefix [0x] are skipped,
    then the digits are read as far as they go. *)
Definition parseInt16 (s : jsstring) : number :=
  let s := trim_start s in
  let '(sign, s) :=
    match s with
    | c :: r =>
      if (c =? chr "-")%N then ((-1)%Z, r)
      else if (c =? chr "+")%N then (1%Z, r)
      else (1%Z, s)
    | [] => (1%Z, s)
    end in
  let s :=
    match s with
    | c0 :: c1 :: r =>
      if ((c0 =? chr "0") && ((c1 =? chr "x") || (c1 =? chr "X")))%N then r else s
    | _ => s
    end in
  let '(n, count) := hex_digits 0 0 s in
  match count with
  | O => NaN
  | S _ => of_Z (sign * n)
  end.

(** [str.replace(/^0*/, '')] *)
Fixpoint strip_zeros (s : jsstring) : jsstring :=
  match s with
  | c :: r => if (c =? chr "0")%N then strip_zeros r else s
  | [] => []
  end.

Definition parseHex (str : jsstring) : number :=
  let div := if (length str =? 2)%nat then 255%positive else 15%positive in
  match strip_zeros str with
  | [] => Fin 0
  | str => scale_by (parseInt16 str) (1 # div)
  end.

Record rgba := { r : number; g : number; b : number; a : number }.

Definition illegal_color (str : jsstring) : jsstring :=
  u "Illegal hexadecimal color specification: '#" ++ str ++ u "'".

(** The [switch] on the length, with its cases that fall through. *)
Definition parseHexColor (str : jsstring) : completion rgba :=
  let pairs (a : number) :=
    Normal {| r := parseHex (substring 0 2 str);
              g := parseHex (substring 2 4 str);
              b := parseHex (substring 4 6 str); a := a |} in
  let singles (a : number) :=
    Normal {| r := parseHex (substring 0 1 str);
              g := parseHex (substring 1 2 str);
              b := parseHex (substring 2 3 str); a := a |} in
  let gray := Normal {| r := parseHex str; g := parseHex str;
                        b := parseHex str; a := Fin 1 |} in
  match length str with
  | 8 => pairs (parseHex (substring 6 8 str))
  | 6 => pairs (Fin 1)
  | 4 => singles (parseHex (substring 3 4 str))
  | 3 => singles (Fin 1)
  | 2 => gray
  | 1 => gray
  | _ => Throw (illegal_color str)
  end.

(** A number of the interval from 0 to 1. *)
Definition in_unit (x : number) : bool :=
  match x with
  | Fin q => Qle_bool 0 q && Qle_bool q 1
  | _ => false
  end.

End Color.

(** ** Tables: [transposeGrid] and the cells of a table constant *)

Module Table.
Import JS Parser.

(** A grid of cells as [parseCSV] returns it: an element is [None] where
    the row has no element at that index. *)
Abbreviation grid := (list (list (option value))).

(** [src[j][i]]: [undefined] where the row has no element. *)
Definition read (src : grid) (j i : nat) : value :=
  match src !! j with
  | Some row =>
    match row !! i with
    | Some (Some v) => v
    | _ => VUndefined
    end
  | None => VUndefined
  end.

(** [src[0].length] is a [TypeError] when [src] has no row; every element of
    the result is assigned, so the result has no holes. *)
Definition transposeGrid (src : grid) : completion grid :=
  match src with
  | [] => Throw TypeError
  | row0 :: _ =>
    Normal (List.map (fun i => List.map (fun j => Some (read src j i))
                                        (seq 0 (length src)))
                     (seq 0 (length row0)))
  end.

(** The properties of the definition of a table constant that decide which
    cells the table has.  [trim] is [definition.trim !== false]; the others
    are read as booleans. *)
Record definition := {
  transpose : bool;
  trim : bool;
  ignore_first_row : bool;
  ignore_first_column : bool
}.

(** The callback that receives the text of the table, up to the comment
    "Parse table": the grid from which the table is built, and which is the
    table itself when both [row_type] and [column_type] are ["array"]. *)
Definition cells (fuel : nat) (d : definition) (csv : jsstring)
  : option (completion grid) :=
  grid ← parseCSV fuel csv (trim d);
  Some (
    grid ← (if transpose d then Normal grid else transposeGrid grid);
    let grid :=
      if ignore_first_row d || (ignore_first_column d && transpose d)
      then List.map (drop 1) grid   (* grid[x].shift() for each x *)
      else grid in
    let grid :=
      if ignore_first_column d || (ignore_first_row d && transpose d)
      then drop 1 grid              (* grid.shift() *)
      else grid in
    Normal grid).

(** Every row has [n] elements and none is missing. *)
Definition dense (n : nat) (g : grid) : Prop :=
  Forall (fun row => length row = n /\ Forall is_Some row) g.

End Table.

Module TableSamples.
Import JS.

(** A table of two lines, the first with the names of the columns. *)
Definition scores : jsstring := u "name,score" ++ [0x0A%N] ++ u "ann,7".

Definition with_header : Table.definition :=
  {| Table.transpose := false; Table.trim := true;
     Table.ignore_first_row := true; Table.ignore_first_column := false |}.

Definition by_line : Table.definition :=
  {| Table.transpose := true; Table.trim := true;
     Table.ignore_first_row := true; Table.ignore_first_column := false |}.

End TableSamples.

(** ** Pixels: [getImageData4Bit], [getImageData4BitAndFlip] and the scan
       for transparency *)

Module Pixels.
Import JS.

(** A typed array with the properties [width] and [height] that the loader
    adds to it. *)
Record typed_array := {
  data : list Z;
  width : Z;
  height : Z
}.

Record region := {
  corner : Z * Z;
  size : Z * Z
}.

(** The conversions of the bitwise operators and of a store to a
    [Uint16Array]. *)
Definition to_int32 (x : Z) : Z := ((x + 2 ^ 31) mod 2 ^ 32 - 2 ^ 31)%Z.
Definition to_uint32 (x : Z) : Z := (x mod 2 ^ 32)%Z.
Definition to_uint16 (x : Z) : Z := (x mod 2 ^ 16)%Z.

(** The region of a sheet once the size of the image is known:
    [Math.min(Math.max(0, corner), image.size)], then
    [Math.min(image.size - corner, size)], where a region without a size has
    the size infinity. *)
Definition clamp_region (image_width image_height : Z) (corner0 : Z * Z)
    (size0 : option (Z * Z)) : region :=
  let cx := Z.min (Z.max 0 (fst corner0)) image_width in
  let cy := Z.min (Z.max 0 (snd corner0)) image_height in
  {| corner := (cx, cy);
     size := match size0 with
             | Some (sx, sy) => (Z.min (image_width - cx) sx, Z.min (image_height - cy) sy)
             | None => ((image_width - cx)%Z, (image_height - cy)%Z)
             end |}.

(** [TypedArray.prototype.slice(start, end)] *)
Definition slice (start end_ : Z) (a : list Z) : list Z :=
  let len := Z.of_nat (length a) in
  let k := if (start <? 0)%Z then Z.max (len + start) 0 else Z.min start len in
  let final := if (end_ <? 0)%Z then Z.max (len + end_) 0 else Z.min end_ len in
  take (Z.to_nat (final - k)) (drop (Z.to_nat k) a).

(** [target.set(source, offset)] *)
Definition set (source : list Z) (offset : Z) (target : list Z)
  : completion (list Z) :=
  if ((offset <? 0) || (Z.of_nat (length target) <? offset + Z.of_nat (length source)))%Z
  then Throw RangeError
  else Normal (take (Z.to_nat offset) target ++ source
               ++ drop (Z.to_nat offset + length source) target).

(** The loop that copies the rows of the region. *)
Fixpoint copy_rows (raw : typed_array) (r : region) (ys : list nat)
    (cropped : list Z) : completion (list Z) :=
  match ys with
  | [] => Normal cropped
  | y :: ys' =>
    let y := Z.of_nat y in
    let srcOffset := ((y + snd (corner r)) * width raw + fst (corner r))%Z in
    cropped ← set (slice srcOffset (srcOffset + fst (size r)) (data raw))
                  (y * fst (size r)) cropped;
    copy_rows raw r ys' cropped
  end.

(** [const c = data[i] >> 4;
     result[i] = ((c & 0xf000000) >> 12) | ((c & 0xf0000) >> 8)
                 | ((c & 0xf00) >> 4) | c & 0xf;] *)
Definition quantize (pixel : Z) : Z :=
  let c := Z.shiftr (to_int32 pixel) 4 in
  to_uint16
    (Z.lor (Z.lor (Z.lor (Z.shiftr (Z.land c 0xf000000) 12)
                         (Z.shiftr (Z.land c 0xf0000) 8))
                  (Z.shiftr (Z.land c 0xf00) 4))
           (Z.land c 0xf)).

(** [raw] is the [Uint32Array] over the pixels of the image, with the size
    of the image. *)
Definition getImageData4Bit (raw : typed_array) (r : option region)
    (full32bitoutput : bool) : completion typed_array :=
  cropped ←
    match r with
    | Some r =>
      if negb (fst (corner r) =? 0)%Z || negb (snd (corner r) =? 0)%Z
         || negb (fst (size r) =? width raw)%Z || negb (snd (size r) =? height raw)%Z
      then
        let n := (fst (size r) * snd (size r))%Z in
        if (n <? 0)%Z then Throw RangeError
        else
          pixels ← copy_rows raw r (seq 0 (Z.to_nat (snd (size r))))
                             (replicate (Z.to_nat n) 0%Z);
          Normal {| data := pixels; width := fst (size r); height := snd (size r) |}
      else Normal raw
    | None => Normal raw
    end;
  if full32bitoutput then Normal cropped
  else Normal {| data := List.map quantize (data cropped);
                 width := width cropped; height := height cropped |}.

(** The two loops that fill [flipped]; a read outside the array gives
    [undefined], which a typed array stores as 0, and a write outside it
    does nothing. *)
Definition flip_x (p : typed_array) : typed_array :=
  let w := Z.to_nat (width p) in
  let h := Z.to_nat (height p) in
  {| data :=
       foldl (fun flipped '(x, y) =>
                let i := x + y * w in
                let j := (w - 1 - x) + y * w in
                <[ i := default 0%Z (data p !! j) ]> flipped)
             (replicate (length (data p)) 0%Z)
             (flat_map (fun y => List.map (fun x => (x, y)) (seq 0 w)) (seq 0 h));
     width := width p; height := height p |}.

Definition getImageData4BitAndFlip (raw : typed_array) (r : option region)
  : completion (typed_array * typed_array) :=
  pixels ← getImageData4Bit raw r false;
  Normal (pixels, flip_x pixels).

(** [(data[index] >>> 12) & 0xf] *)
Definition alpha15 (pixel : Z) : Z :=
  Z.land (Z.shiftr (to_uint32 pixel) 12) 0xf.

(** The scan of the pixels of one sprite for transparency.  The state is
    [(hasAlpha, hasFractionalAlpha)]; the scan stops at the first pixel that
    is neither opaque nor fully transparent.  [data[index]] outside the
    array is [undefined], for which [alpha15] is 0. *)
Fixpoint scan (pixels : list Z) (indices : list Z) (hasAlpha : bool)
  : bool * bool :=
  match indices with
  | [] => (hasAlpha, false)
  | index :: rest =>
    let alpha15 := alpha15 (default 0%Z (at_index pixels index)) in
    if (alpha15 <? 0xf)%Z then
      if (0 <? alpha15)%Z then (true, true)
      else scan pixels rest true
    else scan pixels rest hasAlpha
  end.

(** The indices that the two loops over [j] and [i] visit, for the sprite
    of tile [(u, v)]. *)
Definition sprite_indices (sprite_size : Z * Z) (gutter : Z) (data_width : Z)
    (u v : Z) : list Z :=
  flat_map
    (fun j =>
       let index := ((v * (snd sprite_size + gutter) + Z.of_nat j) * data_width
                     + u * (fst sprite_size + gutter))%Z in
       List.map (fun i => (index + Z.of_nat i)%Z) (seq 0 (Z.to_nat (fst sprite_size))))
    (seq 0 (Z.to_nat (snd sprite_size))).

End Pixels.

(** ** Tile maps: the cells of a layer in [loadMap] *)

Module Tilemap.
Import JS Spritesheet.

(** [ToInt32] of an element of the layer data, which is an integer or, where
    [parseInt] found no number or the data ends, [NaN] or [undefined]. *)
Definition to_int32 (gid : option Z) : Z :=
  match gid with
  | Some gid => Pixels.to_int32 gid
  | None => 0%Z
  end.

(** [tileFlipX], [tileFlipY] and [tmxIndex] of a cell. *)
Definition decode (gid : option Z) : bool * bool * Z :=
  (negb (Z.land (to_int32 gid) (Pixels.to_int32 0x80000000) =? 0)%Z,
   negb (Z.land (to_int32 gid) 0x40000000 =? 0)%Z,
   (Z.land (to_int32 gid) 0x0fffffff - 1)%Z).

(** The sprite of a cell: [map.spritesheet[sx][sy]], then [x_flipped] and
    [y_flipped] as the flags say; [None] is [undefined].  [columns] is
    [None] where [parseInt] found no number. *)
Definition tile (h : list sprite) (sheet : list (list address))
    (columns : option Z) (gid : option Z) : completion (option address) :=
  let '(tileFlipX, tileFlipY, tmxIndex) := decode gid in
  if (0 <=? tmxIndex)%Z then
    match columns with
    | None | Some 0%Z => Throw TypeError
    | Some columns =>
      let sx := Z.rem tmxIndex columns in
      let sy := (tmxIndex / columns)%Z in
      match at_index sheet sx with
      | None => Throw TypeError
      | Some column =>
        let sprite := at_index column sy in
        sprite ←
          (if tileFlipX then
             match sprite with
             | Some a => Normal (property h x_flipped a)
             | None => Throw TypeError
             end
           else Normal sprite);
        if tileFlipY then
          match sprite with
          | Some a => Normal (property h y_flipped a)
          | None => Throw TypeError
          end
        else Normal sprite
      end
    end
  else Normal None.

(** A layer: [layer[x][y]] is [None] where the column has no element yet. *)
Abbreviation layer := (list (list (option (option address)))).

(** The loops over [y] and [x] that fill a layer of [size_x] columns and
    [size_y] rows; [i] counts the cells. *)
Fixpoint fill (h : list sprite) (sheet : list (list address))
    (columns : option Z) (flipY : bool) (size_y : nat) (data : list (option Z))
    (cells : list (nat * nat)) (i : nat) (l : layer) : completion layer :=
  match cells with
  | [] => Normal l
  | (x, y) :: rest =>
    sprite ← tile h sheet columns (mjoin (data !! i));
    let y' := if flipY then size_y - 1 - y else y in
    fill h sheet columns flipY size_y data rest (S i)
         (alter (fun column => <[ y' := Some sprite ]> column) x l)
  end.

Definition load_layer (h : list sprite) (sheet : list (list address))
    (columns : option Z) (flipY : bool) (size_x size_y : nat)
    (data : list (option Z)) : completion layer :=
  fill h sheet columns flipY size_y data
       (flat_map (fun y => List.map (fun x => (x, y)) (seq 0 size_x)) (seq 0 size_y))
       0 (replicate size_x (replicate size_y None)).

(** [l[x][y]] *)
Definition at_cell (l : layer) (x y : nat) : option (option (option address)) :=
  l !! x ≫= (fun column => column !! y).

(** [size_x] columns of [size_y] cells. *)
Definition shaped (size_x size_y : nat) (l : layer) : Prop :=
  length l = size_x /\ Forall (fun column => length column = size_y) l.

(** 1 or 0 *)
Definition bit (b : bool) : Z := if b then 1%Z else 0%Z.

End Tilemap.

(** ** Constants: [nullToUndefined] and [evalJSONGameConstant] *)

Module Constants.
Import JS.

(** Values with [null], which a document may hold and which [JS.value] has
    no need of.  An object is the list of its properties in the order of
    [Object.keys]. *)
Inductive data :=
| Null
| Undefined
| Boolean (b : bool)
| Number (x : number)
| PiTimes (q : Q)
| String (s : jsstring)
| Function
| Array (elements : list data)
| Object (properties : list (jsstring * data)).

Fixpoint of_value (v : value) : data :=
  match v with
  | VUndefined => Undefined
  | VBoolean b => Boolean b
  | VNumber x => Number x
  | VPiTimes q => PiTimes q
  | VString s => String s
  | VFunction => Function
  | VArray elements => Array (List.map of_value elements)
  | VObject properties =>
    Object (List.map (fun kv => let '(k, v) := kv in (k, of_value v)) properties)
  end.

(** The structures are rebuilt rather than changed in place. *)
Fixpoint nullToUndefined (x : data) : data :=
  match x with
  | Null => Undefined
  | Array elements => Array (List.map nullToUndefined elements)
  | Object properties =>
    Object (List.map (fun kv => let '(k, v) := kv in (k, nullToUndefined v))
                     properties)
  | other => other
  end.

(** No [null] at any depth. *)
Fixpoint null_free (x : data) : bool :=
  match x with
  | Null => false
  | Array elements => forallb null_free elements
  | Object properties =>
    forallb (fun kv => let '(k, v) := kv in null_free v) properties
  | _ => true
  end.

(** [o[k]] for one of the names that [evalJSONGameConstant] reads, none of
    which an array, a string, a number or a function has of its own. *)
Definition get (o : data) (k : jsstring) : completion data :=
  match o with
  | Null | Undefined => Throw TypeError
  | Object properties =>
    Normal (match list_find (fun kv => kv.1 = k) properties with
            | Some (_, (_, v)) => v
            | None => Undefined
            end)
  | _ => Normal Undefined
  end.

(** [typeof x === 'object'] *)
Definition is_object (x : data) : bool :=
  match x with
  | Null | Array _ | Object _ => true
  | _ => false
  end.

(** The decimal numeral of an index, as a property name. *)
Definition index_name (i : nat) : jsstring :=
  u (NilEmpty.string_of_uint (Nat.to_uint i)).

(** The messages, without the value that the source appends to three of
    them. *)
Definition raw_with_url : jsstring :=
  u "Raw values with URLs only permitted for top-level constants".
Definition illegal_rgb : jsstring := u "Illegal rgb value: ".
Definition illegal_rgba : jsstring := u "Illegal rgba value: ".
Definition not_an_object : jsstring :=
  u "Object constant must have an object {} value field".
Definition not_an_array : jsstring :=
  u "Array constant must have an array [] value field".
Definition nested_reference : jsstring :=
  u "References only permitted for top-level constants".
Definition unrecognized : jsstring := u "Unrecognized data type: ".

(** A loop that evaluates the elements in order and stops at the first
    that does not return. *)
Fixpoint each {A B} (f : A -> option (completion B)) (l : list A)
  : option (completion (list B)) :=
  match l with
  | [] => Some (Normal [])
  | x :: rest =>
    match f x with
    | None => None
    | Some (Throw m) => Some (Throw m)
    | Some (Normal y) =>
      match each f rest with
      | None => None
      | Some (Throw m) => Some (Throw m)
      | Some (Normal ys) => Some (Normal (y :: ys))
      end
    end
  end.

(** The types whose value is an object of components, with the names of
    the components in the order in which they are evaluated. *)
Definition components (type : jsstring) : option (list string) :=
  if bool_decide (type = u "xy") then Some ["x"; "y"]%string
  else if bool_decide (type = u "xz") then Some ["x"; "z"]%string
  else if bool_decide (type = u "xyz") then Some ["x"; "y"; "z"]%string
  else if bool_decide (type = u "hsv") then Some ["h"; "s"; "v"]%string
  else if bool_decide (type = u "hsva") then Some ["h"; "s"; "v"; "a"]%string
  else if bool_decide (type = u "rgb") then Some ["r"; "g"; "b"]%string
  else if bool_decide (type = u "rgba") then Some ["r"; "g"; "b"; "a"]%string
  else None.

(** One unit of fuel for each call, and the fuel that is left for [$parse];
    without fuel the evaluation is still running. *)
Fixpoint evalJSONGameConstant (fuel : nat) (json : data)
  : option (completion data) :=
  match fuel with
  | O => None
  | S fuel' =>
    let recur := evalJSONGameConstant fuel' in
    (* {k: evalJSONGameConstant(json.value.k), ...} *)
    let of_components (value : data) (names : list string) :=
      match each (fun name =>
                    match get value (u name) with
                    | Throw m => Some (Throw m)
                    | Normal component =>
                      match recur component with
                      | Some (Normal v) => Some (Normal (u name, v))
                      | Some (Throw m) => Some (Throw m)
                      | None => None
                      end
                    end) names with
      | Some (Normal properties) => Some (Normal (Object properties))
      | Some (Throw m) => Some (Throw m)
      | None => None
      end in
    match json with
    | Number _ | PiTimes _ | String _ | Boolean _ => Some (Normal json)
    | Null | Undefined => Some (Throw TypeError)
    | _ =>
      match get json (u "type"), get json (u "value"), get json (u "url") with
      | Normal (String type), Normal value, Normal url =>
        if bool_decide (type = u "nil") then Some (Normal Undefined)
        else if bool_decide (type = u "raw") then
          match url with
          | Undefined => Some (Normal (nullToUndefined value))
          | _ => Some (Throw raw_with_url)
          end
        else if bool_decide (type = u "number") then
          match value with
          | Number _ | PiTimes _ => Some (Normal value)
          | String s =>
            match Parser.parse fuel' (trim s) 0 with
            | Some (Normal (result, _)) => Some (Normal (of_value result))
            | Some (Throw m) => Some (Throw m)
            | None => None
            end
          | _ => Some (Throw TypeError)
          end
        else if bool_decide (type = u "boolean") then
          Some (Normal (Boolean
            match value with
            | Boolean true => true
            | String s => bool_decide (s = u "true")
            | _ => false
            end))
        else if bool_decide (type = u "string") then Some (Normal value)
        else if bool_decide (type = u "rgb") || bool_decide (type = u "rgba") then
          if is_object value
          then of_components value (default [] (components type))
          else
            match value with
            | String (c :: hex) =>
              if (c =? chr "#")%N then
                match Color.parseHexColor hex with
                | Normal color =>
                  Some (Normal (Object
                    ([(u "r", Number (Color.r color)); (u "g", Number (Color.g color));
                      (u "b", Number (Color.b color))]
                     ++ if bool_decide (type = u "rgba")
                        then [(u "a", Number (Color.a color))] else [])))
                | Throw m => Some (Throw m)
                end
              else Some (Throw (if bool_decide (type = u "rgba")
                                then illegal_rgba else illegal_rgb))
            | _ => Some (Throw (if bool_decide (type = u "rgba")
                                then illegal_rgba else illegal_rgb))
            end
        else
          match components type with
          | Some names => of_components value names
          | None =>
            if bool_decide (type = u "grid") then Some (Normal Undefined)
            else if bool_decide (type = u "object") then
              match value with
              | Null => Some (Throw TypeError)
              | Object properties =>
                match each (fun kv : jsstring * data =>
                              match recur kv.2 with
                              | Some (Normal v) => Some (Normal (kv.1, v))
                              | Some (Throw m) => Some (Throw m)
                              | None => None
                              end) properties with
                | Some (Normal properties) => Some (Normal (Object properties))
                | Some (Throw m) => Some (Throw m)
                | None => None
                end
              | Array elements =>
                match each recur elements with
                | Some (Normal results) =>
                  Some (Normal (Object (imap (fun i v => (index_name i, v)) results)))
                | Some (Throw m) => Some (Throw m)
                | None => None
                end
              | _ => Some (Throw not_an_object)
              end
            else if bool_decide (type = u "array") then
              match value with
              | Array elements =>
                match each recur elements with
                | Some (Normal results) => Some (Normal (Array results))
                | Some (Throw m) => Some (Throw m)
                | None => None
                end
              | _ => Some (Throw not_an_array)
              end
            else if bool_decide (type = u "reference")
            then Some (Throw nested_reference)
            else Some (Throw unrecognized)
          end
      | _, _, _ => Some (Throw unrecognized)
      end
    end
  end.

(** A declaration that holds, where the evaluation reads it, a reference or
    a raw value with a URL. *)
Inductive refused : data -> Prop :=
| refused_reference properties :
    get (Object properties) (u "type") = Normal (String (u "reference")) ->
    refused (Object properties)
| refused_raw properties url :
    get (Object properties) (u "type") = Normal (String (u "raw")) ->
    get (Object properties) (u "url") = Normal url -> url <> Undefined ->
    refused (Object properties)
| refused_component properties type names value name component :
    get (Object properties) (u "type") = Normal (String type) ->
    components type = Some names ->
    get (Object properties) (u "value") = Normal value ->
    is_object value = true ->
    name ∈ names -> get value (u name) = Normal component ->
    refused component ->
    refused (Object properties)
| refused_property properties fields key field :
    get (Object properties) (u "type") = Normal (String (u "object")) ->
    get (Object properties) (u "value") = Normal (Object fields) ->
    (key, field) ∈ fields -> refused field ->
    refused (Object properties)
| refused_element properties elements element :
    get (Object properties) (u "type") = Normal (String (u "array")) ->
    get (Object properties) (u "value") = Normal (Array elements) ->
    element ∈ elements -> refused element ->
    refused (Object properties).

End Constants.

Module ConstantSamples.
Import JS Constants.

(** [{"type": "xy", "value": {"x": 1, "y": {"type": "reference", "value": "A"}}}] *)
Definition xy_with_reference : data :=
  Object [ (u "type", String (u "xy"));
           (u "value",
            Object [ (u "x", Number (Fin 1));
                     (u "y", Object [ (u "type", String (u "reference"));
                                      (u "value", String (u "A")) ]) ]) ].

End ConstantSamples.

(** ** A reload: [clearAssetCache] and the wiped arrays *)

Module Reload.
Import JS Assets.




Section Kinds.
(** The type of asset that a metadata URL stands for. *)
Variable kind : jsstring -> asset_type.

(** The cache holds for a URL an asset of its type, and the sheet of a map
    is a spritesheet. *)
Definition typed (st : session) : Prop :=
  (forall k x, assetCache st !! k = Some x ->
               _type <$> store st !! x = Some (kind k))
  /\ (forall m a s, store st !! m = Some a -> map_spritesheet a = Some s ->
                    _type <$> store st !! s = Some Spritesheet).

(** A call uses the loader of the type of its URL; the callback of a map
    receives a spritesheet. *)
Definition call_typed (c : call) (st : session) : Prop :=
  match c with
  | LoadFont _ _ k => kind k = Font
  | LoadSpritesheet _ _ k => kind k = Spritesheet
  | LoadSound _ _ k => kind k = Sound
  | LoadMap _ _ k => kind k = Map
  | MapSpritesheetLoaded m sheet =>
    _type <$> store st !! sheet = Some Spritesheet
  end.



End Kinds.

(** The units of [s] before its first dot. *)
Fixpoint before_dot (s : jsstring) : jsstring :=
  match s with
  | c :: r => if (c =? chr ".")%N then [] else c :: before_dot r
  | [] => []
  end.

(** [assetURL.match(/\.([^.]+)\.json$/i)], then [type[1].toLowerCase()]. *)
Definition extension (assetURL : jsstring) : option jsstring :=
  let n := length assetURL in
  if bool_decide (toLowerCase (drop (n - 5) assetURL) = u ".json") then
    let stem := take (n - 5) assetURL in
    let type := reverse (before_dot (reverse stem)) in
    match type with
    | [] => None
    | _ => if (length type <? length stem)%nat then Some (toLowerCase type) else None
    end
  else None.

(** The callback of the fetch of an asset of the manifest: the loader that
    it calls, if any. *)
Definition dispatch (assetName : jsstring) (j : json) (assetURL : jsstring)
  : option call :=
  match extension assetURL with
  | Some type =>
    if bool_decide (type = u "font") then Some (LoadFont assetName j assetURL)
    else if bool_decide (type = u "sprite")
    then Some (LoadSpritesheet assetName j assetURL)
    else if bool_decide (type = u "sound") then Some (LoadSound assetName j assetURL)
    else if bool_decide (type = u "map") then Some (LoadMap assetName j assetURL)
    else None
  | None => None
  end.

(** The type of the asset that the manifest loads from a URL; a URL from
    which it loads nothing counts as that of a map. *)
Definition kind_of_url (assetURL : jsstring) : asset_type :=
  match dispatch [] {| url := []; sprite_url := None; sprite_url_table := None |}
                 assetURL with
  | Some (LoadFont _ _ _) => Font
  | Some (LoadSpritesheet _ _ _) => Spritesheet
  | Some (LoadSound _ _ _) => Sound
  | _ => Map
  end.

End Reload.

Module ReloadSamples.
Import JS Assets.





End ReloadSamples.

(** ** The parts of a URL: [urlDir], [urlFile] and [urlFilename] *)

Module Url.
Import JS.

(** [.replace(/\?.*$/, '')]: from the first question mark after which no
    line terminator follows. *)
Fixpoint strip_query (url : jsstring) : jsstring :=
  match url with
  | c :: r =>
    if (c =? chr "?")%N && forallb (fun d => negb (is_line_terminator d)) r
    then []
    else c :: strip_query r
  | [] => []
  end.

(** [.replace(/\/[^/]*$/, '/')]: what follows the last slash is removed. *)
Fixpoint to_last_slash (url : jsstring) : jsstring :=
  match url with
  | c :: r =>
    if (c =? chr "/")%N && negb (contains (chr "/") r)
    then [c]
    else c :: to_last_slash r
  | [] => []
  end.

Definition urlDir (url : jsstring) : jsstring :=
  to_last_slash (strip_query url).

(** The units of [s] before its first slash. *)
Fixpoint before_slash (s : jsstring) : jsstring :=
  match s with
  | c :: r => if (c =? chr "/")%N then [] else c :: before_slash r
  | [] => []
  end.

(** [url.substring(url.lastIndexOf('/') + 1)] *)
Definition urlFile (url : jsstring) : jsstring :=
  reverse (before_slash (reverse url)).

(** [url.replace(/^.*\//, '')] *)
Definition urlFilename (url : jsstring) : jsstring :=
  AfterLoadGame.remove_url_prefix url.

End Url.

Module OscillateSamples.
Import JS.

(** [{"sway": {"start": {"x": 0, "y": 0}, "end": {"x": 3},
               "extrapolate": "oscillate", "frames": [1, 2, 3, 4]}}]: four
    cells played forwards and backwards, with a period of 15 frames. *)
Definition sway : Spritesheet.json :=
  Samples.with_names
    [ (u "sway",
       {| Spritesheet.Data.x := None; Spritesheet.Data.y := None;
          Spritesheet.Data.start := Some (0, 0)%Z;
          Spritesheet.Data.end_x := Some 3%Z; Spritesheet.Data.end_y := None;
          Spritesheet.Data.frames :=
            Some (Spritesheet.Data.FramesArray [Fin 1; Fin 2; Fin 3; Fin 4]);
          Spritesheet.Data.default_frames := None;
          Spritesheet.Data.extrapolate := Some (u "oscillate");
          Spritesheet.Data.other_orientation_id := None |}) ].

End OscillateSamples.

(** ** The resource statistics: [computeResourceStats], [recordSpriteStats]
    and [recordSoundStats] *)

Module Stats.
Import JS.

Abbreviation address := nat.

(** The objects that [gameSource.assets] and a map's [spritesheet_table]
    refer to, once every file is loaded, with the properties that the
    statistics read: [_name], [_url] and the [width] and [height] of
    [_uint16Data || _data]; [name], [_url] and [buffer.numberOfChannels]
    and [buffer.length]; [_name] and [spritesheet_table] in the order of
    its keys.  The constructor is the [_type]. *)
Inductive asset :=
| Font (_name _url : jsstring) (width height : Z)
| Spritesheet (_name _url : jsstring) (width height : Z)
| Sound (name _url : jsstring) (numberOfChannels length : Z)
| Map (_name : jsstring) (spritesheet_table : list (jsstring * address)).

Record resourceStats := {
  spritePixels : Z;
  spritePixelsByURL : gmap jsstring Z;
  spritesheets : Z;
  maxSpritesheetWidth : Z;
  maxSpritesheetHeight : Z;
  sounds : Z;
  soundKilobytes : Z;
  soundKilobytesByURL : gmap jsstring Z
}.

(** [s[0] === '_'] *)
Definition underscore (s : jsstring) : bool :=
  match s with
  | c :: _ => (c =? chr "_")%N
  | [] => false
  end.

(** The statements of [recordSpriteStats] from [let count] on.
    [Math.ceil(count / 2)] of an integer is [(count + 1) / 2] rounded
    down. *)
Definition record_sprite (font : bool) (_url : jsstring) (width height : Z)
    (st : resourceStats) : resourceStats :=
  let count := (width * height)%Z in
  let count := if font then Pixels.to_uint32 ((count + 1) / 2) else count in
  {| spritePixels := spritePixels st + count;
     spritePixelsByURL := <[ _url := count ]> (spritePixelsByURL st);
     spritesheets := spritesheets st + 1;
     maxSpritesheetWidth := Z.max (maxSpritesheetWidth st) width;
     maxSpritesheetHeight := Z.max (maxSpritesheetHeight st) height;
     sounds := sounds st;
     soundKilobytes := soundKilobytes st;
     soundKilobytesByURL := soundKilobytesByURL st |}.

(** A sound has no [_name], and a map has no [_uint16Data] and no
    [_data]: reading a property of [undefined] is a TypeError. *)
Definition recordSpriteStats (spritesheet : asset) (st : resourceStats)
  : completion resourceStats :=
  match spritesheet with
  | Font _name _url width height =>
    if underscore _name then Normal st
    else Normal (record_sprite true _url width height st)
  | Spritesheet _name _url width height =>
    if underscore _name then Normal st
    else Normal (record_sprite false _url width height st)
  | Sound _ _ _ _ => Throw TypeError
  | Map _name _ => if underscore _name then Normal st else Throw TypeError
  end.

(** Only a sound has a [name]. *)
Definition recordSoundStats (sound : asset) (st : resourceStats)
  : completion resourceStats :=
  match sound with
  | Sound name _url numberOfChannels length =>
    if negb (underscore name) then
      let count := ((4 * numberOfChannels * length + 1023) / 1024)%Z in
      Normal {| spritePixels := spritePixels st;
                spritePixelsByURL := spritePixelsByURL st;
                spritesheets := spritesheets st;
                maxSpritesheetWidth := maxSpritesheetWidth st;
                maxSpritesheetHeight := maxSpritesheetHeight st;
                sounds := sounds st + 1;
                soundKilobytes := soundKilobytes st + count;
                soundKilobytesByURL := <[ _url := count ]> (soundKilobytesByURL st) |}
    else Normal st
  | _ => Throw TypeError
  end.

(** The object at an address.  An address outside the store stands for no
    reference of the source. *)
Definition deref (h : list asset) (a : address) : completion asset :=
  match h !! a with
  | Some x => Normal x
  | None => Throw TypeError
  end.

(** [for (let key in object) body], over the properties in their order. *)
Fixpoint for_in {A S} (body : A -> S -> completion S) (l : list A) (s : S)
  : completion S :=
  match l with
  | [] => Normal s
  | x :: rest => s' ← body x s; for_in body rest s'
  end.

(** The body of the loop over [asset.spritesheet_table].  The state is
    [alreadyCounted] and [resourceStats]. *)
Definition count_table_entry (h : list asset) (entry : jsstring * address)
    (s : gset address * resourceStats) : completion (gset address * resourceStats) :=
  let '(alreadyCounted, st) := s in
  let spritesheet := entry.2 in
  if bool_decide (spritesheet ∈ alreadyCounted) then Normal s
  else
    let alreadyCounted := {[ spritesheet ]} ∪ alreadyCounted in
    x ← deref h spritesheet;
    st ← recordSpriteStats x st;
    Normal (alreadyCounted, st).

(** The body of the loop over [gameSource.assets]. *)
Definition count_asset (h : list asset) (entry : jsstring * address)
    (s : gset address * resourceStats) : completion (gset address * resourceStats) :=
  let '(alreadyCounted, st) := s in
  let '(key, asset) := entry in
  if underscore key then Normal s
  else if bool_decide (asset ∈ alreadyCounted) then Normal s
  else
    let alreadyCounted := {[ asset ]} ∪ alreadyCounted in
    x ← deref h asset;
    match x with
    | Font _ _ _ _ | Spritesheet _ _ _ _ =>
      st ← recordSpriteStats x st; Normal (alreadyCounted, st)
    | Sound _ _ _ _ =>
      st ← recordSoundStats x st; Normal (alreadyCounted, st)
    | Map _ spritesheet_table =>
      for_in (count_table_entry h) spritesheet_table (alreadyCounted, st)
    end.

Definition computeResourceStats (h : list asset)
    (assets : list (jsstring * address)) (st : resourceStats)
  : completion resourceStats :=
  s ← for_in (count_asset h) assets (∅, st);
  Normal s.2.

(** *** What is counted *)

(** The objects that the two loops come to, in this order: the assets
    whose key does not start with an underscore, each map followed by the
    sheets of its table. *)
Definition visits (h : list asset) (assets : list (jsstring * address))
  : list address :=
  flat_map
    (fun entry : jsstring * address =>
       if underscore entry.1 then []
       else entry.2 :: match h !! entry.2 with
                       | Some (Map _ spritesheet_table) => spritesheet_table.*2
                       | _ => []
                       end)
    assets.

(** A font or sheet whose own name does not start with an underscore. *)
Definition visible_sheet (h : list asset) (a : address) : bool :=
  match h !! a with
  | Some (Font _name _ _ _) | Some (Spritesheet _name _ _ _) => negb (underscore _name)
  | _ => false
  end.

(** A sound that is an asset itself, with such a name. *)
Definition visible_sound (h : list asset) (a : address) : bool :=
  match h !! a with
  | Some (Sound name _ _ _) => negb (underscore name)
  | _ => false
  end.

(** The pixels that a sheet counts for, and the kilobytes of a sound. *)
Definition pixels (h : list asset) (a : address) : Z :=
  match h !! a with
  | Some (Font _ _ width height) => Pixels.to_uint32 ((width * height + 1) / 2)
  | Some (Spritesheet _ _ width height) => width * height
  | _ => 0
  end.

Definition kilobytes (h : list asset) (a : address) : Z :=
  match h !! a with
  | Some (Sound _ _ numberOfChannels length) =>
    (4 * numberOfChannels * length + 1023) / 1024
  | _ => 0
  end.

Definition Zsum (l : list Z) : Z := foldr Z.add 0%Z l.

(** The objects of [l] that satisfy [P], each once. *)
Definition distinct (P : address -> bool) (l : list address) : list address :=
  remove_dups (filter (fun a => P a = true) l).

(** Those among them that are not in [seen]. *)
Definition news (P : address -> bool) (seen : gset address) (l : list address)
  : list address :=
  remove_dups (filter (fun a => P a = true /\ a ∉ seen) l).

(** From [st] to [st'] the statistics count the sheets [sheets] and the
    sounds [played], and nothing else. *)
Definition adds (h : list asset) (st st' : resourceStats)
    (sheets played : list address) : Prop :=
  spritesheets st' = (spritesheets st + Z.of_nat (length sheets))%Z
  /\ spritePixels st' = (spritePixels st + Zsum (pixels h <$> sheets))%Z
  /\ sounds st' = (sounds st + Z.of_nat (length played))%Z
  /\ soundKilobytes st' = (soundKilobytes st + Zsum (kilobytes h <$> played))%Z.

(** The table of a map that is in [seen] is in [seen]. *)
Definition closed (h : list asset) (seen : gset address) : Prop :=
  forall m _name spritesheet_table e,
    m ∈ seen -> h !! m = Some (Map _name spritesheet_table) ->
    e ∈ spritesheet_table -> e.2 ∈ seen.

(** Every asset with a key that is read is in the store, and the table of
    a map refers to spritesheets, as [loadMap] fills it. *)
Definition typed (h : list asset) (assets : list (jsstring * address)) : bool :=
  forallb
    (fun entry : jsstring * address =>
       underscore entry.1
       || match h !! entry.2 with
          | Some (Map _ spritesheet_table) =>
            forallb (fun e : jsstring * address =>
                       match h !! e.2 with
                       | Some (Spritesheet _ _ _ _) => true
                       | _ => false
                       end) spritesheet_table
          | Some _ => true
          | None => false
          end)
    assets.

End Stats.

Module StatsSamples.
Import JS Stats.

(** A sheet that is an asset under two names and the sheet of a map, a
    font, a sound, and a sheet that was loaded under a hidden name first. *)
Definition store : list asset :=
  [ Spritesheet (u "tiles") (u "tiles.png") 64 32;
    Map (u "level") [(u "tiles", 0%nat); (u "_hidden", 4%nat)];
    Font (u "font") (u "font.png") 5 3;
    Sound (u "jump") (u "jump.mp3") 2 1000;
    Spritesheet (u "_hidden") (u "hidden.png") 8 8 ].

Definition assets : list (jsstring * address) :=
  [ (u "_debug", 2%nat); (u "ground", 0%nat); (u "jump", 3%nat);
    (u "level", 1%nat); (u "text", 2%nat); (u "tiles", 0%nat);
    (u "visible", 4%nat) ].

Definition zero : resourceStats :=
  {| spritePixels := 0; spritePixelsByURL := ∅; spritesheets := 0;
     maxSpritesheetWidth := 0; maxSpritesheetHeight := 0;
     sounds := 0; soundKilobytes := 0; soundKilobytesByURL := ∅ |}.

End StatsSamples.

(** * Properties *)

(** ** The reference constants and the start mode *)

Module AfterLoadGameFacts.
Import JS AfterLoadGame Samples.

Lemma late_cycle_keys : sorted_keys late_cycle = [u "A"; u "B"; u "C"].
Proof. vm_compute. reflexivity. Qed.

Lemma late_cycle_A : late_cycle !! u "A" = Some (reference "B").
Proof. vm_compute. reflexivity. Qed.

Lemma late_cycle_B : late_cycle !! u "B" = Some (reference "C").
Proof. vm_compute. reflexivity. Qed.

Lemma late_cycle_C : late_cycle !! u "C" = Some (reference "B").
Proof. vm_compute. reflexivity. Qed.

(** Once the walk from [A] is inside the cycle of [B] and [C] it stays
    there: the only identifier it would stop at is [A]. *)
Lemma follow_inside_cycle (fuel : nat) :
  forall path : jsstring,
    follow fuel late_cycle {[ u "A" ]} path (reference "B") = None
    /\ follow fuel late_cycle {[ u "A" ]} path (reference "C") = None.
Proof.
  induction fuel as [|fuel IH]; intros path; [split; reflexivity|].
  split; cbn [follow].
  - change (value (reference "B")) with (u "B").
    rewrite bool_decide_eq_false_2 by (rewrite elem_of_singleton; discriminate).
    rewrite late_cycle_B.
    change (is_reference (reference "C")) with true. cbv iota.
    apply IH.
  - change (value (reference "C")) with (u "C").
    rewrite bool_decide_eq_false_2 by (rewrite elem_of_singleton; discriminate).
    rewrite late_cycle_C.
    change (is_reference (reference "B")) with true. cbv iota.
    apply IH.
Qed.

(** Where the walk ends without an error, it ends at an identifier that is
    not defined as a reference. *)
Lemma follow_ends_at_value (fuel : nat) (constants : gmap jsstring definition)
    (alreadySeen : gset jsstring) :
  forall (path : jsstring) (d : definition) (id path' : jsstring),
    follow fuel constants alreadySeen path d = Some (Normal (id, path')) ->
    forall d', constants !! id = Some d' -> is_reference d' = false.
Proof.
  induction fuel as [|fuel IH]; intros path d id path' H d' Hd'; [discriminate H|].
  cbn [follow] in H. destruct (bool_decide _); [discriminate H|].
  destruct (constants !! value d) as [d1|] eqn:E.
  - destruct (is_reference d1) eqn:Er.
    + eapply IH; eassumption.
    + injection H as <- _. congruence.
  - injection H as <- _. congruence.
Qed.

(** A chain that comes back to the constant it started from is reported. *)
Lemma follow_back_to_start (fuel : nat) (constants : gmap jsstring definition)
    (c path : jsstring) (d : definition) :
  value d = c ->
  follow (S fuel) constants {[ c ]} path d
  = Some (Throw (u "Cycle in reference chain: " ++ path ++ u " → " ++ c)).
Proof.
  intros <-. cbn [follow].
  rewrite bool_decide_eq_true_2 by (apply elem_of_singleton; reflexivity).
  reflexivity.
Qed.

(** The example of the specification: [A] and [B] referring to each other
    are reported, with the path. *)
Lemma two_cycle_reported :
  evaluate_references 2 two_cycle ∅ ∅
  = Some (Throw (u "Cycle in reference chain: A → B → A")).
Proof. vm_compute. reflexivity. Qed.

(** C1.  The walk along the references does not end for every table of
    constants: the identifiers met on the way are not added to
    [alreadySeen], so a cycle that does not return to the constant the walk
    started from is not noticed.  For [A = B], [B = C], [C = B] the loader is
    still following the chain from [A] after any number of steps. *)
Theorem cycle_beyond_start_not_detected :
  forall fuel : nat, evaluate_references fuel late_cycle ∅ ∅ = None.
Proof.
  intros fuel. unfold evaluate_references.
  rewrite late_cycle_keys. cbn [resolve_all].
  rewrite late_cycle_A.
  change (is_reference (reference "B")) with true. cbv iota.
  unfold resolve.
  destruct fuel as [|fuel]; [reflexivity|].
  cbn [follow].
  change (value (reference "B")) with (u "B").
  rewrite bool_decide_eq_false_2 by (rewrite elem_of_singleton; discriminate).
  rewrite late_cycle_B.
  change (is_reference (reference "C")) with true. cbv iota.
  rewrite (proj2 (follow_inside_cycle fuel _)). reflexivity.
Qed.

(** A manifest whose start mode is the name of two declared modes passes
    the check of the start mode: the count is compared with zero only. *)
Lemma start_mode_named_twice_loads :
  let '(modes, start_mode) := extended two_play_modes (Some (u "Play")) in
  numStartModes modes start_mode = 2
  /\ ~ aborts (load_modes beside (u "game.json") two_play_modes (Some (u "Play"))).
Proof.
  split; [vm_compute; reflexivity|].
  intros [m H]. vm_compute in H. discriminate H.
Qed.

Lemma is_start_mode_spec (start_mode : option jsstring) (n : jsstring) :
  is_start_mode start_mode n = true <-> start_mode = Some n.
Proof.
  destruct start_mode as [s0|]; cbn [is_start_mode].
  - rewrite bool_decide_eq_true. split; [intros ->; reflexivity|congruence].
  - split; discriminate.
Qed.

Lemma numStartModes_zero (modes : list jsstring) (start_mode : option jsstring) :
  numStartModes modes start_mode = 0
  <-> forall m, m ∈ modes -> start_mode <> Some (mode_name m).
Proof.
  unfold numStartModes. induction modes as [|m0 modes IH].
  - split; [intros _ m Hm; inversion Hm|reflexivity].
  - rewrite filter_cons.
    destruct (decide (Is_true (is_start_mode start_mode (mode_name m0)))) as [Y|N].
    + split; [discriminate|].
      intros H. exfalso. apply (H m0); [left|].
      apply is_start_mode_spec, Is_true_true, Y.
    + rewrite IH. split.
      * intros H m Hm. apply elem_of_cons in Hm as [->|Hm]; [|auto].
        intros E. apply N, Is_true_true, is_start_mode_spec, E.
      * intros H m Hm. apply H. right. exact Hm.
Qed.

(** C7, amended.  The block that loads the modes throws exactly when no
    mode of the list it works on (the declared modes, after the upgrade of a
    legacy start mode, followed by the modes the console injects) has the
    name of the start mode.  One mode or several with that name pass. *)
Theorem start_mode_check :
  forall (makeURLAbsolute : jsstring -> jsstring -> jsstring)
         (gameURL : jsstring) (modes : list jsstring)
         (start_mode : option jsstring),
    aborts (load_modes makeURLAbsolute gameURL modes start_mode)
    <-> (forall m, m ∈ (extended modes start_mode).1 ->
                   (extended modes start_mode).2 <> Some (mode_name m)).
Proof.
  intros mk gameURL modes start_mode. unfold load_modes.
  destruct (extended modes start_mode) as [ms sm]. cbn [fst snd].
  rewrite <- numStartModes_zero.
  destruct (Nat.eqb_spec (numStartModes ms sm) 0) as [E|E]; split.
  - intros _. exact E.
  - intros _. eexists. reflexivity.
  - intros [m H]. discriminate H.
  - intros H. contradiction.
Qed.

End AfterLoadGameFacts.

(** ** The asset cache *)

Module AssetsFacts.
Import JS Assets.

Section Cache.
Variable makeURLAbsolute : jsstring -> jsstring -> jsstring.














End Cache.




End AssetsFacts.

(** ** Exact arithmetic on numbers *)

Module NumberFacts.
Import JS.
Local Open Scope Q_scope.

Lemma two_not_0 : ~ 2 == 0.
Proof. discriminate. Qed.

Lemma pow2_pos (e : Z) : 0 < 2 ^ e.
Proof. apply Qpower_0_lt. reflexivity. Qed.

Lemma pow2_succ (e : Z) : 2 ^ (e + 1) == 2 * 2 ^ e.
Proof. rewrite Qpower_plus by exact two_not_0. rewrite Qpower_1_r. ring. Qed.

Lemma pow2_Z (e : Z) : (0 <= e)%Z -> inject_Z (2 ^ e) == 2 ^ e.
Proof. intros H. rewrite Zpower_Qpower by exact H. reflexivity. Qed.

Lemma binade_spec (a : Q) : 0 < a -> 2 ^ binade a <= a /\ a < 2 ^ (binade a + 1).
Proof.
  intros Ha. unfold binade.
  destruct a as [n d]. cbn [Qnum Qden].
  assert (Hn : (0 < n)%Z) by (unfold Qlt in Ha; cbn in Ha; lia).
  set (ln := Z.log2 n). set (ld := Z.log2 (Z.pos d)).
  destruct (Z.log2_spec n Hn) as [N1 N2]. fold ln in N1, N2.
  destruct (Z.log2_spec (Z.pos d) ltac:(lia)) as [D1 D2]. fold ld in D1, D2.
  assert (Hln : (0 <= ln)%Z) by apply Z.log2_nonneg.
  assert (Hld : (0 <= ld)%Z) by apply Z.log2_nonneg.
  set (E := 2 ^ (ln - ld)).
  assert (HE : E * 2 ^ ld == 2 ^ ln).
  { unfold E. rewrite Qpower_minus by exact two_not_0. field.
    apply Qpower_not_0. exact two_not_0. }
  pose proof (pow2_pos (ln - ld)) as HEpos. fold E in HEpos.
  pose proof (pow2_pos ld) as HDpos.
  set (A := n # d) in *.
  assert (HA : A * inject_Z (Z.pos d) == inject_Z n).
  { unfold A, Qeq, Qmult, inject_Z. cbn. lia. }
  assert (Q1 : 2 ^ ln <= inject_Z n).
  { rewrite <- pow2_Z by exact Hln. rewrite <- Zle_Qle. exact N1. }
  assert (Q2 : inject_Z n < 2 * 2 ^ ln).
  { rewrite <- pow2_succ. rewrite <- pow2_Z by lia. rewrite <- Zlt_Qlt.
    replace (ln + 1)%Z with (Z.succ ln) by lia. exact N2. }
  assert (Q3 : 2 ^ ld <= inject_Z (Z.pos d)).
  { rewrite <- pow2_Z by exact Hld. rewrite <- Zle_Qle. exact D1. }
  assert (Q4 : inject_Z (Z.pos d) < 2 * 2 ^ ld).
  { rewrite <- pow2_succ. rewrite <- pow2_Z by lia. rewrite <- Zlt_Qlt.
    replace (ld + 1)%Z with (Z.succ ld) by lia. exact D2. }
  assert (Hlow : E < 2 * A).
  { apply Qnot_le_lt. intros Hc.
    assert (2 * A * inject_Z (Z.pos d) <= E * inject_Z (Z.pos d)).
    { apply Qmult_le_compat_r; [exact Hc|lra]. }
    assert (E * inject_Z (Z.pos d) < E * (2 * 2 ^ ld)).
    { apply Qmult_lt_l; assumption. }
    nra. }
  assert (Hhigh : A < 2 * E).
  { apply Qnot_le_lt. intros Hc.
    assert (2 * E * 2 ^ ld <= A * 2 ^ ld).
    { apply Qmult_le_compat_r; [exact Hc|lra]. }
    assert (A * 2 ^ ld <= A * inject_Z (Z.pos d)).
    { apply Qmult_le_l; assumption. }
    nra. }
  destruct (Qle_bool E A) eqn:Hcmp.
  - apply Qle_bool_iff in Hcmp. split; [exact Hcmp|].
    rewrite pow2_succ. exact Hhigh.
  - assert (Hlt : A < E).
    { apply Qnot_le_lt. intros Hc. apply Qle_bool_iff in Hc. congruence. }
    replace (ln - ld - 1 + 1)%Z with (ln - ld)%Z by lia.
    split; [|exact Hlt].
    assert (Hh : 2 * 2 ^ (ln - ld - 1) == E).
    { rewrite <- pow2_succ. replace (ln - ld - 1 + 1)%Z with (ln - ld)%Z by lia.
      reflexivity. }
    lra.
Qed.

Lemma binade_unique (a : Q) (e : Z) :
  2 ^ e <= a -> a < 2 ^ (e + 1) -> binade a = e.
Proof.
  intros H1 H2.
  assert (Ha : 0 < a) by (pose proof (pow2_pos e); lra).
  destruct (binade_spec a Ha) as [B1 B2].
  assert (L1 : (e < binade a + 1)%Z).
  { apply (Qpower_lt_compat_l_inv 2); [lra|reflexivity]. }
  assert (L2 : (binade a < e + 1)%Z).
  { apply (Qpower_lt_compat_l_inv 2); [lra|reflexivity]. }
  lia.
Qed.

Lemma round_half_even_Z (x : Q) (z : Z) : x == inject_Z z -> round_half_even x = z.
Proof.
  intros E. unfold round_half_even.
  rewrite (Qfloor_comp _ _ E), Qfloor_Z.
  assert (H : (x - inject_Z z ?= 1 # 2) = Lt).
  { apply Qlt_alt. rewrite E. setoid_replace (inject_Z z - inject_Z z) with 0 using relation Qeq by ring.
    reflexivity. }
  rewrite H. reflexivity.
Qed.

(** Rounding leaves a representable number as it is. *)
Lemma binary64_exact (q : Q) : representable q -> binary64 q = Fin (Qred q).
Proof.
  intros (m & k & Hm & Hk & E). unfold binary64.
  destruct (Qeq_bool q 0) eqn:H0.
  { apply Qeq_bool_eq in H0. f_equal. symmetry. apply (Qred_complete q 0 H0). }
  assert (Hq : ~ q == 0).
  { intros Hc. apply Qeq_eq_bool in Hc. congruence. }
  assert (Hm0 : m <> 0%Z).
  { intros ->. apply Hq. rewrite E. unfold Qdiv. ring. }
  set (l := Z.log2 (Z.abs m)).
  destruct (Z.log2_spec (Z.abs m) ltac:(lia)) as [L1 L2]. fold l in L1, L2.
  assert (Hl0 : (0 <= l)%Z) by apply Z.log2_nonneg.
  assert (Hl : (l < 53)%Z).
  { apply Z.log2_lt_pow2; lia. }
  pose proof (pow2_pos k) as Hkpos.
  assert (Ha : Qabs q == inject_Z (Z.abs m) / 2 ^ k).
  { rewrite (Qabs_wd _ _ E). unfold Qdiv. rewrite Qabs_Qmult, Qabs_Qinv.
    rewrite (Qabs_pos (2 ^ k)) by lra.
    apply Qmult_comp; [|reflexivity].
    destruct m; reflexivity. }
  assert (A1 : 2 ^ l <= inject_Z (Z.abs m)).
  { rewrite <- pow2_Z by exact Hl0. rewrite <- Zle_Qle. exact L1. }
  assert (A2 : inject_Z (Z.abs m) < 2 ^ (l + 1)).
  { rewrite <- pow2_Z by lia. rewrite <- Zlt_Qlt.
    replace (l + 1)%Z with (Z.succ l) by lia. exact L2. }
  assert (Hb : binade (Qabs q) = (l - k)%Z).
  { apply binade_unique; rewrite Ha.
    - rewrite Qpower_minus by exact two_not_0.
      apply Qmult_le_compat_r; [exact A1|].
      apply Qlt_le_weak, Qinv_lt_0_compat, Hkpos.
    - replace (l - k + 1)%Z with (l + 1 - k)%Z by lia.
      rewrite Qpower_minus by exact two_not_0.
      apply Qmult_lt_compat_r; [apply Qinv_lt_0_compat, Hkpos|exact A2]. }
  rewrite Hb.
  set (s := (52 - Z.max (l - k) (-1022))%Z).
  assert (Hs : (k <= s)%Z) by (unfold s; lia).
  pose proof (pow2_pos s) as Hspos.
  assert (Hx : Qabs q * 2 ^ s == inject_Z (Z.abs m * 2 ^ (s - k))).
  { rewrite Ha, inject_Z_mult, pow2_Z by lia.
    rewrite Qpower_minus by exact two_not_0. field. lra. }
  rewrite (round_half_even_Z _ _ Hx).
  assert (Hr : inject_Z (Z.abs m * 2 ^ (s - k)) / 2 ^ s == Qabs q).
  { rewrite <- Hx. field. lra. }
  assert (Hbig : Qle_bool (2 ^ 1024) (inject_Z (Z.abs m * 2 ^ (s - k)) / 2 ^ s) = false).
  { destruct (Qle_bool _ _) eqn:Hc; [|reflexivity]. exfalso.
    apply Qle_bool_iff in Hc. rewrite Hr, Ha in Hc.
    assert (B1 : inject_Z (Z.abs m) / 2 ^ k <= inject_Z (Z.abs m)).
    { apply Qle_shift_div_r; [exact Hkpos|].
      assert (1 <= 2 ^ k) by (apply Qpower_1_le; [lra|lia]).
      assert (0 <= inject_Z (Z.abs m)) by (rewrite <- (Zle_Qle 0); lia).
      nra. }
    assert (B2 : inject_Z (Z.abs m) < 2 ^ 53).
    { rewrite <- (pow2_Z 53) by lia. rewrite <- Zlt_Qlt. exact Hm. }
    assert (B3 : 2 ^ 53 <= 2 ^ 1024).
    { apply Qpower_le_compat_l; [lia|lra]. }
    lra. }
  rewrite Hbig. f_equal. apply Qred_complete.
  destruct (Qle_bool 0 q) eqn:Hsign.
  - apply Qle_bool_iff in Hsign. rewrite Hr. apply Qabs_pos, Hsign.
  - rewrite Hr.
    assert (Hneg : q <= 0).
    { apply Qlt_le_weak, Qnot_le_lt. intros Hc. apply Qle_bool_iff in Hc. congruence. }
    rewrite (Qabs_neg _ Hneg). ring.
Qed.


Lemma Qfloor_unique (z : Z) (x : Q) :
  inject_Z z <= x -> x < inject_Z (z + 1) -> Qfloor x = z.
Proof.
  intros Hle Hlt.
  pose proof (Qfloor_le x) as H1. pose proof (Qlt_floor x) as H2.
  assert (Ha : inject_Z z < inject_Z (Qfloor x + 1)) by lra.
  assert (Hb : inject_Z (Qfloor x) < inject_Z (z + 1)) by lra.
  unfold Qlt in Ha, Hb. cbn in Ha, Hb. lia.
Qed.

Lemma Qfloor_shift (x : Q) (k : Z) : Qfloor (x - inject_Z k) = (Qfloor x - k)%Z.
Proof.
  pose proof (Qfloor_le x) as H1. pose proof (Qlt_floor x) as H2.
  apply Qfloor_unique.
  - unfold Z.sub. rewrite inject_Z_plus, inject_Z_opp. lra.
  - replace (Qfloor x - k + 1)%Z with (Qfloor x + 1 + - k)%Z by lia.
    rewrite inject_Z_plus, inject_Z_opp. lra.
Qed.

Lemma Qtrunc_bounds (q : Q) :
  inject_Z (Qtrunc q) - 1 < q /\ q < inject_Z (Qtrunc q) + 1.
Proof.
  unfold Qtrunc. destruct (Qle_bool 0 q) eqn:E.
  - pose proof (Qfloor_le q). pose proof (Qlt_floor q) as H2.
    rewrite inject_Z_plus in H2. change (inject_Z 1) with 1 in H2. split; lra.
  - pose proof (Qle_ceiling q). pose proof (Qceiling_lt q) as H2.
    unfold Z.sub in H2. rewrite inject_Z_plus in H2.
    rewrite inject_Z_opp in H2. change (inject_Z 1) with 1 in H2. split; lra.
Qed.

Lemma Qtrunc_nonneg (q : Q) : 0 <= q -> Qtrunc q = Qfloor q.
Proof.
  intros H. unfold Qtrunc. apply Qle_bool_iff in H. rewrite H. reflexivity.
Qed.


Lemma Qmod_comp (x y b : Q) : x == y -> Qmod x b == Qmod y b.
Proof.
  intros E. unfold Qmod.
  assert (Qfloor (x / b) = Qfloor (y / b)) as ->.
  { apply Qfloor_comp, Qdiv_comp; [exact E|reflexivity]. }
  apply Qminus_comp; [exact E|reflexivity].
Qed.

(** Reducing is insensitive to a multiple of [b]. *)
Lemma Qmod_shift (x b : Q) (k : Z) :
  0 < b -> Qmod (x - b * inject_Z k) b == Qmod x b.
Proof.
  intros Hb. unfold Qmod.
  assert (E : (x - b * inject_Z k) / b == x / b - inject_Z k) by (field; lra).
  rewrite E, Qfloor_shift. unfold Z.sub. rewrite inject_Z_plus, inject_Z_opp. ring.
Qed.

Lemma representable_comp (x y : Q) : x == y -> representable x -> representable y.
Proof.
  intros E (m & k & Hm & Hk & Hx). exists m, k.
  split; [exact Hm|]. split; [exact Hk|]. rewrite <- E. exact Hx.
Qed.

Lemma dyadic_comp (k : Z) (x y : Q) : x == y -> dyadic k x -> dyadic k y.
Proof. intros E [m Hx]. exists m. rewrite <- E. exact Hx. Qed.

Lemma dyadic_plus (k : Z) (x y : Q) : dyadic k x -> dyadic k y -> dyadic k (x + y).
Proof.
  intros [m Hx] [n Hy]. exists (m + n)%Z.
  rewrite Hx, Hy, inject_Z_plus. field. apply Qpower_not_0, two_not_0.
Qed.

Lemma dyadic_opp (k : Z) (x : Q) : dyadic k x -> dyadic k (- x).
Proof.
  intros [m Hx]. exists (- m)%Z.
  rewrite Hx, inject_Z_opp. field. apply Qpower_not_0, two_not_0.
Qed.

Lemma dyadic_minus (k : Z) (x y : Q) : dyadic k x -> dyadic k y -> dyadic k (x - y).
Proof. intros Hx Hy. apply dyadic_plus; [exact Hx|apply dyadic_opp, Hy]. Qed.

Lemma dyadic_times_Z (k : Z) (x : Q) (z : Z) : dyadic k x -> dyadic k (x * inject_Z z).
Proof.
  intros [m Hx]. exists (m * z)%Z.
  rewrite Hx, inject_Z_mult. field. apply Qpower_not_0, two_not_0.
Qed.

Lemma dyadic_Z (k : Z) (z : Z) : (0 <= k)%Z -> dyadic k (inject_Z z).
Proof.
  intros Hk. exists (z * 2 ^ k)%Z.
  rewrite inject_Z_mult, pow2_Z by exact Hk. field. apply Qpower_not_0, two_not_0.
Qed.

(** A multiple of [2 ^ -k] below [2 ^ (53 - k)] is a binary64 number. *)
Lemma dyadic_representable (k : Z) (x : Q) :
  (0 <= k <= 1074)%Z -> dyadic k x -> Qabs x * 2 ^ k < 2 ^ 53 -> representable x.
Proof.
  intros Hk [m Hx] Hb. exists m, k. split; [|split; [exact Hk|exact Hx]].
  pose proof (pow2_pos k) as Hkpos.
  assert (Ha : Qabs x * 2 ^ k == inject_Z (Z.abs m)).
  { rewrite (Qabs_wd _ _ Hx). unfold Qdiv. rewrite Qabs_Qmult, Qabs_Qinv.
    rewrite (Qabs_pos (2 ^ k)) by lra.
    assert (E : Qabs (inject_Z m) == inject_Z (Z.abs m)) by (destruct m; reflexivity).
    rewrite E. field. lra. }
  rewrite Ha, <- (pow2_Z 53) in Hb by lia. rewrite <- Zlt_Qlt in Hb. exact Hb.
Qed.

Lemma add_exact (a b : Q) :
  representable (a + b) -> add (Fin a) (Fin b) = Fin (Qred (a + b)).
Proof. intros H. cbn [add]. apply binary64_exact, H. Qed.

Lemma sub_exact (a b : Q) :
  representable b -> representable (a - b) ->
  sub (Fin a) (Fin b) = Fin (Qred (a - b)).
Proof.
  intros Hb H. unfold sub. cbn [neg]. unfold fin.
  rewrite (binary64_exact (- b)).
  - cbn [add]. unfold fin.
    assert (E : a - b == a + Qred (- b)) by (rewrite Qred_correct; ring).
    rewrite (binary64_exact _ (representable_comp _ _ E H)).
    f_equal. apply Qred_complete. symmetry. exact E.
  - destruct Hb as (m & k & Hm & Hk & Hx). exists (- m)%Z, k.
    split; [lia|]. split; [exact Hk|].
    rewrite Hx, inject_Z_opp. field. apply Qpower_not_0, two_not_0.
Qed.

Lemma scale_exact (a c : Q) :
  representable (a * c) -> scale_by (Fin a) c = Fin (Qred (a * c)).
Proof. intros H. cbn [scale_by]. apply binary64_exact, H. Qed.

(** The remainder of [%] is below the divisor. *)
Lemma remainder_bound (a b : Q) :
  0 < b -> Qabs (a - b * inject_Z (Qtrunc (a / b))) < b.
Proof.
  intros Hb. pose proof (Qtrunc_bounds (a / b)) as [H1 H2].
  assert (E : a == b * (a / b)) by (field; lra).
  apply Qabs_Qlt_condition.
  revert H1 H2 E. generalize (a / b) (inject_Z (Qtrunc (a / b))). intros q t H1 H2 E.
  split; nra.
Qed.

Lemma rem_exact (k : Z) (a b : Q) :
  (0 <= k <= 1074)%Z -> dyadic k a -> dyadic k b ->
  0 < b -> b * 2 ^ k <= 2 ^ 53 ->
  rem (Fin a) (Fin b) = Fin (Qred (a - b * inject_Z (Qtrunc (a / b)))).
Proof.
  intros Hk Ha Hd Hb Hbound. cbn [rem].
  assert (Hb0 : Qeq_bool b 0 = false).
  { destruct (Qeq_bool b 0) eqn:E; [|reflexivity]. apply Qeq_bool_eq in E. lra. }
  rewrite Hb0. apply binary64_exact, (dyadic_representable k); [exact Hk| |].
  - apply dyadic_minus; [exact Ha|apply dyadic_times_Z, Hd].
  - pose proof (remainder_bound a b Hb) as Hr. pose proof (pow2_pos k) as Hkpos.
    revert Hr. generalize (Qabs (a - b * inject_Z (Qtrunc (a / b)))). intros r Hr.
    assert (r * 2 ^ k < b * 2 ^ k) by (apply Qmult_lt_compat_r; assumption).
    lra.
Qed.

End NumberFacts.

(** ** The compiled spritesheet *)

Module SpritesheetFacts.
Import JS Spritesheet.

Ltac store_lengths :=
  repeat first [rewrite length_alter | rewrite length_app]; cbn [length].

Ltac look :=
  repeat first
    [ rewrite list_lookup_alter_ne by (store_lengths; lia)
    | rewrite list_lookup_alter_eq
    | rewrite lookup_app_l by (store_lengths; lia)
    | rewrite lookup_app_r by (store_lengths; lia) ];
  store_lengths; rewrite ?Nat.sub_diag, ?Nat.add_sub';
  cbn [lookup list_lookup fmap option_fmap option_map].

Lemma mirror_length (a : address) (h : list sprite) :
  a < length h -> length (mirror a h) = length h + 3.
Proof.
  intros Ha. unfold mirror.
  destruct (lookup_lt_is_Some_2 h a Ha) as [s Hs]. rewrite Hs.
  cbv zeta. repeat (rewrite ?length_alter, ?length_app; cbn [length]). lia.
Qed.

(** The last pass at a cell writes to the sprite of the cell and to the
    objects it allocates, and to nothing else. *)
Lemma mirror_frame (a b : address) (h : list sprite) :
  b < length h -> a <> b -> mirror a h !! b = h !! b.
Proof.
  intros Hb Hab. unfold mirror. destruct (h !! a) as [s|]; [|reflexivity].
  cbv zeta.
  look. reflexivity.
Qed.

Lemma lookup_snoc {A} (l : list A) (x : A) : (l ++ [x]) !! length l = Some x.
Proof. rewrite lookup_app_r by lia. rewrite Nat.sub_diag. reflexivity. Qed.

(** The loop over the cells of two arrays, one after the other. *)
Lemma flip_cells_app (cells rest : list address) (h : list sprite) :
  flip_cells (cells ++ rest) h = (h' ← flip_cells cells h; flip_cells rest h').
Proof.
  revert h. induction cells as [|c cells IH]; intros h; [reflexivity|].
  cbn [app flip_cells]. destruct (flip c h) as [h1|m]; [|reflexivity].
  cbn. apply IH.
Qed.

(** Over cells that are different sprites, none of them frozen, the last
    pass runs to its end. *)
Lemma flip_cells_mirror (cells : list address) (h : list sprite) :
  NoDup cells ->
  (forall c, c ∈ cells -> exists s, h !! c = Some s /\ frozen s = false) ->
  flip_cells cells h = Normal (foldl (fun h a => mirror a h) h cells).
Proof.
  revert h. induction cells as [|c cells IH]; intros h Hnd Hc; [reflexivity|].
  apply NoDup_cons in Hnd as [Hnotin Hnd]. cbn [flip_cells foldl].
  destruct (Hc c ltac:(left)) as (s & Hs & Hf). unfold flip at 1.
  rewrite Hs, Hf. cbn. apply IH; [exact Hnd|].
  intros c' Hc'. destruct (Hc c' ltac:(right; exact Hc')) as (s' & Hs' & Hf').
  exists s'. split; [|exact Hf'].
  rewrite mirror_frame; [exact Hs'|eapply lookup_lt_Some; exact Hs'|].
  intros ->. exact (Hnotin Hc').
Qed.

(** A sheet that has its columns and nothing else: the last pass goes over
    the cells of the columns, in their order. *)
Lemma create_flipped_columns (g : list (list address)) (h : list sprite) :
  create_flipped (columns g) h = flip_cells (concat g) h.
Proof.
  revert h. induction g as [|column g IH]; intros h; [reflexivity|].
  cbn [columns fmap list_fmap create_flipped concat]. rewrite flip_cells_app.
  destruct (flip_cells column h) as [h1|m]; [|reflexivity].
  cbn. apply IH.
Qed.

(** The cells of the grid are new objects, at consecutive addresses. *)
Lemma make_column_spec (t : bool) (f : number) (x : nat) (ys : list nat)
    (h : list sprite) (L : Z) :
  (make_column t f x ys (h, L)).1 = seq (length h) (length ys)
  /\ length (make_column t f x ys (h, L)).2.1 = length h + length ys.
Proof.
  revert h L. induction ys as [|y ys IH]; intros h L; [cbn; split; [reflexivity|lia]|].
  cbn [make_column].
  specialize (IH (h ++ [new_sprite (if t then y else x) (if t then x else y) L f])
                 (L + 3)%Z).
  destruct (make_column t f x ys _) as [col [h' L']]. cbn [fst snd] in *.
  destruct IH as [-> ->]. rewrite length_app. cbn [length seq].
  split; [f_equal; f_equal; lia|lia].
Qed.

Lemma make_grid_spec (t : bool) (f : number) (xs : list nat) (rows : nat)
    (h : list sprite) (L : Z) :
  concat (make_grid t f xs rows (h, L)).1 = seq (length h) (length xs * rows)
  /\ length (make_grid t f xs rows (h, L)).2.1 = length h + length xs * rows.
Proof.
  revert h L. induction xs as [|x xs IH]; intros h L; [cbn; split; [reflexivity|lia]|].
  cbn [make_grid].
  pose proof (make_column_spec t f x (seq 0 rows) h L) as Hc.
  destruct (make_column t f x (seq 0 rows) (h, L)) as [col [h1 L1]].
  cbn [fst snd] in Hc. destruct Hc as [-> Hl1]. rewrite length_seq in *.
  specialize (IH h1 L1).
  destruct (make_grid t f xs rows (h1, L1)) as [g [h2 L2]].
  cbn [fst snd] in *. destruct IH as [Hg Hl2].
  cbn [concat length]. rewrite Hg, Hl1, Hl2. split; [|lia].
  replace (S (length xs) * rows) with (rows + length xs * rows) by lia.
  rewrite seq_app. reflexivity.
Qed.

(** C9.  A name that is an array index replaces the column of that index.
    In a sheet of one cell whose name table calls the cell [0], [sheet[0]]
    is the sprite and no longer a column; the last pass finds no length on
    it and makes no step.  So the sprite of the compiled sheet has neither
    [x_flipped] nor [y_flipped] and is not frozen, and there is no
    [x_flipped.y_flipped]. *)
Theorem index_name_sprite_not_mirrored :
  exists sheet h s,
    Samples.compiled Samples.zero 1 = Some (sheet, h)
    /\ grid sheet = [Some (Named (NamedSprite 0))]
    /\ table sheet = []
    /\ h = [s]
    /\ x_flipped s = None /\ y_flipped s = None /\ frozen s = false
    /\ property h x_flipped 0 ≫= property h y_flipped = None
    /\ property h y_flipped 0 ≫= property h x_flipped = None.
Proof.
  eexists _, _, _. split; [vm_compute; reflexivity|].
  repeat split.
Qed.

(** C3.  The sprite IDs advance by 3 per cell, not by 4: in a sheet of two
    cells, whatever the first ID, the doubly mirrored variant of the first
    sprite and the second sprite have the same [orientation_id]. *)
Theorem neighbours_share_orientation_id (lastSpriteID : Z) :
  exists sheet h lastSpriteID' first second both s b,
    compile Samples.plain (Samples.strip 2) ([], lastSpriteID)
    = Normal (sheet, (h, lastSpriteID'))
    /\ cell (grid sheet) (Some 0%Z) (Some 0%Z) = Some first
    /\ cell (grid sheet) (Some 1%Z) (Some 0%Z) = Some second
    /\ first <> second
    /\ property h x_flipped first ≫= property h y_flipped = Some both
    /\ h !! both = Some b
    /\ h !! second = Some s
    /\ orientation_id b = (lastSpriteID + 3)%Z
    /\ orientation_id s = (lastSpriteID + 3)%Z.
Proof.
  eexists _, _, _, 0, 1, 4, _, _.
  split; [reflexivity|]. cbn.
  repeat split; try reflexivity. discriminate.
Qed.

(** The two linear scans stay between the index they start from and the
    end they move towards. *)
Lemma search_forward_bounds (h : list sprite) (rest : list address)
    (i : nat) (f : number) (n : nat) :
  search_forward h rest i f = Normal n -> i <= n <= i + length rest.
Proof.
  revert i f. induction rest as [|a rest IH]; intros i f H; cbn in H.
  - injection H as <-. cbn. lia.
  - destruct (frames <$> h !! a) as [d|]; [|discriminate H].
    destruct (ge f d).
    + apply IH in H. cbn. lia.
    + injection H as <-. cbn. lia.
Qed.

Lemma count_backwards_bounds (h : list sprite) (animation : list address)
    (i : nat) (f : number) (n : nat) :
  count_backwards h animation i f = Normal n -> n <= i.
Proof.
  revert f. induction i as [|i IH]; intros f H; cbn [count_backwards] in H.
  - injection H as <-. lia.
  - destruct (frames_at h animation _) as [d|]; [|discriminate H].
    destruct (ge f d).
    + apply IH in H. lia.
    + injection H as <-. lia.
Qed.

Lemma at_index_nat {A} (a : list A) (i : nat) : at_index a (Z.of_nat i) = a !! i.
Proof.
  unfold at_index. destruct (Z.ltb_spec (Z.of_nat i) 0); [lia|].
  rewrite Nat2Z.id. reflexivity.
Qed.

Lemma find_frame_in_bounds (h : list sprite) (animation : Animation.t)
    (f : number) (r : option address) :
  let N := length (Animation.elements animation) in
  find_frame h animation f = Normal r ->
  1 <= N ->
  (Animation.extrapolate animation = u "oscillate" -> 2 <= N) ->
  exists i, i < N /\ r = Animation.elements animation !! i.
Proof.
  intros N H HN Hosc. unfold find_frame in H. fold N in H.
  assert (Forwards :
    (i ← search_forward h (Animation.elements animation) 0 f;
     Normal (at_index (Animation.elements animation)
               (Z.min (Z.of_nat i) (Z.of_nat N - 1)))) = Normal r ->
    exists i, i < N /\ r = Animation.elements animation !! i).
  { intros Hf.
    destruct (search_forward h (Animation.elements animation) 0 f) as [n|m] eqn:E;
      [|discriminate Hf].
    cbn in Hf. injection Hf as <-.
    exists (Nat.min n (N - 1)). split; [lia|].
    replace (Z.min (Z.of_nat n) (Z.of_nat N - 1)) with (Z.of_nat (Nat.min n (N - 1))) by lia.
    apply at_index_nat. }
  case_bool_decide as Ho; [|exact (Forwards H)].
  specialize (Hosc Ho).
  destruct (frames_at h _ 0) as [first|]; [|discriminate H].
  destruct (frames_at h _ (Z.of_nat N - 1)) as [last|]; [|discriminate H].
  destruct (ge f _); [|exact (Forwards H)].
  destruct (Z.leb_spec (Z.of_nat N - 2) 0) as [Hle|Hgt].
  - injection H as <-. exists 0. split; [lia|].
    replace (Z.of_nat N - 2)%Z with (Z.of_nat 0) by lia. apply at_index_nat.
  - destruct (count_backwards h _ _ _) as [n|m] eqn:E; [|discriminate H].
    cbn in H. injection H as <-.
    apply count_backwards_bounds in E.
    exists n. split; [lia|]. apply at_index_nat.
Qed.

(** Sampling stays inside the array whenever the array is not empty and is
    not an oscillating animation of a single element. *)
Lemma animationFrame_in_bounds (h : list sprite) (animation : Animation.t)
    (f : number) (r : option address) :
  let N := length (Animation.elements animation) in
  animationFrame h animation f = Normal r ->
  1 <= N ->
  (Animation.extrapolate animation = u "oscillate" -> 2 <= N) ->
  exists i, i < N /\ r = Animation.elements animation !! i.
Proof.
  intros N H HN Hosc. unfold animationFrame in H. fold N in H.
  case_bool_decide as Hc.
  - destruct (lt (floor f) (Fin 0)).
    { injection H as <-. exists 0. split; [lia|]. apply (at_index_nat _ 0). }
    destruct (ge (floor f) _).
    { injection H as <-. exists (N - 1). split; [lia|].
      replace (Z.of_nat N - 1)%Z with (Z.of_nat (N - 1)) by lia. apply at_index_nat. }
    eapply find_frame_in_bounds; eassumption.
  - eapply find_frame_in_bounds; eassumption.
Qed.

(** C10.  An oscillating animation of one cell whose sprite was given a
    shorter duration by a later name: its period is 4, the duration of its
    only sprite 0.25, and sampling at frame 3 reads the element at index -1,
    which the array does not have. *)
Theorem single_oscillating_cell_sampled_out_of_bounds :
  exists sheet h animation,
    Samples.compiled Samples.glow 1 = Some (sheet, h)
    /\ animation_named (u "glow") sheet = Some animation
    /\ length (Animation.elements animation) = 1
    /\ Animation.extrapolate animation = u "oscillate"
    /\ Animation.period animation = Fin 4
    /\ animationFrame h animation (Fin 3) = Normal None.
Proof.
  eexists _, _, _. split; [vm_compute; reflexivity|].
  split; [vm_compute; reflexivity|].
  repeat split; try (vm_compute; reflexivity).
Qed.

(** A loop of two sprites that last 0.25 and 0.5 frames, so of period 0.75:
    sampling at frame 1 gives the second sprite, sampling at
    [((1 % 0.75) + 0.75) % 0.75 = 0.25] gives the first. *)
Lemma fractional_period_not_reduced :
  exists sheet h animation,
    Samples.compiled Samples.blink 2 = Some (sheet, h)
    /\ animation_named (u "blink") sheet = Some animation
    /\ Animation.extrapolate animation = u "loop"
    /\ Animation.period animation = Fin (3 # 4)
    /\ animationFrame h animation (Fin 1) = Normal (Some 1)
    /\ animationFrame h animation (wrap (Fin 1) (Animation.period animation))
       = Normal (Some 0)
    /\ animationFrame h animation (Fin 1)
       <> animationFrame h animation (wrap (Fin 1) (Animation.period animation)).
Proof.
  eexists _, _, _. split; [vm_compute; reflexivity|].
  split; [vm_compute; reflexivity|].
  repeat split; try (vm_compute; reflexivity).
  vm_compute. discriminate.
Qed.

Section Sampling.
Import NumberFacts.
Local Open Scope Q_scope.

(** Where the sum with the period is exact, the double remainder is the
    reduction into the interval from 0 to the period. *)
Lemma wrap_fin (k : Z) (a b : Q) :
  (0 <= k <= 1074)%Z -> dyadic k a -> dyadic k b ->
  0 < b -> b * 2 ^ (k + 1) <= 2 ^ 53 ->
  wrap (Fin a) (Fin b) = Fin (Qred (Qmod a b)).
Proof.
  intros Hk Ha Hd Hb Hbound. unfold wrap.
  pose proof (pow2_pos k) as Hkpos.
  assert (Hbk : b * 2 ^ k <= 2 ^ 53).
  { rewrite pow2_succ in Hbound. nra. }
  rewrite (rem_exact k a b Hk Ha Hd Hb Hbk).
  set (T := Qtrunc (a / b)).
  pose proof (Qtrunc_bounds (a / b)) as [HT1 HT2]. fold T in HT1, HT2.
  set (r := Qred (a - b * inject_Z T)).
  assert (Hr : r == a - b * inject_Z T) by apply Qred_correct.
  assert (Hrd : dyadic k r).
  { apply (dyadic_comp k _ _ (Qeq_sym _ _ Hr)).
    apply dyadic_minus; [exact Ha|apply dyadic_times_Z, Hd]. }
  assert (Hrb : - b < r /\ r < b).
  { apply Qabs_Qlt_condition. rewrite (Qabs_wd _ _ Hr). apply remainder_bound, Hb. }
  rewrite add_exact.
  2:{ apply (dyadic_representable k); [exact Hk|apply dyadic_plus; assumption|].
      rewrite Qabs_pos by lra. rewrite pow2_succ in Hbound.
      assert ((r + b) * 2 ^ k < 2 * b * 2 ^ k).
      { apply Qmult_lt_compat_r; [exact Hkpos|lra]. }
      lra. }
  set (x := Qred (r + b)).
  assert (Hx : x == a - b * inject_Z (T - 1)).
  { unfold x. rewrite Qred_correct, Hr. unfold Z.sub.
    rewrite inject_Z_plus, inject_Z_opp. ring. }
  assert (Hxd : dyadic k x).
  { apply (dyadic_comp k (r + b)); [symmetry; apply Qred_correct|].
    apply dyadic_plus; assumption. }
  rewrite (rem_exact k x b Hk Hxd Hd Hb Hbk).
  f_equal. apply Qred_complete.
  assert (Hq : x / b == a / b - inject_Z (T - 1)).
  { rewrite Hx. field. clear - Hb. lra. }
  assert (Hpos : 0 <= x / b).
  { rewrite Hq. unfold Z.sub. rewrite inject_Z_plus, inject_Z_opp.
    change (inject_Z 1) with 1. clear - HT1. revert HT1.
    generalize (a / b) (inject_Z T). intros q t H. lra. }
  rewrite (Qtrunc_nonneg _ Hpos).
  change (Qmod x b == Qmod a b).
  rewrite (Qmod_comp _ _ b Hx). apply Qmod_shift. exact Hb.
Qed.

Lemma floor_wrap (k : Z) (f : Q) (p : Z) :
  (0 < p)%Z -> (0 <= k <= 1074)%Z -> dyadic k f ->
  inject_Z p * 2 ^ (k + 1) <= 2 ^ 53 ->
  wrap (floor (wrap (Fin f) (of_Z p))) (of_Z p) = wrap (floor (Fin f)) (of_Z p).
Proof.
  intros Hp Hk Hf Hbound. unfold of_Z.
  assert (Hp' : 0 < inject_Z p) by (unfold Qlt; cbn; lia).
  assert (Hpd : dyadic k (inject_Z p)) by (apply dyadic_Z; lia).
  rewrite (wrap_fin k f _ Hk Hf Hpd Hp' Hbound). unfold floor, of_Z.
  rewrite !(wrap_fin k) by (try assumption; apply dyadic_Z; lia).
  f_equal. apply Qred_complete.
  set (n := Qfloor (f / inject_Z p)).
  assert (E : Qfloor (Qred (Qmod f (inject_Z p))) = (Qfloor f - p * n)%Z).
  { rewrite Qred_correct. unfold Qmod. fold n.
    rewrite <- inject_Z_mult. apply Qfloor_shift. }
  rewrite E. unfold Z.sub. rewrite inject_Z_plus, inject_Z_opp, inject_Z_mult.
  apply (Qmod_shift (inject_Z (Qfloor f)) (inject_Z p) n Hp').
Qed.

(** C4, amended.  For a loop whose period [p] is a positive integer,
    sampling at a frame counter [f] equals sampling at
    [((f % period) + period) % period] whenever the sum in it is exact: for
    every [f] that is a multiple of [2 ^ -k], where [2 p] is at most
    [2 ^ (53 - k)]. *)
Theorem loop_sampling_periodic (h : list sprite) (animation : Animation.t)
    (p k : Z) (f : Q) :
  Animation.extrapolate animation = u "loop" ->
  Animation.period animation = of_Z p ->
  (0 < p)%Z ->
  (0 <= k <= 1074)%Z -> dyadic k f -> inject_Z p * 2 ^ (k + 1) <= 2 ^ 53 ->
  animationFrame h animation (Fin f)
  = animationFrame h animation (wrap (Fin f) (Animation.period animation)).
Proof.
  intros He Hperiod Hp Hk Hf Hbound. unfold animationFrame. rewrite He, Hperiod.
  change (bool_decide (u "loop" = u "clamp")) with false. cbv iota.
  rewrite (floor_wrap k) by assumption. reflexivity.
Qed.

End Sampling.

(** Where the sum is rounded the two samples can differ, also for a period
    that is an integer: in the loop of three cells of one frame each, the
    counter [3 - 2 ^ -51] is in the third frame, and the sum of it and the
    period is rounded to 6, which is reduced to 0. *)
Lemma rounded_sum_not_periodic :
  exists sheet h animation,
    Samples.compiled Samples.spin 3 = Some (sheet, h)
    /\ animation_named (u "spin") sheet = Some animation
    /\ Animation.period animation = of_Z 3
    /\ binary64 (3 - (1 # 2 ^ 51)) = Fin (3 - (1 # 2 ^ 51))
    /\ animationFrame h animation (Fin (3 - (1 # 2 ^ 51))) = Normal (Some 2)
    /\ wrap (Fin (3 - (1 # 2 ^ 51))) (Animation.period animation) = Fin 0
    /\ animationFrame h animation
         (wrap (Fin (3 - (1 # 2 ^ 51))) (Animation.period animation))
       = Normal (Some 0).
Proof.
  eexists _, _, _. split; [vm_compute; reflexivity|].
  split; [vm_compute; reflexivity|].
  repeat split; vm_compute; reflexivity.
Qed.

(** The theorem at a loop of three cells of one frame each: frame -1 is
    frame 2, frame 3 is frame 0, and frame 7.75 is frame 1.75. *)
Lemma loop_sampling_periodic_witness :
  exists sheet h animation,
    Samples.compiled Samples.spin 3 = Some (sheet, h)
    /\ animation_named (u "spin") sheet = Some animation
    /\ Animation.extrapolate animation = u "loop"
    /\ Animation.period animation = of_Z 3
    /\ (0 < 3)%Z
    /\ animationFrame h animation (Fin (-1)) = animationFrame h animation (Fin 2)
    /\ animationFrame h animation (Fin 3) = animationFrame h animation (Fin 0)
    /\ animationFrame h animation (Fin (31 # 4))
       = animationFrame h animation (Fin (7 # 4)).
Proof.
  eexists _, _, _. split; [vm_compute; reflexivity|].
  split; [vm_compute; reflexivity|].
  split; [reflexivity|]. split; [reflexivity|]. split; [reflexivity|].
  repeat apply conj.
  - match goal with |- animationFrame ?h ?a _ = _ =>
      exact (loop_sampling_periodic h a 3 2 (-1) eq_refl eq_refl eq_refl
               ltac:(lia) (ex_intro _ (-4)%Z eq_refl)
               ltac:(vm_compute; discriminate)) end.
  - match goal with |- animationFrame ?h ?a _ = _ =>
      exact (loop_sampling_periodic h a 3 2 3 eq_refl eq_refl eq_refl
               ltac:(lia) (ex_intro _ 12%Z eq_refl)
               ltac:(vm_compute; discriminate)) end.
  - match goal with |- animationFrame ?h ?a _ = _ =>
      exact (loop_sampling_periodic h a 3 2 (31 # 4) eq_refl eq_refl eq_refl
               ltac:(lia) (ex_intro _ 31%Z eq_refl)
               ltac:(vm_compute; discriminate)) end.
Defined.

End SpritesheetFacts.

(** ** The parsers *)

Module ParserFacts.
Import JS Parser.

(** A third of pi is not among the named constants: the token goes to
    [parseFloat], which finds no number in it. *)
Lemma third_of_pi_is_not_a_constant :
  parse 1 (u "⅓π") 0 = Some (Normal (VNumber NaN, 2))
  /\ parse 1 (u "⅓π") 0 <> Some (Normal (VPiTimes (1 # 3), 2)).
Proof. split; [vm_compute; reflexivity|vm_compute; discriminate]. Qed.

(** The entries for a half of pi hold [Math.PI/4]. *)
Lemma half_of_pi_is_a_quarter :
  parse 1 (u "½π") 0 = Some (Normal (VPiTimes (1 # 4), 2))
  /\ parse 1 (u "-½π") 0 = Some (Normal (VPiTimes (-1 # 4), 3)).
Proof. split; vm_compute; reflexivity. Qed.

(** C6, amended.  For the glyphs of a quarter and of three quarters,
    followed by the letter pi or by [pi]: the token parses to that fraction
    of pi, so does the token with a plus sign before it, and the token with
    a minus sign before it parses to the negated value. *)
Theorem quarters_of_pi (glyph suffix : string) (q : Q) (fuel : nat) :
  In (glyph, q) [("¼", 1 # 4); ("¾", 3 # 4)]%string ->
  In suffix ["π"; "pi"]%string ->
  let token := (glyph ++ suffix)%string in
  parse (S fuel) (u token) 0
  = Some (Normal (VPiTimes q, length (u token)))
  /\ parse (S fuel) (u ("+" ++ token)) 0
     = Some (Normal (VPiTimes q, S (length (u token))))
  /\ parse (S fuel) (u ("-" ++ token)) 0
     = Some (Normal (VPiTimes (- q), S (length (u token)))).
Proof.
  intros Hg Hs.
  destruct Hg as [[= <- <-]|[[= <- <-]|[]]];
    destruct Hs as [<-|[<-|[]]]; vm_compute; auto.
Qed.

(** The theorem at minus a quarter of pi. *)
Lemma quarters_of_pi_witness :
  In ("¼"%string, 1 # 4) [("¼", 1 # 4); ("¾", 3 # 4)]%string
  /\ In "π"%string ["π"; "pi"]%string
  /\ parse 1 (u "-¼π") 0 = Some (Normal (VPiTimes (-1 # 4), 3)).
Proof.
  split; [left; reflexivity|]. split; [left; reflexivity|].
  exact (proj2 (proj2 (quarters_of_pi "¼" "π" (1 # 4) 0
                         (or_introl eq_refl) (or_introl eq_refl)))).
Defined.

(** C5.  A cell that begins with a number is replaced by that number before
    the patterns for the percent sign and for [deg] are tried: the currency
    cell is unwrapped, the percentage stays 75 and the angle stays 45. *)
Theorem percent_and_degree_cells_keep_their_number :
  parseCSV 4 (u "$12.50,75%,45deg") true
  = Some [[Some (VNumber (Fin (25 # 2))); Some (VNumber (Fin 75));
           Some (VNumber (Fin 45))]].
Proof. vm_compute. reflexivity. Qed.

(** [fill] with the end index 0 writes nothing. *)
Lemma fill_empty_range {A} (v : A) (start : Z) (a : list A) :
  (0 <= start)%Z -> fill v start 0 a = a.
Proof.
  intros Hs. unfold fill. apply list_eq. intros i.
  rewrite list_lookup_imap. destruct (a !! i) as [x|]; [|reflexivity]. cbn.
  replace (start <? 0)%Z with false by (symmetry; apply Z.ltb_ge; exact Hs).
  replace (_ && _) with false; [reflexivity|].
  symmetry. apply andb_false_iff. right. apply Z.ltb_ge. cbn. lia.
Qed.

(** The second pass coerces the cells of a row and, for a short row,
    extends it by elements that are absent. *)
Lemma normalize_unfold (trim : bool) (max : nat) (row : list (option jsstring)) :
  normalize trim max row
  = List.map (fun c => Some (coerce trim c)) row ++ replicate (max - length row) None.
Proof.
  unfold normalize. rewrite length_map.
  destruct (Nat.ltb_spec (length row) max) as [Hlt|Hge].
  - apply fill_empty_range. lia.
  - replace (max - length row) with 0 by lia. cbn. rewrite app_nil_r. reflexivity.
Qed.

Lemma normalize_length (trim : bool) (max : nat) (row : list (option jsstring)) :
  length row <= max -> length (normalize trim max row) = max.
Proof.
  intros H. rewrite normalize_unfold, length_app, length_map, length_replicate. lia.
Qed.

Lemma normalize_padding (trim : bool) (max : nat) (row : list (option jsstring))
    (i : nat) :
  length row <= i < max -> normalize trim max row !! i = Some None.
Proof.
  intros H. rewrite normalize_unfold.
  rewrite lookup_app_r by (rewrite length_map; lia).
  apply lookup_replicate_2. rewrite length_map. lia.
Qed.

Lemma foldl_max_le (l : list nat) (m : nat) : m <= foldl Nat.max m l.
Proof.
  revert m. induction l as [|x l IH]; intros m; cbn; [lia|].
  specialize (IH (Nat.max m x)). lia.
Qed.

Lemma foldl_max_bound (l : list nat) (m x : nat) :
  x ∈ l -> x <= foldl Nat.max m l.
Proof.
  revert m. induction l as [|y l IH]; intros m Hx; [inversion Hx|].
  cbn. apply elem_of_cons in Hx as [->|Hx]; [|apply IH, Hx].
  pose proof (foldl_max_le l (Nat.max m y)). lia.
Qed.

(** Every row of the grid has the length of the longest row, and in every
    row the indices beyond its cells have no element. *)
Lemma short_rows_padded_with_holes (fuel : nat) (strData : jsstring)
    (trim : bool) (data : list (list (option jsstring))) :
  match_all fuel strData 0 [[]] = Some data ->
  let max := foldl Nat.max 0 (List.map length data) in
  exists grid,
    parseCSV fuel strData trim = Some grid
    /\ (forall row, row ∈ grid -> length row = max)
    /\ (forall r row cells i,
          data !! r = Some cells -> grid !! r = Some row ->
          length cells <= i < max -> row !! i = Some None).
Proof.
  intros Hd max. unfold parseCSV. rewrite Hd. cbn. fold max.
  eexists. split; [reflexivity|]. split.
  - intros row Hrow. apply list_elem_of_In, in_map_iff in Hrow as (cells & <- & Hin).
    apply normalize_length. apply foldl_max_bound.
    apply list_elem_of_In, in_map, Hin.
  - intros r row cells i Hr Hrow Hi.
    change (List.map (normalize trim max) data) with (normalize trim max <$> data) in Hrow.
    rewrite list_lookup_fmap, Hr in Hrow. injection Hrow as <-.
    apply normalize_padding. exact Hi.
Qed.

(** Each alternative of the field consumes what it matched. *)
Lemma quoted_shorter_upto (n : nat) :
  forall s text after,
    length s <= n -> quoted s = Some (text, after) -> length after < length s.
Proof.
  induction n as [|n IH]; intros s text after Hn H.
  - destruct s; [discriminate H|cbn in Hn; lia].
  - destruct s as [|c r]; [discriminate H|].
    cbn [quoted] in H. cbn [length] in *. destruct (c =? quote)%N.
    + destruct r as [|c' r'].
      * injection H as <- <-. cbn. lia.
      * destruct (c' =? quote)%N.
        -- destruct (quoted r') as [[t a]|] eqn:E.
           ++ injection H as <- <-.
              apply IH in E; [|cbn in Hn; lia]. cbn [length]. lia.
           ++ injection H as <- <-. cbn [length]. lia.
        -- injection H as <- <-. cbn [length]. lia.
    + destruct (quoted r) as [[t a]|] eqn:E; [|discriminate H].
      injection H as <- <-. apply IH in E; [|lia]. lia.
Qed.

Lemma quoted_shorter (s text after : jsstring) :
  quoted s = Some (text, after) -> length after < length s.
Proof. apply (quoted_shorter_upto (length s)). reflexivity. Qed.

Lemma unquoted_shorter (s : jsstring) : length (unquoted s).2 <= length s.
Proof.
  induction s as [|c r IH]; [reflexivity|]. cbn [unquoted].
  destruct (_ || _); [reflexivity|].
  destruct (unquoted r) as [text after]. cbn [snd length] in *. lia.
Qed.

Lemma field_shorter (s : jsstring) : length (field s).2 <= length s.
Proof.
  pose proof (unquoted_shorter s) as Hu.
  unfold field. destruct s as [|c r].
  - destruct (unquoted []) as [text after]. exact Hu.
  - destruct (c =? quote)%N.
    + destruct (quoted r) as [[[|t0 text] after]|] eqn:E.
      * apply quoted_shorter in E. cbn [snd length]. lia.
      * apply quoted_shorter in E. cbn [snd length]. lia.
      * destruct (unquoted (c :: r)) as [text after]. exact Hu.
    + destruct (unquoted (c :: r)) as [text after]. exact Hu.
Qed.

(** At the start of a text that does not begin with a separator, the field
    takes at least one unit. *)
Lemma field_at_start (c : N) (r : jsstring) :
  match_separator 0 (c :: r) = Some (Start, c :: r) ->
  length (field (c :: r)).2 < length (c :: r).
Proof.
  intros Hs. cbn [match_separator] in Hs.
  destruct (c =? chr ",")%N eqn:E1; [discriminate Hs|].
  destruct (c =? 13)%N eqn:E2.
  { destruct r as [|c' r']; [discriminate Hs|]. destruct (c' =? 10)%N; discriminate Hs. }
  destruct (c =? 10)%N eqn:E3; [discriminate Hs|].
  assert (Hplain : length (unquoted (c :: r)).2 < length (c :: r)).
  { cbn [unquoted]. rewrite E1, E2, E3. cbn [orb].
    pose proof (unquoted_shorter r). destruct (unquoted r) as [text after].
    cbn [snd length] in *. lia. }
  unfold field. destruct (c =? quote)%N.
  - destruct (quoted r) as [[[|t0 text] after]|] eqn:E.
    + apply quoted_shorter in E. cbn [snd length]. lia.
    + apply quoted_shorter in E. cbn [snd length]. lia.
    + destruct (unquoted (c :: r)) as [text after]. exact Hplain.
  - destruct (unquoted (c :: r)) as [text after]. exact Hplain.
Qed.

Lemma match_separator_shorter (i : nat) (s r : jsstring) (sep : separator) :
  match_separator i s = Some (sep, r) ->
  (sep = Start /\ r = s /\ i = 0) \/ (sep <> Start /\ length r < length s).
Proof.
  unfold match_separator. destruct s as [|c s'].
  - destruct (i =? 0) eqn:E; [|discriminate]. intros [= <- <-].
    left. apply Nat.eqb_eq in E. auto.
  - destruct (c =? chr ",")%N.
    { intros [= <- <-]. right. split; [discriminate|cbn; lia]. }
    destruct (c =? 13)%N.
    { destruct s' as [|c' r'].
      - intros [= <- <-]. right. split; [discriminate|cbn; lia].
      - destruct (c' =? 10)%N; intros [= <- <-]; right;
          (split; [discriminate|cbn; lia]). }
    destruct (c =? 10)%N.
    { intros [= <- <-]. right. split; [discriminate|cbn; lia]. }
    destruct (i =? 0) eqn:E; [|discriminate]. intros [= <- <-].
    left. apply Nat.eqb_eq in E. auto.
Qed.

(** A match ends after the index the search started from, and inside the
    text, unless the text is empty. *)
Lemma exec_advances (s : jsstring) :
  forall i sep cell j,
    exec i s = Some (sep, cell, j) ->
    (i = 0 -> s <> []) ->
    i < j <= i + length s.
Proof.
  induction s as [|c r IH]; intros i sep cell j H Hne.
  - cbn [exec] in H. destruct (match_separator i []) as [[sp r0]|] eqn:E; [|discriminate H].
    apply match_separator_shorter in E as [(-> & -> & ->)|(_ & Hl)]; [|cbn in Hl; lia].
    exfalso. apply Hne; reflexivity.
  - cbn [exec] in H.
    destruct (match_separator i (c :: r)) as [[sp r0]|] eqn:E.
    + destruct (field r0) as [cl after] eqn:Ef.
      injection H as <- <- <-.
      pose proof (field_shorter r0) as Hf. rewrite Ef in Hf. cbn [snd] in Hf.
      pose proof E as E'.
      apply match_separator_shorter in E as [(-> & -> & ->)|(_ & Hl)].
      * pose proof (field_at_start c r E') as Hs. rewrite Ef in Hs. cbn [snd] in Hs.
        cbn [length] in *. lia.
      * cbn [length] in *. lia.
    + apply IH in H; [|intros [=]]. cbn [length]. lia.
Qed.

(** The loop over the matches ends on every text but the empty one. *)
Lemma match_all_terminates (strData : jsstring) :
  strData <> [] ->
  forall fuel lastIndex data,
    length strData < lastIndex + fuel ->
    lastIndex <= length strData ->
    exists result, match_all fuel strData lastIndex data = Some result.
Proof.
  intros Hne fuel. induction fuel as [|fuel IH]; intros lastIndex data Hf Hl; [lia|].
  cbn [match_all].
  destruct (exec lastIndex (drop lastIndex strData)) as [[[sep cell] j]|] eqn:E.
  - apply exec_advances in E; [|intros ->; exact Hne].
    rewrite length_drop in E. apply IH; lia.
  - eexists. reflexivity.
Qed.

(** On every text but the empty one [parseCSV] returns a grid; all its rows
    have the length of the longest row, and the indices that a short row
    gained have no element. *)
Lemma parseCSV_returns (strData : jsstring) (trim : bool) :
  strData <> [] ->
  exists data grid,
    match_all (S (length strData)) strData 0 [[]] = Some data
    /\ parseCSV (S (length strData)) strData trim = Some grid
    /\ (forall row, row ∈ grid ->
                    length row = foldl Nat.max 0 (List.map length data))
    /\ (forall r row cells i,
          data !! r = Some cells -> grid !! r = Some row ->
          length cells <= i < foldl Nat.max 0 (List.map length data) ->
          row !! i = Some None).
Proof.
  intros Hne.
  destruct (match_all_terminates strData Hne (S (length strData)) 0 [[]])
    as [data Hd]; [lia|lia|].
  destruct (short_rows_padded_with_holes _ _ trim _ Hd) as (grid & Hg & Hrows & Hpad).
  exists data, grid. auto.
Qed.

(** C8.  The text of a row of two cells and a row of one: the second row of
    the grid has length two, and no element at index 1. *)
Theorem ragged_row_padded_with_a_hole :
  parseCSV 4 (u "a,b" ++ [0x0A%N] ++ u "c") true
  = Some [[Some (VString (u "a")); Some (VString (u "b"))];
          [Some (VString (u "c")); None]].
Proof. vm_compute. reflexivity. Qed.

(** The loop over the matches does not end on the empty text: the pattern
    matches the empty string at index 0 again and again. *)
Lemma empty_text_never_parsed (fuel : nat) (trim : bool) :
  parseCSV fuel [] trim = None.
Proof.
  unfold parseCSV.
  assert (H : forall data, match_all fuel [] 0 data = None).
  { induction fuel as [|fuel IH]; intros data; [reflexivity|]. cbn. apply IH. }
  rewrite H. reflexivity.
Qed.

End ParserFacts.

(** ** The grid, the IDs and the mirrored variants of a sheet *)

Module SheetLayoutFacts.
Import JS Spritesheet SheetLayout SpritesheetFacts.

Lemma make_column_cells (t : bool) (f : number) (x : nat) (ys : list nat)
    (h : list sprite) (L : Z) col h' L' :
  make_column t f x ys (h, L) = (col, (h', L')) ->
  L' = (L + 3 * Z.of_nat (length ys))%Z
  /\ length col = length ys
  /\ length h' = length h + length ys
  /\ (forall a, a < length h -> h' !! a = h !! a)
  /\ forall k y, ys !! k = Some y ->
       col !! k = Some (length h + k)
       /\ h' !! (length h + k)
          = Some (new_sprite (if t then y else x) (if t then x else y)
                             (L + 3 * Z.of_nat k) f).
Proof.
  revert h L col h' L'. induction ys as [|y0 ys IH]; intros h L col h' L' H.
  - cbn in H. injection H as <- <- <-. cbn [length].
    repeat apply conj; try lia; [reflexivity|]. intros k y Hk. discriminate Hk.
  - cbn [make_column] in H.
    destruct (make_column t f x ys _) as [col1 [h1 L1]] eqn:E.
    injection H as <- <- <-.
    apply IH in E as (-> & Hlen & Hlh & Hpre & Hcells).
    rewrite length_app in *. cbn [length] in *.
    repeat apply conj; try lia.
    + intros a Ha. rewrite Hpre by lia. apply lookup_app_l. exact Ha.
    + intros k y H. destruct k as [|k].
      * injection H as <-. rewrite Nat.add_0_r, Hpre by lia.
        rewrite lookup_snoc. split; [reflexivity|]. do 2 f_equal. lia.
      * destruct (Hcells k y H) as [Hk Hs].
        change ((length h :: col1) !! S k) with (col1 !! k). rewrite Hk.
        replace (length h + S k) with (length h + 1 + k) by lia.
        rewrite Hs. split; [reflexivity|]. do 2 f_equal. lia.
Qed.

Lemma make_grid_cells (t : bool) (f : number) (xs : list nat) (n : nat)
    (h : list sprite) (L : Z) g h' L' :
  make_grid t f xs n (h, L) = (g, (h', L')) ->
  L' = (L + 3 * Z.of_nat (length xs * n))%Z
  /\ length g = length xs
  /\ Forall (fun column => length column = n) g
  /\ length h' = length h + length xs * n
  /\ (forall a, a < length h -> h' !! a = h !! a)
  /\ forall i x y, xs !! i = Some x -> y < n ->
       g !! i ≫= (fun column => column !! y) = Some (length h + i * n + y)
       /\ h' !! (length h + i * n + y)
          = Some (new_sprite (if t then y else x) (if t then x else y)
                             (L + 3 * Z.of_nat (i * n + y)) f).
Proof.
  revert h L g h' L'. induction xs as [|x0 xs IH]; intros h L g h' L' H.
  - cbn in H. injection H as <- <- <-. cbn [length].
    repeat apply conj; try lia; [constructor|reflexivity|]; intros i x y Hi; discriminate Hi.
  - cbn [make_grid] in H.
    destruct (make_column t f x0 (seq 0 n) (h, L)) as [col [h1 L1]] eqn:Ec.
    destruct (make_grid t f xs n (h1, L1)) as [g1 [h2 L2]] eqn:Eg.
    injection H as <- <- <-.
    apply make_column_cells in Ec as (-> & Hcl & Hl1 & Hpre1 & Hcol).
    rewrite length_seq in *.
    apply IH in Eg as (-> & Hgl & Hall & Hl2 & Hpre2 & Hcells).
    cbn [length].
    repeat apply conj; try lia.
    + constructor; assumption.
    + intros a Ha. rewrite Hpre2 by lia. apply Hpre1. exact Ha.
    + intros i x y H H0.
      destruct i as [|i].
      * injection H as <-.
        destruct (Hcol y y) as [Hy Hs]; [apply lookup_seq; lia|].
        change ((col :: g1) !! 0 ≫= (fun column => column !! y)) with (col !! y).
        cbn [Nat.mul Nat.add]. rewrite Nat.add_0_r.
        rewrite Hpre2 by lia. split; [exact Hy|exact Hs].
      * destruct (Hcells i x y H H0) as [Hi Hs].
        change ((col :: g1) !! S i) with (g1 !! i). rewrite Hi.
        replace (length h + S i * n + y) with (length h1 + i * n + y) by lia.
        rewrite Hs. split; [reflexivity|]. do 2 f_equal. lia.
Qed.

Lemma alter_name_sprite_fixed anim index f d a (h : list sprite) b :
  fixed <$> alter (name_sprite anim index f d) a h !! b = fixed <$> h !! b.
Proof.
  destruct (decide (a = b)) as [->|Hab].
  - rewrite list_lookup_alter_eq. destruct (h !! b); reflexivity.
  - rewrite list_lookup_alter_ne by exact Hab. reflexivity.
Qed.

Lemma at_index_elem_of {A} (l : list A) (i : Z) (v : A) :
  at_index l i = Some v -> v ∈ l.
Proof.
  unfold at_index. destruct (i <? 0)%Z; [discriminate|].
  apply list_elem_of_lookup_2.
Qed.

Lemma at_index_fmap {A B} (f : A -> B) (l : list A) (i : Z) :
  at_index (f <$> l) i = f <$> at_index l i.
Proof.
  unfold at_index. destruct (i <? 0)%Z; [reflexivity|]. apply list_lookup_fmap.
Qed.

(** The elements of a sheet that has its columns and nothing else. *)
Lemma column_at_columns (g : list (list address)) (u : Z) :
  column_at (columns g) u = Column <$> at_index g u.
Proof.
  unfold column_at, columns. rewrite at_index_fmap.
  destruct (at_index g u); reflexivity.
Qed.

Lemma cell_columns (g : list (list address)) (u v : Z) :
  cell (columns g) (Some u) (Some v)
  = at_index g u ≫= (fun column => at_index column v).
Proof.
  unfold cell. cbn. rewrite column_at_columns.
  destruct (at_index g u); reflexivity.
Qed.

Lemma cell_columns_nat (g : list (list address)) (x y : nat) :
  cell (columns g) (Some (Z.of_nat x)) (Some (Z.of_nat y))
  = g !! x ≫= (fun column => column !! y).
Proof.
  rewrite cell_columns, at_index_nat. destruct (g !! x); [|reflexivity].
  cbn. apply at_index_nat.
Qed.

Lemma in_column (g : list (list address)) (u v : Z) (column : list address)
    (a : address) :
  at_index g u = Some column -> at_index column v = Some a -> a ∈ concat g.
Proof.
  intros Hu Hv. apply list_elem_of_In, in_concat. exists column.
  split; apply list_elem_of_In; eapply at_index_elem_of; eassumption.
Qed.

Lemma cell_in_grid (g : list (list address)) (u v : option Z) (a : address) :
  cell (columns g) u v = Some a -> a ∈ concat g.
Proof.
  destruct u as [u|]; [|discriminate].
  destruct v as [v|];
    [|unfold cell; cbn; destruct (column_at _ _); discriminate].
  rewrite cell_columns. destruct (at_index g u) as [column|] eqn:E; [|discriminate].
  cbn. intros Ha. exact (in_column _ _ _ _ _ E Ha).
Qed.

(** Every sprite of the columns is the sprite of a cell. *)
Lemma grid_in_cell (g : list (list address)) (a : address) :
  a ∈ concat g -> exists x y : Z, cell (columns g) (Some x) (Some y) = Some a.
Proof.
  intros Ha. apply list_elem_of_In, in_concat in Ha as (column & Hc & Ha).
  apply list_elem_of_In, list_elem_of_lookup_1 in Hc as [x Hx].
  apply list_elem_of_In, list_elem_of_lookup_1 in Ha as [y Hy].
  exists (Z.of_nat x), (Z.of_nat y). rewrite cell_columns_nat, Hx. exact Hy.
Qed.

(** What a named sprite reads, [spritesheet[u][v]], is a sprite of the
    columns also where [u] is [undefined] and reads an earlier name. *)
Lemma sheet_at_in_grid (g : list (list address)) (table : list (jsstring * named))
    (u v : option Z) (e : element) (a : address) :
  Forall (fun entry => entry_of_grid g entry.2) table ->
  sheet_at (columns g) table u = Some e -> element_at e v = Some a ->
  a ∈ concat g.
Proof.
  intros Ht He Ha. destruct v as [v|]; [|discriminate Ha]. cbn in Ha.
  destruct u as [u|]; cbn [sheet_at] in He.
  - rewrite column_at_columns in He.
    destruct (at_index g u) as [column|] eqn:E; [|discriminate He].
    injection He as <-. eapply in_column; eassumption.
  - destruct (list_find _ table) as [[i [name n]]|] eqn:E; [|discriminate He].
    injection He as <-. apply list_find_Some in E as (Hi & _ & _).
    rewrite Forall_forall in Ht.
    specialize (Ht _ (list_elem_of_lookup_2 _ _ _ Hi)). cbn in Ht.
    destruct n as [s|animation]; [discriminate Ha|].
    apply Ht. eapply at_index_elem_of. exact Ha.
Qed.

(** The loop of an animation whose name is no array index: it writes to
    sprites of the columns, allocates nothing, and pushes one sprite of the
    columns for each cell it visits. *)
Lemma add_frames_columns js g anim d schedule cells i h animation h' animation' :
  add_frames js (columns g) None anim d schedule cells i h animation
  = Normal (h', animation') ->
  length h' = length h
  /\ (forall b, fixed <$> h' !! b = fixed <$> h !! b)
  /\ (forall b, b ∉ concat g -> h' !! b = h !! b)
  /\ exists new, animation' = animation ++ new /\ length new = length cells
       /\ forall e, e ∈ new -> e ∈ concat g.
Proof.
  revert i h animation. induction cells as [|[x y] cells IH]; intros i h animation H.
  - injection H as <- <-. repeat split.
    exists []. rewrite app_nil_r. repeat split. intros e He. inversion He.
  - cbn [add_frames while_filling] in H.
    destruct (out_of_bounds _ _ _) as [[|]|m]; try discriminate H.
    cbn [mbind completion_bind] in H.
    destruct (cell _ _ _) as [a|] eqn:Ec; [|discriminate H].
    apply cell_in_grid in Ec.
    apply IH in H as (Hlen & Hfix & Hfr & new & -> & Hnew & Hin).
    rewrite length_alter in Hlen.
    split; [exact Hlen|]. split; [|split].
    + intros b. rewrite Hfix. apply alter_name_sprite_fixed.
    + intros b Hb. rewrite Hfr by exact Hb. apply list_lookup_alter_ne.
      intros ->. exact (Hb Ec).
    + exists (a :: new). rewrite <- app_assoc. cbn [app length].
      repeat split; [lia|]. intros e He.
      apply elem_of_cons in He as [->|He]; [exact Ec|exact (Hin e He)].
Qed.

Lemma ordinary_name_spec (anim : jsstring) :
  ordinary_name anim = true ->
  array_index anim = None /\ bool_decide (anim = u "length") = false.
Proof.
  unfold ordinary_name. destruct (array_index anim); [discriminate|].
  intros H. split; [reflexivity|]. apply negb_true_iff. exact H.
Qed.

(** An entry whose name is a property like any other leaves the array of
    the sheet as it is and adds its name to the table. *)
Lemma apply_name_columns js f g h table anim d st' :
  ordinary_name anim = true ->
  Forall (fun entry => entry_of_grid g entry.2) table ->
  apply_name js f (columns g, h, table) (anim, d) = Normal st' ->
  exists h' e,
    st' = (columns g, h', table ++ [(anim, e)]) /\ entry_of_grid g e
    /\ length h' = length h
    /\ (forall b, fixed <$> h' !! b = fixed <$> h !! b)
    /\ (forall b, b ∉ concat g -> h' !! b = h !! b).
Proof.
  intros Ho Ht. apply ordinary_name_spec in Ho as [Hi Hl]. unfold apply_name.
  rewrite Hi, Hl.
  destruct (Data.x d) as [dx|], (Data.start d) as [[sx sy]|]; try discriminate.
  - destruct (out_of_bounds _ _ _) as [[|]|m]; try discriminate.
    cbn [mbind completion_bind].
    destruct (sheet_at _ _ _) as [e|] eqn:Ee; [|discriminate].
    destruct (element_at e _) as [a|] eqn:Ea; [|discriminate].
    pose proof (sheet_at_in_grid _ _ _ _ _ _ Ht Ee Ea) as Hin.
    intros [= <-]. eexists _, _. split; [reflexivity|].
    split; [exact Hin|]. split; [apply length_alter|]. split.
    + intros b. apply alter_name_sprite_fixed.
    + intros b Hb. apply list_lookup_alter_ne. intros ->. exact (Hb Hin).
  - destruct (_ && _); [discriminate|].
    destruct (add_frames _ _ _ _ _ _ _ _ _ _) as [[h1 animation]|m] eqn:E;
      [|discriminate].
    cbn. destruct (sum_durations _ _ _ _ _) as [period total].
    intros [= <-].
    apply add_frames_columns in E as (Hlen & Hfix & Hfr & new & -> & _ & Hin).
    eexists _, _. split; [reflexivity|]. split; [exact Hin|].
    split; [exact Hlen|]. split; [exact Hfix|exact Hfr].
Qed.

Lemma apply_names_columns js f g entries h table st' :
  forallb (fun entry : jsstring * Data.t => ordinary_name entry.1) entries = true ->
  Forall (fun entry => entry_of_grid g entry.2) table ->
  apply_names js f entries (columns g, h, table) = Normal st' ->
  exists h' new,
    st' = (columns g, h', table ++ new) /\ new.*1 = entries.*1
    /\ Forall (fun entry => entry_of_grid g entry.2) new
    /\ length h' = length h
    /\ (forall b, fixed <$> h' !! b = fixed <$> h !! b)
    /\ (forall b, b ∉ concat g -> h' !! b = h !! b).
Proof.
  revert h table st'.
  induction entries as [|[anim d] entries IH]; intros h table st' Ho Ht H.
  - injection H as <-. exists h, []. rewrite app_nil_r. repeat split. constructor.
  - cbn [forallb fst] in Ho. apply andb_true_iff in Ho as [Ho1 Ho].
    cbn [apply_names] in H.
    destruct (apply_name js f (columns g, h, table) (anim, d)) as [st1|m] eqn:E;
      [|discriminate H].
    cbn [mbind completion_bind] in H.
    apply apply_name_columns in E as (h1 & e & -> & He & Hl1 & Hfix1 & Hfr1);
      [|exact Ho1|exact Ht].
    apply IH in H as (h2 & new & -> & Hnames & Hall & Hl2 & Hfix2 & Hfr2);
      [|exact Ho|].
    + exists h2, ((anim, e) :: new). rewrite <- app_assoc. cbn [app fmap list_fmap].
      rewrite Hnames. split; [reflexivity|]. split; [reflexivity|].
      split; [constructor; assumption|]. split; [lia|]. split.
      * intros b. rewrite Hfix2. apply Hfix1.
      * intros b Hb. rewrite Hfr2, Hfr1 by exact Hb. reflexivity.
    + apply Forall_app. split; [exact Ht|]. constructor; [exact He|constructor].
Qed.

(** The last pass leaves the objects of the other cells and their mirrored
    variants as they are. *)
Lemma create_flipped_frame (cells : list address) (h : list sprite) (b : address) :
  b < length h -> b ∉ cells ->
  foldl (fun h a => mirror a h) h cells !! b = h !! b.
Proof.
  revert h. induction cells as [|c cells IH]; intros h Hb Hn; [reflexivity|].
  cbn [foldl]. rewrite IH.
  - apply mirror_frame; [exact Hb|]. intros ->. apply Hn. left.
  - destruct (decide (c < length h)) as [Hc|Hc].
    + rewrite mirror_length by exact Hc. lia.
    + unfold mirror. rewrite lookup_ge_None_2 by lia. exact Hb.
  - intros Hin. apply Hn. right. exact Hin.
Qed.

(** The last pass reaches the cell [a] with the sprite of [a] as the name
    table left it, and what it builds there stays. *)
Lemma create_flipped_at (n0 : nat) (cells : list address) (h : list sprite)
    (a : address) :
  NoDup cells -> a ∈ cells -> (forall c, c ∈ cells -> c < n0) -> n0 <= length h ->
  exists h1,
    h1 !! a = h !! a /\ n0 <= length h1
    /\ forall b, b = a \/ (length h1 <= b < length h1 + 3) ->
         foldl (fun h a => mirror a h) h cells !! b = mirror a h1 !! b.
Proof.
  revert h. induction cells as [|c cells IH]; intros h Hnd Ha Hc Hn.
  - inversion Ha.
  - apply NoDup_cons in Hnd as [Hnotin Hnd]. cbn [foldl].
    assert (Hclt : c < length h) by (specialize (Hc c ltac:(left)); lia).
    apply elem_of_cons in Ha as [->|Ha].
    + exists h. split; [reflexivity|]. split; [exact Hn|].
      intros b Hb. apply create_flipped_frame.
      * rewrite mirror_length by exact Hclt. lia.
      * intros Hin. destruct Hb as [->|Hb]; [exact (Hnotin Hin)|].
        specialize (Hc b ltac:(right; exact Hin)). lia.
    + destruct (IH (mirror c h) Hnd Ha) as (h1 & H1 & H2 & H3).
      * intros c' Hc'. apply Hc. right. exact Hc'.
      * rewrite mirror_length by exact Hclt. lia.
      * exists h1. split; [|split; [exact H2|exact H3]].
        rewrite H1. apply mirror_frame.
        -- specialize (Hc a ltac:(right; exact Ha)). lia.
        -- intros ->. exact (Hnotin Ha).
Qed.

(** What the last pass builds at one cell. *)
Lemma mirror_at (a : address) (h : list sprite) (s : sprite) :
  h !! a = Some s ->
  let X := length h in
  let Y := length h + 1 in
  let B := length h + 2 in
  mirror a h !! a = Some (freeze (set_y_flipped Y (set_x_flipped X s)))
  /\ mirror a h !! X
     = Some (freeze (set_y_flipped B (reorient NP 1 (object_assign (Some a) None s))))
  /\ mirror a h !! Y
     = Some (freeze (set_x_flipped B (reorient PN 2
              (object_assign None (Some a) (set_x_flipped X s)))))
  /\ mirror a h !! B
     = Some (freeze (reorient NN 3
              (object_assign None None (set_y_flipped Y (set_x_flipped X s))))).
Proof.
  intros Hs. pose proof (lookup_lt_Some _ _ _ Hs) as Ha.
  cbv zeta. unfold mirror. rewrite Hs. cbv zeta. store_lengths.
  replace (length h + 2) with (length h + 1 + 1) by lia.
  repeat split; look; rewrite ?Hs; reflexivity.
Qed.

Lemma create_flipped_length (cells : list address) (h : list sprite) :
  (forall c, c ∈ cells -> c < length h) ->
  length (foldl (fun h a => mirror a h) h cells) = length h + 3 * length cells.
Proof.
  revert h. induction cells as [|c cells IH]; intros h Hc; [cbn; lia|].
  cbn [foldl length].
  assert (Hclt : c < length h) by (apply Hc; left).
  rewrite IH; rewrite mirror_length by exact Hclt; [lia|].
  intros c' Hc'. specialize (Hc c' ltac:(right; exact Hc')). lia.
Qed.

(** A sheet whose names are properties like any other: when it compiles,
    its array is the columns [g] that the first loops made, its table has
    the names in their order, each for sprites of the columns, and the last
    pass has been over every cell of [g] once. *)
Lemma compile_ordinary (js : json) (data : image_data) (h0 : list sprite)
    (L0 : Z) (sheet : spritesheet) (h : list sprite) (L : Z) :
  compile js data (h0, L0) = Normal (sheet, (h, L)) -> ordinary js = true ->
  exists g h1 h2,
    make_grid (transpose js) (max (or_else (default_frames js) (Fin 1)) (Fin (1 # 4)))
              (seq 0 (Z.to_nat (cols js data))) (Z.to_nat (rows js data)) (h0, L0)
    = (g, (h1, L))
    /\ rows js data <> 0%Z /\ cols js data <> 0%Z
    /\ grid sheet = columns g
    /\ (table sheet).*1 = (names js).*1
    /\ Forall (fun entry => entry_of_grid g entry.2) (table sheet)
    /\ length h2 = length h1
    /\ (forall b, fixed <$> h2 !! b = fixed <$> h1 !! b)
    /\ (forall b, b ∉ concat g -> h2 !! b = h1 !! b)
    /\ h = foldl (fun h a => mirror a h) h2 (concat g).
Proof.
  intros Hc Ho. unfold compile in Hc. fold (rows js data) (cols js data) in Hc.
  destruct (_ || _) eqn:Ez; [discriminate Hc|].
  apply orb_false_elim in Ez as [Er Ec].
  destruct (make_grid _ _ _ _ _) as [g [h1 L1]] eqn:Eg.
  destruct (apply_names _ _ _ _) as [st2|m] eqn:En; [|discriminate Hc].
  apply apply_names_columns in En
    as (h2 & new & -> & Hnames & Hall & Hl2 & Hfix & Hfr); [|exact Ho|constructor].
  cbn [mbind completion_bind app] in Hc.
  match type of Eg with make_grid ?t ?f ?xs ?n _ = _ =>
    pose proof (make_grid_spec t f xs n h0 L0) as Hg end.
  rewrite Eg in Hg.
  cbn [fst snd] in Hg. destruct Hg as [Hconcat Hl1]. rewrite length_seq in *.
  destruct (make_grid_cells _ _ _ _ _ _ _ _ _ Eg) as (_ & _ & _ & _ & _ & Hcell).
  rewrite create_flipped_columns, flip_cells_mirror in Hc.
  - cbn [mbind completion_bind] in Hc. injection Hc as <- <- <-.
    exists g, h1, h2. cbn [grid Spritesheet.table].
    repeat apply conj; try assumption; try reflexivity; lia.
  - rewrite Hconcat. apply NoDup_seq.
  - intros c Hin. rewrite Hconcat in Hin. apply elem_of_seq in Hin.
    set (n := Z.to_nat (rows js data)) in *.
    set (k := c - length h0).
    assert (Hn : n <> 0) by (intros Hz; rewrite Hz in Hin; lia).
    assert (Hk : k < Z.to_nat (cols js data) * n) by lia.
    assert (Hi : k / n < Z.to_nat (cols js data)).
    { apply Nat.Div0.div_lt_upper_bound. lia. }
    destruct (Hcell (k / n) (k / n) (k mod n) (lookup_seq_lt _ _ _ Hi)
                (Nat.mod_upper_bound _ _ Hn)) as [_ Hs].
    replace (length h0 + k / n * n + k mod n) with c in Hs
      by (pose proof (Nat.div_mod_eq k n); lia).
    specialize (Hfix c). rewrite Hs in Hfix.
    destruct (h2 !! c) as [s|]; [|discriminate Hfix].
    exists s. split; [reflexivity|]. apply (inj Some) in Hfix.
    unfold fixed in Hfix. injection Hfix as _ _ _ _ _ _ Hf. exact Hf.
Qed.

(** The objects of one cell of a compiled sheet: the sprite [s0] that the
    grid and the name table made, with its mirrored variants at [X], [X + 1]
    and [X + 2]. *)
Lemma compile_cell (js : json) (data : image_data) (h0 : list sprite) (L0 : Z)
    (sheet : spritesheet) (h : list sprite) (L : Z) (x y : nat) (a : address) :
  compile js data (h0, L0) = Normal (sheet, (h, L)) -> ordinary js = true ->
  cell (grid sheet) (Some (Z.of_nat x)) (Some (Z.of_nat y)) = Some a ->
  x < Z.to_nat (cols js data) /\ y < Z.to_nat (rows js data) /\
  exists s0 X,
    fixed s0
    = (if transpose js then y else x, if transpose js then x else y,
       (L0 + 3 * Z.of_nat (x * Z.to_nat (rows js data) + y))%Z, PP, None, None, false)
    /\ a < X
    /\ h !! a = Some (freeze (set_y_flipped (X + 1) (set_x_flipped X s0)))
    /\ h !! X
       = Some (freeze (set_y_flipped (X + 2) (reorient NP 1 (object_assign (Some a) None s0))))
    /\ h !! (X + 1)
       = Some (freeze (set_x_flipped (X + 2) (reorient PN 2
                (object_assign None (Some a) (set_x_flipped X s0)))))
    /\ h !! (X + 2)
       = Some (freeze (reorient NN 3
                (object_assign None None (set_y_flipped (X + 1) (set_x_flipped X s0))))).
Proof.
  intros Hc Ho Ha.
  destruct (compile_ordinary _ _ _ _ _ _ _ Hc Ho)
    as (g & h1 & h2 & Eg & _ & _ & Hgrid & _ & _ & Hl2 & Hfix & _ & ->).
  rewrite Hgrid, cell_columns_nat in Ha.
  match type of Eg with make_grid ?t ?f ?xs ?n _ = _ =>
    pose proof (make_grid_spec t f xs n h0 L0) as Hg end.
  rewrite Eg in Hg.
  cbn [fst snd] in Hg. destruct Hg as [Hconcat Hl1].
  destruct (make_grid_cells _ _ _ _ _ _ _ _ _ Eg) as (_ & Hgl & Hall & _ & _ & Hcell).
  rewrite length_seq in *.
  destruct (g !! x) as [column|] eqn:Ex; [|discriminate Ha]. cbn in Ha.
  assert (Hx : x < Z.to_nat (cols js data)).
  { rewrite <- Hgl. eapply lookup_lt_Some. exact Ex. }
  assert (Hy : y < Z.to_nat (rows js data)).
  { rewrite Forall_forall in Hall.
    rewrite <- (Hall column) by (eapply list_elem_of_lookup_2; exact Ex).
    eapply lookup_lt_Some. exact Ha. }
  destruct (Hcell x x y (lookup_seq_lt _ _ _ Hx) Hy) as [Hax Hs1].
  rewrite Ex in Hax. cbn in Hax. rewrite Ha in Hax. injection Hax as ->.
  specialize (Hfix (length h0 + x * Z.to_nat (rows js data) + y)).
  rewrite Hs1 in Hfix. pose proof (lookup_lt_Some _ _ _ Hs1) as Hlt.
  destruct (create_flipped_at (length h2) (concat g) h2
              (length h0 + x * Z.to_nat (rows js data) + y))
    as (h3 & H3a & H3l & H3).
  { rewrite Hconcat. apply NoDup_seq. }
  { apply list_elem_of_In, in_concat. exists column.
    split; apply list_elem_of_In; eapply list_elem_of_lookup_2; eassumption. }
  { intros c Hc'. rewrite Hconcat in Hc'. apply elem_of_seq in Hc'. lia. }
  { lia. }
  destruct (h2 !! (length h0 + x * Z.to_nat (rows js data) + y)) as [s0|] eqn:E2;
    [|discriminate Hfix].
  apply (inj Some) in Hfix.
  destruct (mirror_at _ _ _ H3a) as (F1 & F2 & F3 & F4).
  split; [exact Hx|]. split; [exact Hy|].
  exists s0, (length h3).
  rewrite !H3 by lia. rewrite Hfix.
  repeat apply conj; [reflexivity|lia|assumption..].
Qed.


(** X2.  In a compiled sheet whose names are no array indices and not
    [length], the sprite of the cell [(x, y)] keeps the ID that the grid gave
    it: the first ID of the sheet plus three for each cell made before it,
    column by column.  Its tile is [(x, y)], or [(y, x)] in a transposed
    sheet. *)
Theorem sprite_ids_by_cell (js : json) (data : image_data) (h0 : list sprite)
    (L0 : Z) (sheet : spritesheet) (h : list sprite) (L : Z) (x y : nat)
    (a : address) :
  compile js data (h0, L0) = Normal (sheet, (h, L)) -> ordinary js = true ->
  cell (grid sheet) (Some (Z.of_nat x)) (Some (Z.of_nat y)) = Some a ->
  exists s,
    h !! a = Some s
    /\ id s = (L0 + 3 * (Z.of_nat x * rows js data + Z.of_nat y))%Z
    /\ _tileX s = (if transpose js then y else x)
    /\ _tileY s = (if transpose js then x else y).
Proof.
  intros Hc Ho Ha.
  destruct (compile_cell _ _ _ _ _ _ _ _ _ _ Hc Ho Ha)
    as (_ & Hy & s0 & X & Hf & _ & Hs & _).
  eexists. split; [exact Hs|].
  unfold fixed in Hf. injection Hf as H1 H2 H3 _ _ _ _.
  cbn [freeze set_y_flipped set_x_flipped id _tileX _tileY].
  rewrite H1, H2, H3. repeat split. f_equal. f_equal. lia.
Qed.



(** X5.  A sheet whose names are no array indices and not [length] takes
    three IDs and allocates four objects for each cell of its grid, whatever
    else its name table holds. *)
Theorem four_objects_and_three_ids_per_cell (js : json) (data : image_data)
    (h0 : list sprite) (L0 : Z) (sheet : spritesheet) (h : list sprite) (L : Z) :
  compile js data (h0, L0) = Normal (sheet, (h, L)) -> ordinary js = true ->
  let cells := Z.to_nat (cols js data) * Z.to_nat (rows js data) in
  L = (L0 + 3 * Z.of_nat cells)%Z
  /\ length h = length h0 + 4 * cells
  /\ forall b, b < length h0 -> h !! b = h0 !! b.
Proof.
  intros Hc Ho.
  destruct (compile_ordinary _ _ _ _ _ _ _ Hc Ho)
    as (g & h1 & h2 & Eg & _ & _ & _ & _ & _ & Hl2 & _ & Hfr & ->).
  match type of Eg with make_grid ?t ?f ?xs ?n _ = _ =>
    pose proof (make_grid_spec t f xs n h0 L0) as Hg end.
  rewrite Eg in Hg.
  cbn [fst snd] in Hg. destruct Hg as [Hconcat Hl1].
  destruct (make_grid_cells _ _ _ _ _ _ _ _ _ Eg) as (HL & _ & _ & _ & Hpre & _).
  rewrite length_seq in *. cbv zeta.
  split; [exact HL|]. split.
  - rewrite create_flipped_length.
    + rewrite Hconcat, length_seq. lia.
    + intros c Hc'. rewrite Hconcat in Hc'. apply elem_of_seq in Hc'. lia.
  - intros b Hb.
    assert (Hnot : b ∉ concat g).
    { rewrite Hconcat. intros Hin. apply elem_of_seq in Hin. lia. }
    rewrite create_flipped_frame; [|lia|exact Hnot].
    rewrite Hfr by exact Hnot. apply Hpre. exact Hb.
Qed.

(** X6.  In a compiled sheet whose names are no array indices and not
    [length], every entry of the name table is a property of the sheet, in
    the order of the table, and it names sprites of the grid: a named sprite
    is the sprite of a cell and so is every frame of an animation. *)
Theorem names_refer_to_the_grid (js : json) (data : image_data)
    (st : list sprite * Z) (sheet : spritesheet) (st' : list sprite * Z) :
  compile js data st = Normal (sheet, st') -> ordinary js = true ->
  (table sheet).*1 = (names js).*1
  /\ forall name e, (name, e) ∈ table sheet ->
       match e with
       | NamedSprite a =>
         exists x y : Z, cell (grid sheet) (Some x) (Some y) = Some a
       | NamedAnimation animation =>
         forall a, a ∈ Animation.elements animation ->
           exists x y : Z, cell (grid sheet) (Some x) (Some y) = Some a
       end.
Proof.
  intros Hc Ho. destruct st as [h0 L0], st' as [h L].
  destruct (compile_ordinary _ _ _ _ _ _ _ Hc Ho)
    as (g & h1 & h2 & _ & _ & _ & Hgrid & Hnames & Hall & _).
  split; [exact Hnames|].
  intros name e Hin. rewrite Forall_forall in Hall.
  specialize (Hall _ Hin). cbn in Hall. rewrite Hgrid.
  destruct e as [a|animation]; [exact (grid_in_cell _ _ Hall)|].
  intros a Ha. exact (grid_in_cell _ _ (Hall a Ha)).
Qed.


Lemma sprite_ids_by_cell_witness :
  exists sheet h L,
    compile Samples.spin (Samples.strip 3) ([], 7%Z) = Normal (sheet, (h, L))
    /\ ordinary Samples.spin = true
    /\ cell (grid sheet) (Some (Z.of_nat 1)) (Some (Z.of_nat 0)) = Some 1
    /\ exists s,
         h !! 1 = Some s
         /\ id s = (7 + 3 * (Z.of_nat 1 * rows Samples.spin (Samples.strip 3)
                             + Z.of_nat 0))%Z
         /\ _tileX s = 1 /\ _tileY s = 0.
Proof.
  eexists _, _, _. split; [vm_compute; reflexivity|].
  split; [reflexivity|]. split; [reflexivity|].
  eapply (sprite_ids_by_cell Samples.spin (Samples.strip 3) [] 7%Z _ _ _ 1 0 1).
  - vm_compute. reflexivity.
  - reflexivity.
  - reflexivity.
Defined.



Lemma sheet_allocation_witness :
  exists sheet h L,
    compile Samples.spin (Samples.strip 3) ([], 0%Z) = Normal (sheet, (h, L))
    /\ ordinary Samples.spin = true
    /\ L = 9%Z /\ length h = 12.
Proof.
  eexists _, _, _. split; [vm_compute; reflexivity|].
  split; [reflexivity|].
  pose proof (four_objects_and_three_ids_per_cell
                Samples.spin (Samples.strip 3) [] 0%Z) as H.
  edestruct H as (H1 & H2 & _); [vm_compute; reflexivity|reflexivity|].
  split; [exact H1|exact H2].
Defined.

Lemma names_refer_to_the_grid_witness :
  exists sheet st',
    compile Samples.glow (Samples.strip 1) ([], 0%Z) = Normal (sheet, st')
    /\ ordinary Samples.glow = true
    /\ (table sheet).*1 = (names Samples.glow).*1
    /\ forall name e, (name, e) ∈ table sheet ->
         match e with
         | NamedSprite a =>
           exists x y : Z, cell (grid sheet) (Some x) (Some y) = Some a
         | NamedAnimation animation =>
           forall a, a ∈ Animation.elements animation ->
             exists x y : Z, cell (grid sheet) (Some x) (Some y) = Some a
         end.
Proof.
  eexists _, _. split; [vm_compute; reflexivity|].
  split; [reflexivity|].
  eapply (names_refer_to_the_grid Samples.glow (Samples.strip 1) ([], 0%Z)).
  - vm_compute. reflexivity.
  - reflexivity.
Defined.

End SheetLayoutFacts.

(** ** Which sprite a frame counter selects *)

Module TimelineFacts.
Import JS Spritesheet Timeline NumberFacts SpritesheetFacts.
Local Open Scope Q_scope.

Lemma Qle_bool_true (a b : Q) : a <= b -> Qle_bool a b = true.
Proof. intros H. apply Qle_bool_iff. exact H. Qed.

Lemma Qle_bool_false (a b : Q) : b < a -> Qle_bool a b = false.
Proof.
  intros H. destruct (Qle_bool a b) eqn:E; [|reflexivity].
  apply Qle_bool_iff in E. lra.
Qed.

Lemma Qmod_bounds (a b : Q) : 0 < b -> 0 <= Qmod a b /\ Qmod a b < b.
Proof.
  intros Hb. unfold Qmod.
  pose proof (Qfloor_le (a / b)) as H1. pose proof (Qlt_floor (a / b)) as H2.
  rewrite inject_Z_plus in H2. change (inject_Z 1) with 1 in H2.
  assert (E : a == b * (a / b)) by (field; lra).
  revert H1 H2 E. generalize (a / b) (inject_Z (Qfloor (a / b))). intros q k H1 H2 E.
  split; nra.
Qed.

(** The durations and the counter are multiples of [2 ^ -k] and the
    counter is below [2 ^ (53 - k)]: the subtractions of the scan are exact. *)
Lemma search_forward_interval (k : Z) (h : list sprite) (rest : list address)
    (ds : list Q) (i : nat) (t : Q) :
  (0 <= k <= 1074)%Z -> Forall (dyadic k) ds -> dyadic k t -> t * 2 ^ k < 2 ^ 53 ->
  lasts h rest ds -> 0 <= t -> t < Qsum ds ->
  exists n, search_forward h rest i (Fin t) = Normal (i + n)%nat
    /\ (n < length ds)%nat
    /\ Qsum (take n ds) <= t /\ t < Qsum (take (S n) ds).
Proof.
  intros Hk Hds Ht Hb Hl. pose proof (pow2_pos k) as Hkpos.
  revert Hds i t Ht Hb.
  induction Hl as [|a d rest ds [Ha Hd] Hl IH]; intros Hds i t Ht Hb H0 Hlt.
  - cbn in Hlt. lra.
  - apply Forall_cons in Hds as [Hdd Hds].
    cbn [search_forward]. rewrite Ha. cbn [ge Qsum] in *.
    destruct (Qle_bool d t) eqn:E.
    + apply Qle_bool_iff in E.
      assert (Hsub : sub (Fin t) (Fin d) = Fin (Qred (t - d))).
      { apply sub_exact; apply (dyadic_representable k); try assumption.
        - rewrite Qabs_pos by lra.
          assert (d * 2 ^ k <= t * 2 ^ k) by (apply Qmult_le_compat_r; lra). lra.
        - apply dyadic_minus; assumption.
        - rewrite Qabs_pos by lra.
          assert ((t - d) * 2 ^ k <= t * 2 ^ k) by (apply Qmult_le_compat_r; lra). lra. }
      rewrite Hsub. pose proof (Qred_correct (t - d)) as E1.
      destruct (IH Hds (S i) (Qred (t - d))) as (n & Hn & Hlen & H1 & H2).
      * apply (dyadic_comp k (t - d)); [symmetry; exact E1|].
        apply dyadic_minus; assumption.
      * assert (Qred (t - d) * 2 ^ k <= t * 2 ^ k) by (apply Qmult_le_compat_r; lra).
        lra.
      * lra.
      * lra.
      * exists (S n). rewrite Hn. split; [f_equal; lia|].
        split; [cbn [length]; lia|].
        cbn [take Qsum] in *. lra.
    + exists 0%nat. rewrite Nat.add_0_r. split; [reflexivity|].
      split; [cbn [length]; lia|]. rewrite take_0. cbn [take Qsum]. rewrite take_0. cbn [Qsum].
      assert (t < d).
      { destruct (Qlt_le_dec t d) as [|Hle]; [assumption|].
        apply Qle_bool_iff in Hle. congruence. }
      split; lra.
Qed.

(** The scan from the first sprite, when the animation does not oscillate. *)
Lemma find_frame_interval (k : Z) (h : list sprite) (animation : Animation.t)
    (ds : list Q) (t : Q) :
  (0 <= k <= 1074)%Z -> Forall (dyadic k) ds -> dyadic k t -> t * 2 ^ k < 2 ^ 53 ->
  Animation.extrapolate animation <> u "oscillate" ->
  lasts h (Animation.elements animation) ds -> 0 <= t -> t < Qsum ds ->
  exists n a, find_frame h animation (Fin t) = Normal (Some a)
    /\ Animation.elements animation !! n = Some a
    /\ Qsum (take n ds) <= t /\ t < Qsum (take (S n) ds).
Proof.
  intros Hk Hds Hdt Hb Ho Hl H0 Ht. unfold find_frame.
  rewrite bool_decide_eq_false_2 by exact Ho.
  destruct (search_forward_interval k h _ ds 0 t Hk Hds Hdt Hb Hl H0 Ht)
    as (n & -> & Hn & H1 & H2).
  pose proof (Forall2_length _ _ _ Hl) as Hlen.
  cbn [mbind completion_bind Nat.add].
  destruct (lookup_lt_is_Some_2 (Animation.elements animation) n ltac:(lia)) as [a Ha].
  exists n, a.
  replace (Z.min (Z.of_nat n) _) with (Z.of_nat n) by lia.
  rewrite at_index_nat, Ha. repeat split; assumption.
Qed.

(** X7.  A clamped animation sampled inside its length, with durations
    that are multiples of [2 ^ -k] and a length below [2 ^ (53 - k)], so
    that the subtractions of the scan are exact: the sprite returned is the
    one during whose time the frame [floor(f)] falls. *)
Theorem clamp_sampling_interval (k : Z) (h : list sprite) (animation : Animation.t)
    (ds : list Q) (total f : Q) :
  (0 <= k <= 1074)%Z -> Forall (dyadic k) ds -> total * 2 ^ k <= 2 ^ 53 ->
  Animation.extrapolate animation = u "clamp" ->
  lasts h (Animation.elements animation) ds ->
  Animation.frames animation = Fin total -> total == Qsum ds ->
  0 <= f -> inject_Z (Qfloor f) < total ->
  exists n a, animationFrame h animation (Fin f) = Normal (Some a)
    /\ Animation.elements animation !! n = Some a
    /\ Qsum (take n ds) <= inject_Z (Qfloor f)
    /\ inject_Z (Qfloor f) < Qsum (take (S n) ds).
Proof.
  intros Hk Hds Hbound He Hl Hfr Ht H0 Hlt. unfold animationFrame.
  rewrite He, Hfr. rewrite bool_decide_eq_true_2 by reflexivity.
  assert (Hf0 : 0 <= inject_Z (Qfloor f)).
  { change 0 with (inject_Z 0). rewrite <- Zle_Qle.
    apply Qfloor_resp_le in H0. exact H0. }
  unfold floor, of_Z, lt, ge.
  rewrite Qle_bool_true by exact Hf0. cbn [negb].
  rewrite Qle_bool_false by exact Hlt.
  pose proof (pow2_pos k) as Hkpos.
  apply (find_frame_interval k); try assumption.
  - apply dyadic_Z. lia.
  - assert (inject_Z (Qfloor f) * 2 ^ k < total * 2 ^ k)
      by (apply Qmult_lt_compat_r; assumption).
    lra.
  - rewrite He. discriminate.
  - lra.
Qed.

(** X8.  A looping animation with durations that are multiples of
    [2 ^ -k] and a period of at most [2 ^ (52 - k)], so that the sum with
    the period and the subtractions of the scan are exact: the sprite
    returned for any frame counter is the one during whose time the frame
    [floor(f)], reduced by the period, falls. *)
Theorem loop_sampling_interval (k : Z) (h : list sprite) (animation : Animation.t)
    (ds : list Q) (period f : Q) :
  (0 <= k <= 1074)%Z -> Forall (dyadic k) ds -> dyadic k period ->
  period * 2 ^ (k + 1) <= 2 ^ 53 ->
  Animation.extrapolate animation = u "loop" ->
  lasts h (Animation.elements animation) ds ->
  Animation.period animation = Fin period -> period == Qsum ds ->
  0 < period ->
  let t := Qmod (inject_Z (Qfloor f)) period in
  exists n a, animationFrame h animation (Fin f) = Normal (Some a)
    /\ Animation.elements animation !! n = Some a
    /\ Qsum (take n ds) <= t /\ t < Qsum (take (S n) ds).
Proof.
  intros Hk Hds Hdp Hbound He Hl Hp Ht Hpos t. unfold animationFrame.
  rewrite He, Hp. rewrite bool_decide_eq_false_2 by discriminate.
  unfold floor, of_Z.
  rewrite (wrap_fin k) by (try assumption; apply dyadic_Z; lia).
  fold t. pose proof (Qmod_bounds (inject_Z (Qfloor f)) period Hpos) as [B1 B2].
  fold t in B1, B2.
  pose proof (Qred_correct t) as Er. pose proof (pow2_pos k) as Hkpos.
  assert (Hdt : dyadic k (Qred t)).
  { apply (dyadic_comp k t); [symmetry; exact Er|]. unfold t, Qmod.
    apply dyadic_minus; [apply dyadic_Z; lia|apply dyadic_times_Z, Hdp]. }
  destruct (find_frame_interval k h animation ds (Qred t)) as (n & a & H1 & H2 & H3 & H4);
    try assumption.
  - rewrite pow2_succ in Hbound.
    assert (Qred t * 2 ^ k < period * 2 ^ k) by (apply Qmult_lt_compat_r; lra).
    nra.
  - rewrite He. discriminate.
  - lra.
  - lra.
  - exists n, a. rewrite H1. repeat split; [exact H2|lra|lra].
Qed.

Lemma clamp_sampling_interval_witness :
  exists sheet h animation,
    Samples.compiled SheetSamples.fade 2 = Some (sheet, h)
    /\ animation_named (u "fade") sheet = Some animation
    /\ exists n a,
         animationFrame h animation (Fin (5 # 2)) = Normal (Some a)
         /\ Animation.elements animation !! n = Some a
         /\ Qsum (take n [2; 3]) <= inject_Z (Qfloor (5 # 2))
         /\ inject_Z (Qfloor (5 # 2)) < Qsum (take (S n) [2; 3]).
Proof.
  eexists _, _, _. split; [vm_compute; reflexivity|].
  split; [vm_compute; reflexivity|].
  match goal with |- exists n a, animationFrame ?h ?an _ = _ /\ _ =>
    apply (clamp_sampling_interval 0 h an [2; 3] 5 (5 # 2)) end.
  - lia.
  - repeat constructor; [exists 2%Z|exists 3%Z]; reflexivity.
  - vm_compute. discriminate.
  - reflexivity.
  - repeat constructor.
  - reflexivity.
  - reflexivity.
  - discriminate.
  - reflexivity.
Defined.

Lemma loop_sampling_interval_witness :
  exists sheet h animation,
    Samples.compiled Samples.blink 2 = Some (sheet, h)
    /\ animation_named (u "blink") sheet = Some animation
    /\ exists n a,
         animationFrame h animation (Fin (7 # 2)) = Normal (Some a)
         /\ Animation.elements animation !! n = Some a
         /\ Qsum (take n [1 # 4; 1 # 2]) <= Qmod (inject_Z (Qfloor (7 # 2))) (3 # 4)
         /\ Qmod (inject_Z (Qfloor (7 # 2))) (3 # 4) < Qsum (take (S n) [1 # 4; 1 # 2]).
Proof.
  eexists _, _, _. split; [vm_compute; reflexivity|].
  split; [vm_compute; reflexivity|].
  match goal with |- exists n a, animationFrame ?h ?an _ = _ /\ _ =>
    apply (loop_sampling_interval 2 h an [1 # 4; 1 # 2] (3 # 4) (7 # 2)) end.
  - lia.
  - repeat constructor; [exists 1%Z|exists 2%Z]; reflexivity.
  - exists 3%Z. reflexivity.
  - vm_compute. discriminate.
  - reflexivity.
  - repeat constructor.
  - reflexivity.
  - reflexivity.
  - reflexivity.
Defined.

End TimelineFacts.

(** ** Colors in hexadecimal *)

Module ColorFacts.
Import JS Color.

#[local] Instance Q_eq_dec : EqDecision Q.
Proof. solve_decision. Defined.

#[local] Instance number_eq_dec : EqDecision number.
Proof. solve_decision. Defined.

Lemma below_enumerated (P : N -> bool) (n : nat) :
  forallb P (List.map N.of_nat (seq 0 n)) = true ->
  forall c, (c < N.of_nat n)%N -> P c = true.
Proof.
  intros H c Hc. rewrite forallb_forall in H. apply H.
  apply in_map_iff. exists (N.to_nat c). split; [apply N2Nat.id|].
  apply in_seq. lia.
Qed.

Lemma is_hex_digit_bound (c : N) : is_hex_digit c = true -> (c < N.of_nat 103)%N.
Proof.
  unfold is_hex_digit. rewrite !orb_true_iff, !andb_true_iff, !N.leb_le. lia.
Qed.

Lemma one_digit_twice (c : N) :
  is_hex_digit c = true -> parseHex [c; c] = parseHex [c].
Proof.
  intros H.
  set (P := fun c => implb (is_hex_digit c) (bool_decide (parseHex [c; c] = parseHex [c]))).
  assert (E : P c = true).
  { apply (below_enumerated P 103); [vm_compute; reflexivity|].
    apply is_hex_digit_bound. exact H. }
  unfold P in E. rewrite H in E. apply bool_decide_eq_true_1 in E. exact E.
Qed.

Lemma one_digit_in_unit (c : N) :
  is_hex_digit c = true -> in_unit (parseHex [c]) = true.
Proof.
  intros H.
  set (P := fun c => implb (is_hex_digit c) (in_unit (parseHex [c]))).
  assert (E : P c = true).
  { apply (below_enumerated P 103); [vm_compute; reflexivity|].
    apply is_hex_digit_bound. exact H. }
  unfold P in E. rewrite H in E. exact E.
Qed.

Lemma two_digits_in_unit (c d : N) :
  is_hex_digit c = true -> is_hex_digit d = true ->
  in_unit (parseHex [c; d]) = true.
Proof.
  intros Hc Hd.
  set (P := fun c => implb (is_hex_digit c)
    (forallb (fun d => implb (is_hex_digit d) (in_unit (parseHex [c; d])))
       (List.map N.of_nat (seq 0 103)))).
  assert (E : P c = true).
  { apply (below_enumerated P 103); [vm_compute; reflexivity|].
    apply is_hex_digit_bound. exact Hc. }
  unfold P in E. rewrite Hc in E. cbn [implb] in E.
  pose proof (below_enumerated _ 103 E d (is_hex_digit_bound d Hd)) as E'.
  cbv beta in E'. rewrite Hd in E'. exact E'.
Qed.

(** X9.  The short forms are the long forms with every digit doubled:
    [#RGB] is the color [#RRGGBB] and [#RGBA] is [#RRGGBBAA]. *)
Theorem short_form_doubles_the_digits (r g b a : N) :
  is_hex_digit r = true -> is_hex_digit g = true ->
  is_hex_digit b = true -> is_hex_digit a = true ->
  parseHexColor [r; g; b] = parseHexColor [r; r; g; g; b; b]
  /\ parseHexColor [r; g; b; a] = parseHexColor [r; r; g; g; b; b; a; a].
Proof.
  intros Hr Hg Hb Ha. unfold parseHexColor. cbn [length substring drop take Nat.sub].
  rewrite !one_digit_twice by assumption. split; reflexivity.
Qed.

Lemma short_form_doubles_the_digits_witness :
  parseHexColor (u "f80") = parseHexColor (u "ff8800")
  /\ parseHexColor (u "f80c") = parseHexColor (u "ff8800cc").
Proof.
  apply (short_form_doubles_the_digits (chr "f") (chr "8") (chr "0") (chr "c"));
    reflexivity.
Defined.

(** X10.  Every channel of a color written with hexadecimal digits is a
    number from 0 to 1. *)
Theorem channels_in_unit (str : jsstring) (c : rgba) :
  forallb is_hex_digit str = true ->
  parseHexColor str = Normal c ->
  in_unit (Color.r c) = true /\ in_unit (Color.g c) = true
  /\ in_unit (Color.b c) = true /\ in_unit (Color.a c) = true.
Proof.
  intros Hd H. unfold parseHexColor in H.
  do 9 (destruct str as [|? str];
    [cbn [length substring drop take Nat.sub] in H;
     first
       [ discriminate H
       | injection H as <-; cbn [Color.r Color.g Color.b Color.a];
         cbn [forallb] in Hd; rewrite ?andb_true_iff in Hd;
         repeat split;
         first [reflexivity
               | apply one_digit_in_unit; tauto
               | apply two_digits_in_unit; tauto] ]|]).
  discriminate H.
Qed.

Lemma channels_in_unit_witness :
  exists c,
    parseHexColor (u "1a2B3c80") = Normal c
    /\ in_unit (Color.r c) = true /\ in_unit (Color.g c) = true
    /\ in_unit (Color.b c) = true /\ in_unit (Color.a c) = true.
Proof.
  eexists. split; [reflexivity|].
  apply (channels_in_unit (u "1a2B3c80")); reflexivity.
Defined.

(** X12.  A character that is no hexadecimal digit is not an error: the
    channel it stands for is NaN. *)
Theorem non_digit_channel_is_NaN (c g b : N) :
  is_hex_digit c = false ->
  parseHexColor [c; g; b]
  = Normal {| Color.r := NaN; Color.g := parseHex [g]; Color.b := parseHex [b];
              Color.a := Fin 1 |}.
Proof.
  intros H. unfold parseHexColor. cbn [length substring drop take Nat.sub].
  do 2 f_equal. unfold parseHex. cbn [length Nat.eqb strip_zeros].
  destruct (N.eqb_spec c (chr "0")) as [->|_]; [discriminate H|].
  unfold parseInt16. cbn [trim_start].
  destruct (is_white_space c); [reflexivity|].
  destruct (c =? chr "-")%N; [reflexivity|].
  destruct (c =? chr "+")%N; [reflexivity|].
  cbn [hex_digits]. rewrite H. reflexivity.
Qed.

Lemma non_digit_channel_is_NaN_witness :
  parseHexColor (u "x00")
  = Normal {| Color.r := NaN; Color.g := parseHex (u "0"); Color.b := parseHex (u "0");
              Color.a := Fin 1 |}.
Proof.
  apply (non_digit_channel_is_NaN (chr "x") (chr "0") (chr "0")). reflexivity.
Defined.

End ColorFacts.

(** ** Tables *)

Module TableFacts.
Import JS Parser Table ParserFacts.

Lemma transposeGrid_cell (src : grid) (row0 : list (option value)) (i j : nat) :
  src !! 0 = Some row0 -> i < length row0 -> j < length src ->
  exists dst, transposeGrid src = Normal dst
    /\ dst !! i ≫= (fun column => column !! j) = Some (Some (read src j i)).
Proof.
  intros H0 Hi Hj. destruct src as [|r src]; [discriminate H0|].
  injection H0 as ->. eexists. split; [reflexivity|].
  rewrite list_lookup_fmap, lookup_seq_lt by exact Hi. cbn [fmap option_fmap option_map mbind option_bind].
  rewrite list_lookup_fmap, lookup_seq_lt by exact Hj. reflexivity.
Qed.

Lemma transposeGrid_shape (src : grid) (row0 : list (option value)) :
  src !! 0 = Some row0 ->
  exists dst, transposeGrid src = Normal dst
    /\ length dst = length row0 /\ dense (length src) dst.
Proof.
  intros H0. destruct src as [|r src]; [discriminate H0|].
  injection H0 as ->. eexists. split; [reflexivity|].
  split; [rewrite length_map, length_seq; reflexivity|].
  unfold dense. rewrite Forall_forall. intros row Hrow.
  apply list_elem_of_In, in_map_iff in Hrow as (i & <- & _).
  split; [rewrite length_map, length_seq; reflexivity|].
  rewrite Forall_forall. intros c Hc.
  apply list_elem_of_In, in_map_iff in Hc as (j & <- & _). eexists. reflexivity.
Qed.

Lemma transposeGrid_rows (src : grid) (row0 : list (option value)) :
  src !! 0 = Some row0 ->
  transposeGrid src
  = Normal (List.map (fun i => List.map (fun j => Some (read src j i))
                                        (seq 0 (length src)))
                     (seq 0 (length row0))).
Proof. destruct src; [discriminate|]. intros [= ->]. reflexivity. Qed.

(** X13.  Transposing twice gives the grid back, for a grid with at least one row
    and one column and no missing element. *)
Theorem transposeGrid_involutive (n : nat) (src dst : grid) :
  src <> [] -> 0 < n -> dense n src ->
  transposeGrid src = Normal dst ->
  transposeGrid dst = Normal src.
Proof.
  intros Hne Hn Hd H.
  destruct src as [|r src'] eqn:Es; [contradiction|]. rewrite <- Es in *.
  assert (H0 : src !! 0 = Some r) by (rewrite Es; reflexivity).
  unfold dense in Hd. rewrite Forall_forall in Hd.
  assert (Hr : length r = n) by (apply (Hd r); rewrite Es; left).
  rewrite (transposeGrid_rows src r H0) in H. injection H as <-. rewrite Hr.
  set (F := fun i => List.map (fun j => Some (read src j i)) (seq 0 (length src))).
  rewrite (transposeGrid_rows _ (F 0)).
  2:{ rewrite list_lookup_fmap, lookup_seq_lt by exact Hn. reflexivity. }
  assert (HF : length (F 0) = length src).
  { unfold F. rewrite length_map, length_seq. reflexivity. }
  f_equal. rewrite HF, length_map, length_seq.
  apply list_eq. intros j. rewrite list_lookup_fmap.
  destruct (decide (j < length src)) as [Hj|Hj].
  - rewrite lookup_seq_lt by exact Hj. cbn [fmap option_fmap option_map].
    destruct (lookup_lt_is_Some_2 src j Hj) as [row Hrow].
    rewrite Hrow. f_equal.
    destruct (Hd row (list_elem_of_lookup_2 _ _ _ Hrow)) as [Hlen Hsome].
    apply list_eq. intros i. rewrite list_lookup_fmap.
    destruct (decide (i < n)) as [Hi|Hi].
    + rewrite lookup_seq_lt by exact Hi. cbn [fmap option_fmap option_map].
      unfold read at 1.
      rewrite list_lookup_fmap, lookup_seq_lt by exact Hi.
      cbn [fmap option_fmap option_map]. unfold F.
      rewrite list_lookup_fmap, lookup_seq_lt by exact Hj.
      cbn [fmap option_fmap option_map].
      cbn [Nat.add]. unfold read. rewrite Hrow.
      destruct (lookup_lt_is_Some_2 row i ltac:(lia)) as [c Hc]. rewrite Hc.
      rewrite Forall_forall in Hsome.
      destruct (Hsome c (list_elem_of_lookup_2 _ _ _ Hc)) as [v ->]. reflexivity.
    + rewrite lookup_seq_ge by lia. symmetry. apply lookup_ge_None_2. lia.
  - rewrite lookup_seq_ge by lia. symmetry. apply lookup_ge_None_2. lia.
Qed.

Lemma transposeGrid_involutive_witness :
  transposeGrid [[Some (VBoolean true); Some VUndefined];
                 [Some (VNumber (Fin 1)); Some (VNumber (Fin 2))]]
  = Normal [[Some (VBoolean true); Some (VNumber (Fin 1))];
            [Some VUndefined; Some (VNumber (Fin 2))]]
  /\ transposeGrid [[Some (VBoolean true); Some (VNumber (Fin 1))];
                    [Some VUndefined; Some (VNumber (Fin 2))]]
     = Normal [[Some (VBoolean true); Some VUndefined];
               [Some (VNumber (Fin 1)); Some (VNumber (Fin 2))]].
Proof.
  split; [reflexivity|].
  apply (transposeGrid_involutive 2
           [[Some (VBoolean true); Some VUndefined];
            [Some (VNumber (Fin 1)); Some (VNumber (Fin 2))]]).
  - discriminate.
  - lia.
  - repeat constructor; eexists; reflexivity.
  - reflexivity.
Defined.

Lemma match_all_nonempty (fuel : nat) (strData : jsstring) (lastIndex : nat)
    (data result : list (list (option jsstring))) :
  match_all fuel strData lastIndex data = Some result -> data <> [] -> result <> [].
Proof.
  revert lastIndex data. induction fuel as [|fuel IH]; intros i data H Hne; [discriminate H|].
  cbn [match_all] in H.
  destruct (exec i (drop i strData)) as [[[sep cell] j]|]; [|congruence].
  apply IH in H; [exact H|].
  unfold push_last. intros E. apply (f_equal length) in E.
  rewrite length_alter in E. destruct sep; try rewrite length_app in E;
    destruct data; cbn in E; try lia; contradiction.
Qed.

(** X14.  The grid of a parsed text always has a row, so transposing it does not
    fail; the result has one row for each column of the text, each as long
    as the text has rows, and no element is missing from it: where the text
    had no cell, the transposed grid holds [undefined]. *)
Theorem parsed_table_transposes (fuel : nat) (strData : jsstring) (trim : bool)
    (g : grid) :
  parseCSV fuel strData trim = Some g ->
  exists dst width,
    (forall row, row ∈ g -> length row = width)
    /\ transposeGrid g = Normal dst
    /\ length dst = width /\ dense (length g) dst.
Proof.
  intros H. pose proof H as H'. unfold parseCSV in H'.
  destruct (match_all fuel strData 0 [[]]) as [data|] eqn:Ed; [|discriminate H'].
  cbn in H'. injection H' as Hg.
  pose proof (match_all_nonempty _ _ _ _ _ Ed ltac:(discriminate)) as Hne.
  destruct (short_rows_padded_with_holes _ _ trim _ Ed) as (g' & Hp & Hrows & _).
  rewrite H in Hp. injection Hp as <-.
  destruct g as [|row0 g0] eqn:Eg.
  { destruct data; [contradiction|discriminate Hg]. }
  rewrite <- Eg in *.
  destruct (transposeGrid_shape g row0) as (dst & Ht & Hl & Hdense);
    [rewrite Eg; reflexivity|].
  exists dst, (length row0). repeat split; try assumption.
  intros row Hrow. rewrite (Hrows row Hrow).
  symmetry. apply Hrows. rewrite Eg. left.
Qed.

Lemma parsed_table_transposes_witness :
  exists g dst width,
    parseCSV 4 (u "a,b" ++ [0x0A%N] ++ u "c") true = Some g
    /\ (forall row, row ∈ g -> length row = width)
    /\ transposeGrid g = Normal dst
    /\ length dst = width /\ dense (length g) dst.
Proof.
  eexists.
  destruct (parsed_table_transposes 4 (u "a,b" ++ [0x0A%N] ++ u "c") true _ eq_refl)
    as (dst & width & H).
  exists dst, width. split; [reflexivity|exact H].
Defined.

(** X15.  The cells of a table in the default orientation: [table[x][y]] is the
    cell of line [y] and column [x] of the text, counted after the line and
    the column that the definition asks to ignore; it is [undefined] where
    the line is shorter. *)
Theorem cells_column_major (fuel : nat) (d : definition) (csv : jsstring)
    (g : grid) (row0 : list (option value)) (x y : nat) :
  transpose d = false ->
  parseCSV fuel csv (trim d) = Some g ->
  g !! 0 = Some row0 ->
  let skip (b : bool) := if b then 1 else 0 in
  x + skip (ignore_first_column d) < length row0 ->
  y + skip (ignore_first_row d) < length g ->
  exists table,
    cells fuel d csv = Some (Normal table)
    /\ table !! x ≫= (fun column => column !! y)
       = Some (Some (read g (y + skip (ignore_first_row d))
                            (x + skip (ignore_first_column d)))).
Proof.
  intros Ht Hp H0 skip Hx Hy. unfold cells. rewrite Hp, Ht. cbn [mbind option_bind].
  rewrite (transposeGrid_rows g row0 H0). cbn [mbind completion_bind].
  rewrite !andb_false_r, !orb_false_r.
  eexists. split; [reflexivity|].
  destruct (ignore_first_row d), (ignore_first_column d); cbn [skip] in *.
  - rewrite lookup_drop, list_lookup_fmap, list_lookup_fmap, lookup_seq_lt by lia.
    cbn [fmap option_fmap option_map mbind option_bind].
    rewrite lookup_drop, list_lookup_fmap, lookup_seq_lt by lia.
    cbn. do 3 f_equal; lia.
  - rewrite list_lookup_fmap, list_lookup_fmap, lookup_seq_lt by lia.
    cbn [fmap option_fmap option_map mbind option_bind].
    rewrite lookup_drop, list_lookup_fmap, lookup_seq_lt by lia.
    cbn. do 3 f_equal; lia.
  - rewrite lookup_drop, list_lookup_fmap, lookup_seq_lt by lia.
    cbn [fmap option_fmap option_map mbind option_bind].
    rewrite list_lookup_fmap, lookup_seq_lt by lia.
    cbn. do 3 f_equal; lia.
  - rewrite list_lookup_fmap, lookup_seq_lt by lia.
    cbn [fmap option_fmap option_map mbind option_bind].
    rewrite list_lookup_fmap, lookup_seq_lt by lia.
    cbn. do 3 f_equal; lia.
Qed.

(** X16.  With [transpose] set, [ignore_first_row] and [ignore_first_column] do
    the same: either of them removes both the first line and the first
    column of the text. *)
Theorem transposed_table_drops_line_and_column (fuel : nat) (d : definition)
    (csv : jsstring) (g : grid) :
  transpose d = true ->
  ignore_first_row d || ignore_first_column d = true ->
  parseCSV fuel csv (trim d) = Some g ->
  exists table,
    cells fuel d csv = Some (Normal table)
    /\ length table = length g - 1
    /\ forall r c, table !! r ≫= (fun row => row !! c)
                   = g !! (r + 1) ≫= (fun row => row !! (c + 1)).
Proof.
  intros Ht Hi Hp. unfold cells. rewrite Hp, Ht. cbn [mbind option_bind completion_bind].
  rewrite !andb_true_r. rewrite (orb_comm (ignore_first_column d)), Hi.
  eexists. split; [reflexivity|]. split.
  - rewrite length_drop, length_map. reflexivity.
  - intros r c. rewrite lookup_drop, list_lookup_fmap.
    replace (1 + r) with (r + 1) by lia.
    destruct (g !! (r + 1)) as [row|]; [|reflexivity].
    cbn. rewrite lookup_drop. f_equal. lia.
Qed.

Lemma cells_column_major_witness :
  exists table,
    cells 5 TableSamples.with_header TableSamples.scores = Some (Normal table)
    /\ table !! 1 ≫= (fun column => column !! 0) = Some (Some (VNumber (Fin 7))).
Proof.
  let r := eval vm_compute in (parseCSV 5 TableSamples.scores true) in
  match r with
  | Some (?row0 :: ?rest) =>
    destruct (cells_column_major 5 TableSamples.with_header TableSamples.scores
                (row0 :: rest) row0 1 0) as (table & H1 & H2)
  end.
  - reflexivity.
  - vm_compute. reflexivity.
  - reflexivity.
  - cbn. lia.
  - cbn. lia.
  - exists table. split; [exact H1|]. rewrite H2. reflexivity.
Defined.

Lemma transposed_table_drops_line_and_column_witness :
  exists table,
    cells 5 TableSamples.by_line TableSamples.scores = Some (Normal table)
    /\ length table = 1
    /\ table !! 0 ≫= (fun row => row !! 0) = Some (Some (VNumber (Fin 7))).
Proof.
  let r := eval vm_compute in (parseCSV 5 TableSamples.scores true) in
  match r with
  | Some ?g =>
    destruct (transposed_table_drops_line_and_column 5 TableSamples.by_line
                TableSamples.scores g) as (table & H1 & H2 & H3)
  end.
  - reflexivity.
  - reflexivity.
  - vm_compute. reflexivity.
  - exists table. split; [exact H1|]. split; [exact H2|]. rewrite H3. reflexivity.
Defined.

End TableFacts.

(** ** Pixels *)

Module PixelsFacts.
Import JS Pixels.
Local Open Scope Z_scope.

Lemma to_int32_bits (x n : Z) :
  0 <= n < 32 -> Z.testbit (to_int32 x) n = Z.testbit x n.
Proof.
  intros Hn. unfold to_int32.
  assert (E : ((x + 2 ^ 31) mod 2 ^ 32 - 2 ^ 31) mod 2 ^ 32 = x mod 2 ^ 32).
  { rewrite Zminus_mod_idemp_l. f_equal. lia. }
  rewrite <- (Z.mod_pow2_bits_low _ 32 n) by lia.
  rewrite E. apply Z.mod_pow2_bits_low. lia.
Qed.

(** Bit [n] of the quantized pixel. *)
Lemma quantize_bits (pixel n : Z) :
  0 <= n ->
  Z.testbit (quantize pixel) n
  = if n <? 16 then Z.testbit pixel (8 * (n / 4) + 4 + n mod 4) else false.
Proof.
  intros Hn. unfold quantize, to_uint16.
  destruct (Z.ltb_spec n 16) as [Hlt|Hge].
  - rewrite Z.mod_pow2_bits_low by lia.
    rewrite !Z.lor_spec, !Z.shiftr_spec, !Z.land_spec, !Z.shiftr_spec by lia.
    assert (Hcases : In n (List.map Z.of_nat (seq 0 16))).
    { apply in_map_iff. exists (Z.to_nat n). split; [lia|apply in_seq; lia]. }
    cbn [seq List.map In Z.of_nat Pos.of_succ_nat Pos.succ] in Hcases.
    repeat (destruct Hcases as [<-|Hcases]); try contradiction;
      cbn [Z.add Z.mul Z.div Z.modulo Pos.add Pos.succ Pos.mul];
      rewrite ?to_int32_bits by lia;
      repeat match goal with
             | |- context [Z.testbit (Zpos ?p) ?k] =>
               let b := eval vm_compute in (Z.testbit (Zpos p) k) in
               change (Z.testbit (Zpos p) k) with b
             end;
      rewrite ?andb_true_r, ?andb_false_r, ?orb_false_r, ?orb_false_l;
      reflexivity.
  - rewrite Z.mod_pow2_bits_high by lia. reflexivity.
Qed.

Lemma quantize_range (pixel : Z) : 0 <= quantize pixel < 2 ^ 16.
Proof. unfold quantize, to_uint16. apply Z.mod_pos_bound. lia. Qed.

Lemma testbit_15 (i : Z) : 0 <= i -> Z.testbit 0xf i = (i <? 4).
Proof.
  intros Hi. change 0xf with (Z.ones 4).
  destruct (Z.ltb_spec i 4).
  - apply Z.ones_spec_low. lia.
  - apply Z.ones_spec_high. lia.
Qed.

(** X17.  Quantization keeps the high half of each
    channel: the 4-bit channel [c] of the result (0 for red to 3 for alpha)
    is the high half of the 8-bit channel [c] of the pixel [0xAABBGGRR];
    the result fits 16 bits; and the alpha that the scan of a sprite reads
    from it is the high half of the alpha of the pixel. *)
Theorem quantize_keeps_high_nibbles (pixel c : Z) :
  0 <= c < 4 ->
  (quantize pixel / 2 ^ (4 * c)) mod 16 = (pixel / 2 ^ (8 * c + 4)) mod 16
  /\ 0 <= quantize pixel < 2 ^ 16
  /\ alpha15 (quantize pixel) = (pixel / 2 ^ 28) mod 16.
Proof.
  intros Hc.
  assert (Hnib : forall k, k = 0 \/ k = 1 \/ k = 2 \/ k = 3 ->
            (quantize pixel / 2 ^ (4 * k)) mod 16 = (pixel / 2 ^ (8 * k + 4)) mod 16).
  { intros k Hk.
    change 16 with (2 ^ 4).
    rewrite <- !Z.shiftr_div_pow2, <- !Z.land_ones by lia.
    apply Z.bits_inj'. intros i Hi.
    rewrite !Z.land_spec, !Z.shiftr_spec, quantize_bits by lia.
    change (Z.ones 4) with 0xf. rewrite testbit_15 by lia.
    destruct (Z.ltb_spec i 4); [|rewrite !andb_false_r; reflexivity].
    rewrite !andb_true_r.
    assert (Hi' : i = 0 \/ i = 1 \/ i = 2 \/ i = 3) by lia.
    destruct Hk as [->|[->|[->| ->]]];
      destruct Hi' as [->|[->|[->| ->]]]; reflexivity. }
  split; [apply Hnib; lia|]. split; [apply quantize_range|].
  unfold alpha15, to_uint32.
  pose proof (quantize_range pixel) as Hr.
  rewrite (Z.mod_small (quantize pixel)) by lia.
  change 0xf with (Z.ones 4). rewrite Z.land_ones, Z.shiftr_div_pow2 by lia.
  exact (Hnib 3 ltac:(lia)).
Qed.

Lemma quantize_keeps_high_nibbles_witness :
  (quantize 0x80FF4010 / 2 ^ (4 * 3)) mod 16 = (0x80FF4010 / 2 ^ (8 * 3 + 4)) mod 16
  /\ 0 <= quantize 0x80FF4010 < 2 ^ 16
  /\ alpha15 (quantize 0x80FF4010) = (0x80FF4010 / 2 ^ 28) mod 16.
Proof. apply (quantize_keeps_high_nibbles 0x80FF4010 3). lia. Defined.

Local Close Scope Z_scope.

Lemma foldl_pointwise {A B} (f g : A -> B -> A) (bs : list B) (a : A) :
  (forall a b, f a b = g a b) -> foldl f a bs = foldl g a bs.
Proof.
  intros H. revert a. induction bs as [|b bs IH]; intros a; [reflexivity|].
  cbn [foldl]. rewrite H. apply IH.
Qed.

Section Writes.
Context {A B : Type} (index : B -> nat) (value : B -> A).

Let write (a : list A) (b : B) : list A := <[ index b := value b ]> a.

Lemma writes_length (bs : list B) (a : list A) :
  length (foldl write a bs) = length a.
Proof.
  revert a. induction bs as [|b bs IH]; intros a; [reflexivity|].
  cbn [foldl]. rewrite IH. apply length_insert.
Qed.

Lemma writes_miss (bs : list B) (a : list A) (i : nat) :
  (forall b, b ∈ bs -> index b <> i) -> foldl write a bs !! i = a !! i.
Proof.
  revert a. induction bs as [|b bs IH]; intros a H; [reflexivity|].
  cbn [foldl]. rewrite IH by (intros b' Hb'; apply H; right; exact Hb').
  apply list_lookup_insert_ne. apply H. left.
Qed.

Lemma writes_hit (bs : list B) (a : list A) (b : B) :
  b ∈ bs -> index b < length a ->
  (forall b', b' ∈ bs -> index b' = index b -> b' = b) ->
  foldl write a bs !! index b = Some (value b).
Proof.
  revert a. induction bs as [|b0 bs IH]; intros a Hin Hlt Hinj; [inversion Hin|].
  cbn [foldl].
  destruct (decide (Exists (fun b' => index b' = index b) bs)) as [Hb|Hb].
  - apply Exists_exists in Hb as (b' & Hb' & E).
    rewrite (Hinj b' ltac:(right; exact Hb') E) in Hb'.
    apply IH; [exact Hb'|unfold write; rewrite length_insert; exact Hlt|].
    intros b'' Hb''. apply Hinj. right. exact Hb''.
  - rewrite writes_miss.
    + apply elem_of_cons in Hin as [->|Hin].
      * apply list_lookup_insert_eq. exact Hlt.
      * exfalso. apply Hb, Exists_exists. exists b. split; [exact Hin|reflexivity].
    + intros b' Hb' E. apply Hb, Exists_exists. exists b'. split; assumption.
Qed.

End Writes.

Lemma index_injective (w x y x' y' : nat) :
  x < w -> x' < w -> x' + y' * w = x + y * w -> x' = x /\ y' = y.
Proof.
  intros Hx Hx' E.
  assert (Ey : y' = y).
  { apply (f_equal (fun n => n / w)) in E.
    rewrite !Nat.div_add, !Nat.div_small in E by lia. exact E. }
  subst y'. lia.
Qed.

Lemma pairs_elem (w h x y : nat) :
  (x, y) ∈ flat_map (fun y => List.map (fun x => (x, y)) (seq 0 w)) (seq 0 h)
  <-> x < w /\ y < h.
Proof.
  rewrite list_elem_of_In, in_flat_map. split.
  - intros (y' & Hy & Hx). apply in_map_iff in Hx as (x' & [= <- <-] & Hx).
    apply in_seq in Hy, Hx. lia.
  - intros [Hx Hy]. exists y. split; [apply in_seq; lia|].
    apply in_map_iff. exists x. split; [reflexivity|apply in_seq; lia].
Qed.

(** The pixel at column [x] of row [y] of [flip_x p] is the pixel at column
    [w - 1 - x] of the same row of [p]. *)
Lemma flip_x_lookup (p : typed_array) (x y : nat) :
  let w := Z.to_nat (width p) in
  let h := Z.to_nat (height p) in
  length (data p) = w * h -> x < w -> y < h ->
  data (flip_x p) !! (x + y * w) = data p !! ((w - 1 - x) + y * w).
Proof.
  intros w h Hlen Hx Hy. unfold flip_x. cbn [data]. fold w h.
  assert (Hj : (w - 1 - x) + y * w < length (data p)) by nia.
  destruct (lookup_lt_is_Some_2 _ _ Hj) as [v Hv].
  set (index := fun b : nat * nat => b.1 + b.2 * w).
  set (value := fun b : nat * nat =>
                  default 0%Z (data p !! ((w - 1 - b.1) + b.2 * w))).
  rewrite (foldl_pointwise _ (fun a b => <[ index b := value b ]> a))
    by (intros a [x' y']; reflexivity).
  change (x + y * w) with (index (x, y)).
  rewrite (writes_hit index value).
  - unfold value. cbn [fst snd]. rewrite Hv. reflexivity.
  - apply pairs_elem. lia.
  - rewrite length_replicate. unfold index. cbn [fst snd]. nia.
  - intros [x' y'] Hin E. apply pairs_elem in Hin. unfold index in E.
    cbn [fst snd] in E.
    destruct (index_injective w x y x' y') as [-> ->]; [lia|lia|exact E|reflexivity].
Qed.

Lemma flip_x_length (p : typed_array) :
  length (data (flip_x p)) = length (data p).
Proof.
  unfold flip_x. cbn [data].
  set (w := Z.to_nat (width p)).
  set (index := fun b : nat * nat => b.1 + b.2 * w).
  set (value := fun b : nat * nat =>
                  default 0%Z (data p !! ((w - 1 - b.1) + b.2 * w))).
  rewrite (foldl_pointwise _ (fun a b => <[ index b := value b ]> a))
    by (intros a [x' y']; reflexivity).
  rewrite (writes_length index value). apply length_replicate.
Qed.

(** X18.  Mirroring the pixels of an image twice gives the
    image back. *)
Theorem flip_x_involutive (p : typed_array) :
  length (data p) = Z.to_nat (width p) * Z.to_nat (height p) ->
  flip_x (flip_x p) = p.
Proof.
  intros Hlen. destruct p as [d w0 h0] eqn:Ep. rewrite <- Ep in *.
  assert (Hw : width (flip_x p) = width p) by reflexivity.
  assert (Hh : height (flip_x p) = height p) by reflexivity.
  assert (E : data (flip_x (flip_x p)) = data p).
  { apply list_eq. intros i.
    destruct (decide (i < length (data p))) as [Hi|Hi].
    - set (w := Z.to_nat (width p)) in *. set (h := Z.to_nat (height p)) in *.
      assert (Hwpos : 0 < w) by nia.
      assert (Ei : i = i mod w + (i / w) * w).
      { pose proof (Nat.div_mod_eq i w). lia. }
      assert (Hx : i mod w < w) by (apply Nat.mod_upper_bound; lia).
      assert (Hy : i / w < h).
      { apply Nat.Div0.div_lt_upper_bound. nia. }
      rewrite Ei.
      pose proof (flip_x_lookup (flip_x p) (i mod w) (i / w)) as H1.
      rewrite Hw, Hh in H1. fold w h in H1.
      rewrite H1; [|rewrite flip_x_length; exact Hlen|exact Hx|exact Hy].
      pose proof (flip_x_lookup p (w - 1 - i mod w) (i / w)) as H2.
      fold w h in H2. rewrite H2; [|exact Hlen|lia|exact Hy].
      f_equal. lia.
    - rewrite !lookup_ge_None_2; [reflexivity|lia|rewrite !flip_x_length; lia]. }
  rewrite Ep in E |- *. unfold flip_x in *. cbn [data width height] in *.
  f_equal. exact E.
Qed.

Lemma flip_x_involutive_witness :
  flip_x (flip_x {| data := [1; 2; 3; 4; 5; 6]%Z; width := 3; height := 2 |})
  = {| data := [1; 2; 3; 4; 5; 6]%Z; width := 3; height := 2 |}.
Proof.
  apply (flip_x_involutive {| data := [1; 2; 3; 4; 5; 6]%Z; width := 3; height := 2 |}).
  reflexivity.
Defined.

(** X19.  The scan of a sprite stops early, and still
    [hasAlpha] is set exactly when some pixel of the sprite is not opaque,
    and [hasFractionalAlpha] exactly when some pixel is neither opaque nor
    fully transparent. *)
Theorem scan_finds_transparency (pixels : list Z) (sprite_size : Z * Z)
    (gutter data_width u v : Z) :
  let alpha index := alpha15 (default 0%Z (at_index pixels index)) in
  let indices := sprite_indices sprite_size gutter data_width u v in
  scan pixels indices false
  = (existsb (fun index => (alpha index <? 0xf)%Z) indices,
     existsb (fun index => (0 <? alpha index)%Z && (alpha index <? 0xf)%Z) indices).
Proof.
  intros alpha indices.
  assert (H : forall l b,
    scan pixels l b
    = (b || existsb (fun index => (alpha index <? 0xf)%Z) l,
       existsb (fun index => (0 <? alpha index)%Z && (alpha index <? 0xf)%Z) l)).
  { induction l as [|index l IH]; intros b; cbn [scan existsb].
    - rewrite orb_false_r. reflexivity.
    - fold (alpha index).
      destruct (alpha index <? 0xf)%Z; [destruct (0 <? alpha index)%Z|]; cbn.
      + rewrite orb_true_r. reflexivity.
      + rewrite IH, orb_true_r. reflexivity.
      + rewrite IH, andb_false_r. reflexivity. }
  apply (H indices false).
Qed.

Lemma slice_inside (a n : nat) (l : list Z) :
  a + n <= length l ->
  slice (Z.of_nat a) (Z.of_nat a + Z.of_nat n) l = take n (drop a l).
Proof.
  intros H. unfold slice.
  destruct (Z.ltb_spec (Z.of_nat a) 0); [lia|].
  destruct (Z.ltb_spec (Z.of_nat a + Z.of_nat n) 0); [lia|].
  rewrite !Z.min_l by lia. f_equal; [lia|]. f_equal. lia.
Qed.

Lemma set_inside (source : list Z) (offset : nat) (target : list Z) :
  offset + length source <= length target ->
  set source (Z.of_nat offset) target
  = Normal (take offset target ++ source ++ drop (offset + length source) target).
Proof.
  intros H. unfold set.
  destruct (Z.ltb_spec (Z.of_nat offset) 0); [lia|].
  destruct (Z.ltb_spec (Z.of_nat (length target))
              (Z.of_nat offset + Z.of_nat (length source))); [lia|].
  cbn [orb]. rewrite Nat2Z.id. reflexivity.
Qed.

Section Crop.
Variables (raw : typed_array) (W H cx cy sx sy : nat).
Hypothesis raw_width : width raw = Z.of_nat W.
Hypothesis raw_length : length (data raw) = W * H.
Hypothesis inside_x : cx + sx <= W.
Hypothesis inside_y : cy + sy <= H.

Let r : region :=
  {| corner := (Z.of_nat cx, Z.of_nat cy); size := (Z.of_nat sx, Z.of_nat sy) |}.

Lemma copy_rows_spec (n a : nat) (cropped : list Z) :
  length cropped = sx * sy -> a + n <= sy ->
  (forall x y, x < sx -> y < a ->
     cropped !! (x + y * sx) = data raw !! ((cx + x) + (cy + y) * W)) ->
  exists out,
    copy_rows raw r (seq a n) cropped = Normal out
    /\ length out = sx * sy
    /\ forall x y, x < sx -> y < a + n ->
         out !! (x + y * sx) = data raw !! ((cx + x) + (cy + y) * W).
Proof.
  unfold r. revert a cropped. induction n as [|n IH]; intros a cropped Hlen Han Hinv.
  - exists cropped. cbn. split; [reflexivity|]. split; [exact Hlen|].
    intros x y Hx Hy. apply Hinv; lia.
  - cbn [seq copy_rows]. cbv zeta. cbn [corner size fst snd].
    rewrite raw_width.
    replace ((Z.of_nat a + Z.of_nat cy) * Z.of_nat W + Z.of_nat cx)%Z
      with (Z.of_nat ((a + cy) * W + cx)) by lia.
    rewrite slice_inside by nia.
    replace (Z.of_nat a * Z.of_nat sx)%Z with (Z.of_nat (a * sx)) by lia.
    assert (Hpiece : length (take sx (drop ((a + cy) * W + cx) (data raw))) = sx).
    { rewrite length_take, length_drop. nia. }
    rewrite set_inside by (rewrite Hpiece; nia).
    cbn [mbind completion_bind]. rewrite Hpiece.
    destruct (IH (S a) (take (a * sx) cropped
                        ++ take sx (drop ((a + cy) * W + cx) (data raw))
                        ++ drop (a * sx + sx) cropped)) as (out & Hout & Hl & Hcells).
    + rewrite !length_app, length_take, Hpiece, length_drop. nia.
    + lia.
    + intros x y Hx Hy.
      destruct (decide (y < a)) as [Hya|Hya].
      * rewrite lookup_app_l by (rewrite length_take; nia).
        rewrite lookup_take_lt by nia. apply Hinv; assumption.
      * assert (y = a) by lia. subst y.
        rewrite lookup_app_r by (rewrite length_take; nia).
        rewrite length_take. replace (x + a * sx - (a * sx) `min` length cropped) with x by nia.
        rewrite lookup_app_l by (rewrite Hpiece; exact Hx).
        rewrite lookup_take_lt by exact Hx. rewrite lookup_drop. f_equal. lia.
    + exists out. split; [exact Hout|]. split; [exact Hl|].
      intros x y Hx Hy. apply Hcells; [exact Hx|lia].
Qed.

(** The pixels of a region that lies inside the image. *)
Lemma getImageData4Bit_region (raw_height : height raw = Z.of_nat H) :
  exists out,
    getImageData4Bit raw (Some r) false = Normal out
    /\ width out = Z.of_nat sx /\ height out = Z.of_nat sy
    /\ length (data out) = sx * sy
    /\ forall x y, x < sx -> y < sy ->
         data out !! (x + y * sx)
         = quantize <$> data raw !! ((cx + x) + (cy + y) * W).
Proof.
  unfold getImageData4Bit.
  destruct (_ || _) eqn:Efull.
  - pose proof (copy_rows_spec sy 0 (replicate (sx * sy) 0%Z)) as Hrows.
    unfold r in *. cbn [size fst snd].
    destruct (Z.ltb_spec (Z.of_nat sx * Z.of_nat sy) 0); [lia|].
    destruct Hrows as (out & Hout & Hl & Hcells).
    + apply length_replicate.
    + lia.
    + intros x y _ Hy. lia.
    + rewrite Nat2Z.id. replace (Z.to_nat (Z.of_nat sx * Z.of_nat sy)) with (sx * sy) by lia.
      rewrite Hout. cbn [mbind completion_bind].
      eexists. split; [reflexivity|]. cbn [data width height].
      repeat apply conj; try reflexivity.
      * rewrite length_map. exact Hl.
      * intros x y Hx Hy. rewrite list_lookup_fmap. f_equal. apply Hcells; assumption.
  - unfold r in Efull. cbn [corner size fst snd] in Efull.
    rewrite raw_width, raw_height in Efull.
    rewrite !orb_false_iff, !negb_false_iff, !Z.eqb_eq in Efull.
    destruct Efull as [[[E1 E2] E3] E4].
    assert (cx = 0) by lia. assert (cy = 0) by lia.
    assert (sx = W) by lia. assert (sy = H) by lia. subst.
    cbn [mbind completion_bind].
    eexists. split; [reflexivity|]. cbn [data width height].
    repeat apply conj; try assumption.
    + rewrite length_map. exact raw_length.
    + intros x y Hx Hy. rewrite list_lookup_fmap. reflexivity.
Qed.

End Crop.

(** X20.  The pixels that the loader of a sheet
    keeps: the region of the sheet, clamped to the image, is cut out of the
    image pixel by pixel and quantized, and the second array holds every
    row mirrored. *)
Theorem clamped_region_is_cropped (raw : typed_array) (corner0 : Z * Z)
    (size0 : option (Z * Z)) :
  (0 <= width raw)%Z -> (0 <= height raw)%Z ->
  length (data raw) = Z.to_nat (width raw) * Z.to_nat (height raw) ->
  match size0 with Some (sx, sy) => (0 <= sx)%Z /\ (0 <= sy)%Z | None => True end ->
  let r := clamp_region (width raw) (height raw) corner0 size0 in
  let cx := Z.to_nat (fst (corner r)) in
  let cy := Z.to_nat (snd (corner r)) in
  let sx := Z.to_nat (fst (size r)) in
  let sy := Z.to_nat (snd (size r)) in
  exists pixels flipped,
    getImageData4BitAndFlip raw (Some r) = Normal (pixels, flipped)
    /\ width pixels = fst (size r) /\ height pixels = snd (size r)
    /\ cx + sx <= Z.to_nat (width raw) /\ cy + sy <= Z.to_nat (height raw)
    /\ forall x y, x < sx -> y < sy ->
         data pixels !! (x + y * sx)
         = quantize <$> data raw !! ((cx + x) + (cy + y) * Z.to_nat (width raw))
         /\ data flipped !! (x + y * sx) = data pixels !! ((sx - 1 - x) + y * sx).
Proof.
  intros HW HH Hlen Hsize r cx cy sx sy.
  assert (Hr : r = {| corner := (Z.of_nat cx, Z.of_nat cy);
                      size := (Z.of_nat sx, Z.of_nat sy) |}
               /\ cx + sx <= Z.to_nat (width raw) /\ cy + sy <= Z.to_nat (height raw)).
  { unfold cx, cy, sx, sy, r, clamp_region. cbn [corner size fst snd].
    destruct size0 as [[s0x s0y]|]; cbn [fst snd].
    - destruct Hsize. split; [f_equal; f_equal; lia|lia].
    - split; [f_equal; f_equal; lia|lia]. }
  destruct Hr as (Hr & Hx & Hy).
  destruct (getImageData4Bit_region raw (Z.to_nat (width raw)) (Z.to_nat (height raw))
              cx cy sx sy) as (out & Hout & Hw & Hh & Hl & Hcells);
    [lia|exact Hlen|exact Hx|exact Hy|lia|].
  rewrite <- Hr in Hout.
  exists out, (flip_x out). unfold getImageData4BitAndFlip. rewrite Hout.
  cbn [mbind completion_bind].
  split; [reflexivity|].
  assert (Ew : width out = fst (size r)) by (rewrite Hr; exact Hw).
  assert (Eh : height out = snd (size r)) by (rewrite Hr; exact Hh).
  repeat apply conj; try assumption.
  intros x y Hxs Hys. split; [apply Hcells; assumption|].
  pose proof (flip_x_lookup out x y) as Hf. cbv zeta in Hf.
  rewrite Ew, Eh in Hf. fold sx sy in Hf. apply Hf; assumption.
Qed.

Lemma clamped_region_is_cropped_witness :
  exists pixels flipped,
    getImageData4BitAndFlip
      {| data := [0xFF000000; 0xFF0000FF; 0x80FFFFFF;
                  0x00000000; 0xFF00FF00; 0xFFFF0000]%Z;
         width := 3; height := 2 |}
      (Some (clamp_region 3 2 (1, 0)%Z (Some (5, 5)%Z)))
    = Normal (pixels, flipped)
    /\ data pixels = [0xF00F; 0x8FFF; 0xF0F0; 0xFF00]%Z
    /\ data flipped = [0x8FFF; 0xF00F; 0xFF00; 0xF0F0]%Z.
Proof.
  destruct (clamped_region_is_cropped
              {| data := [0xFF000000; 0xFF0000FF; 0x80FFFFFF;
                          0x00000000; 0xFF00FF00; 0xFFFF0000]%Z;
                 width := 3; height := 2 |} (1, 0)%Z (Some (5, 5)%Z))
    as (pixels & flipped & H & _); [cbn; lia|cbn; lia|reflexivity|cbn; lia|].
  exists pixels, flipped. split; [exact H|].
  vm_compute in H. injection H as <- <-. split; reflexivity.
Defined.


End PixelsFacts.

(** ** Tile maps *)

Module TilemapFacts.
Import JS Spritesheet Tilemap.
Local Open Scope Z_scope.

Lemma to_int32_mod (x : Z) : Pixels.to_int32 x mod 2 ^ 32 = x mod 2 ^ 32.
Proof.
  unfold Pixels.to_int32. rewrite Zminus_mod_idemp_l. f_equal. lia.
Qed.

Lemma to_int32_range (x : Z) : - 2 ^ 31 <= Pixels.to_int32 x < 2 ^ 31.
Proof.
  unfold Pixels.to_int32.
  pose proof (Z.mod_pos_bound (x + 2 ^ 31) (2 ^ 32) ltac:(lia)). lia.
Qed.

(** The three masks, in arithmetic. *)
Lemma land_low_28 (x : Z) : Z.land x 0x0fffffff = x mod 2 ^ 28.
Proof. change 0x0fffffff with (Z.ones 28). apply Z.land_ones. lia. Qed.

Lemma land_bit_30 (x : Z) :
  (Z.land x 0x40000000 =? 0) = Z.even (x / 2 ^ 30).
Proof.
  change 0x40000000 with (2 ^ 30).
  assert (E : Z.land x (2 ^ 30) = if Z.testbit x 30 then 2 ^ 30 else 0).
  { apply Z.bits_inj'. intros n Hn. rewrite Z.land_spec, Z.pow2_bits_eqb by lia.
    destruct (Z.eqb_spec 30 n) as [<-|Hne].
    - rewrite andb_true_r. destruct (Z.testbit x 30); reflexivity.
    - rewrite andb_false_r. destruct (Z.testbit x 30).
      + rewrite Z.pow2_bits_false by lia. reflexivity.
      + rewrite Z.bits_0. reflexivity. }
  rewrite E, Z.testbit_odd, Z.shiftr_div_pow2 by lia.
  rewrite <- Z.negb_odd. destruct (Z.odd (x / 2 ^ 30)); reflexivity.
Qed.

Lemma land_sign (x : Z) :
  - 2 ^ 31 <= x < 2 ^ 31 ->
  (Z.land x (Pixels.to_int32 0x80000000) =? 0) = (0 <=? x).
Proof.
  intros Hx. change (Pixels.to_int32 0x80000000) with (Z.lnot (Z.ones 31)).
  change (Z.land x (Z.lnot (Z.ones 31))) with (Z.ldiff x (Z.ones 31)).
  rewrite Z.ldiff_ones_r, Z.shiftl_mul_pow2, Z.shiftr_div_pow2 by lia.
  destruct (Z.leb_spec 0 x).
  - rewrite Z.div_small by lia. reflexivity.
  - assert (x / 2 ^ 31 = -1) by (symmetry; apply (Z.div_unique x (2 ^ 31) (-1) (x + 2 ^ 31)); lia).
    rewrite H0. reflexivity.
Qed.

Lemma to_int32_cases (x : Z) :
  0 <= x < 2 ^ 32 ->
  Pixels.to_int32 x = if x <? 2 ^ 31 then x else x - 2 ^ 32.
Proof.
  intros Hx. unfold Pixels.to_int32.
  destruct (Z.ltb_spec x (2 ^ 31)).
  - rewrite Z.mod_small by lia. lia.
  - replace (x + 2 ^ 31) with (x - 2 ^ 31 + 1 * 2 ^ 32) by lia.
    rewrite Z.mod_add by lia. rewrite Z.mod_small by lia. lia.
Qed.

(** What [decode] reads from a cell of 32 bits: the flag of bit 31, the
    flag of bit 30, and the 28 low bits less one. *)
Lemma decode_fields (gid : Z) :
  0 <= gid < 2 ^ 32 ->
  decode (Some gid)
  = (2 ^ 31 <=? gid, Z.odd (gid / 2 ^ 30), gid mod 2 ^ 28 - 1).
Proof.
  intros Hg. unfold decode, to_int32.
  pose proof (to_int32_range gid) as Hr.
  rewrite land_sign by exact Hr. rewrite land_bit_30, land_low_28.
  rewrite to_int32_cases by exact Hg.
  destruct (Z.ltb_spec gid (2 ^ 31)) as [Hlt|Hge].
  - destruct (Z.leb_spec 0 gid); [|lia].
    destruct (Z.leb_spec (2 ^ 31) gid); [lia|].
    rewrite Z.negb_even. reflexivity.
  - destruct (Z.leb_spec 0 (gid - 2 ^ 32)); [lia|].
    destruct (Z.leb_spec (2 ^ 31) gid); [|lia].
    replace (gid - 2 ^ 32) with (gid + (- 4) * 2 ^ 30) at 1 by lia.
    rewrite Z.div_add by lia.
    replace (gid - 2 ^ 32) with (gid + (- 16) * 2 ^ 28) by lia.
    rewrite Z.mod_add by lia.
    rewrite Z.negb_even, Z.odd_add. cbn [negb]. f_equal. f_equal.
    change (Z.odd (-4)) with false. apply xorb_false_r.
Qed.

(** X21.  A cell number made of a tile index, the two flip
    flags at bits 31 and 30 and anything at bits 29 and 28 is read back as
    the same flags and index: the two bits in between, one of which the
    format uses for a diagonal flip, are ignored. *)
Theorem gid_round_trip (index : Z) (flipX flipY diagonal spare : bool) :
  0 <= index < 2 ^ 28 - 1 ->
  decode (Some (index + 1 + bit spare * 2 ^ 28 + bit diagonal * 2 ^ 29
                + bit flipY * 2 ^ 30 + bit flipX * 2 ^ 31))
  = (flipX, flipY, index).
Proof.
  intros Hi. rewrite decode_fields by (destruct spare, diagonal, flipY, flipX; cbn [bit]; lia).
  f_equal; [f_equal|].
  - destruct spare, diagonal, flipY, flipX; cbn [bit]; lia.
  - destruct spare, diagonal, flipY, flipX; cbn [bit];
      match goal with
      | |- Z.odd (?g / 2 ^ 30) = _ =>
        first
          [ replace (g / 2 ^ 30) with 0
              by (apply (Z.div_unique g (2 ^ 30) 0 g); lia); reflexivity
          | replace (g / 2 ^ 30) with 1
              by (apply (Z.div_unique g (2 ^ 30) 1 (g - 2 ^ 30)); lia); reflexivity
          | replace (g / 2 ^ 30) with 2
              by (apply (Z.div_unique g (2 ^ 30) 2 (g - 2 * 2 ^ 30)); lia); reflexivity
          | replace (g / 2 ^ 30) with 3
              by (apply (Z.div_unique g (2 ^ 30) 3 (g - 3 * 2 ^ 30)); lia); reflexivity ]
      end.
  - replace (index + 1 + bit spare * 2 ^ 28 + bit diagonal * 2 ^ 29
             + bit flipY * 2 ^ 30 + bit flipX * 2 ^ 31)
      with (index + 1 + (bit spare + 2 * bit diagonal + 4 * bit flipY + 8 * bit flipX)
                        * 2 ^ 28) by lia.
    rewrite Z.mod_add by lia. rewrite Z.mod_small by lia. lia.
Qed.

Lemma gid_round_trip_witness :
  decode (Some (5 + 1 + bit false * 2 ^ 28 + bit true * 2 ^ 29
                + bit true * 2 ^ 30 + bit false * 2 ^ 31))
  = (false, true, 5).
Proof. apply (gid_round_trip 5 false true true false). lia. Defined.

Local Close Scope Z_scope.

(** X22.  In a map over a loaded sheet whose names are no array indices
    and not [length], so that the sheet has its columns [g] and nothing
    else, the cell whose index is [x + y * columns] shows the sprite
    [sheet[x][y]], mirrored as the two flags say: it is the sprite itself,
    its [x_flipped], its [y_flipped], or [x_flipped.y_flipped].  No
    combination of flags fails or leaves the cell undefined. *)
Theorem tile_of_loaded_sheet (js : json) (data : image_data) (h0 : list sprite)
    (L0 : Z) (sheet : spritesheet) (h : list sprite) (L : Z)
    (g : list (list address)) (x y : nat)
    (a : address) (columns : Z) (gid : option Z) (flipX flipY : bool) :
  compile js data (h0, L0) = Normal (sheet, (h, L)) -> ordinary js = true ->
  grid sheet = Spritesheet.columns g ->
  cell (grid sheet) (Some (Z.of_nat x)) (Some (Z.of_nat y)) = Some a ->
  (Z.of_nat x < columns)%Z ->
  decode gid = (flipX, flipY, (Z.of_nat x + Z.of_nat y * columns)%Z) ->
  exists X Y B,
    property h x_flipped a = Some X /\ property h y_flipped a = Some Y
    /\ property h y_flipped X = Some B
    /\ tile h g (Some columns) gid
       = Normal (Some (if flipX then if flipY then B else X
                       else if flipY then Y else a)).
Proof.
  intros Hc Ho Hg Ha Hx Hd.
  destruct (SheetLayoutFacts.compile_cell _ _ _ _ _ _ _ _ _ _ Hc Ho Ha)
    as (_ & _ & s0 & X & Hf & _ & Hs & HX & HY & HB).
  rewrite Hg, SheetLayoutFacts.cell_columns_nat in Ha.
  unfold SheetLayout.fixed in Hf. injection Hf as _ _ _ _ Hxf Hyf _.
  exists X, (X + 1), (X + 2). unfold property.
  rewrite Hs, HX. cbn [mbind option_bind freeze set_x_flipped set_y_flipped
                         reorient object_assign x_flipped y_flipped].
  repeat split.
  unfold tile. rewrite Hd.
  destruct (Z.leb_spec 0 (Z.of_nat x + Z.of_nat y * columns)) as [_|Hneg]; [|nia].
  destruct columns as [|columns|columns]; try lia.
  rewrite Z.rem_add by nia. rewrite Z.rem_small by lia.
  rewrite Z.div_add by lia. rewrite Z.div_small by lia. cbn [Z.add].
  rewrite !SpritesheetFacts.at_index_nat.
  destruct (g !! x) as [column|]; [|discriminate Ha]. cbn in Ha.
  rewrite Z.add_0_l, SpritesheetFacts.at_index_nat, Ha. unfold property.
  destruct flipX, flipY; cbn [mbind completion_bind];
    rewrite ?Hs; cbn [mbind option_bind freeze set_x_flipped set_y_flipped
                         x_flipped y_flipped];
    rewrite ?HX, ?HY; reflexivity.
Qed.

Lemma tile_of_loaded_sheet_witness :
  exists sheet h L,
    compile Samples.spin (Samples.strip 3) ([], 0%Z) = Normal (sheet, (h, L))
    /\ ordinary Samples.spin = true
    /\ grid sheet = Spritesheet.columns [[0]; [1]; [2]]
    /\ cell (grid sheet) (Some (Z.of_nat 1)) (Some (Z.of_nat 0)) = Some 1
    /\ exists X Y B,
         property h x_flipped 1 = Some X /\ property h y_flipped 1 = Some Y
         /\ property h y_flipped X = Some B
         /\ tile h [[0]; [1]; [2]] (Some 3%Z) (Some (2 + 2 ^ 31 + 2 ^ 30)%Z)
            = Normal (Some B).
Proof.
  eexists _, _, _. split; [vm_compute; reflexivity|].
  split; [reflexivity|]. split; [reflexivity|]. split; [reflexivity|].
  eapply (tile_of_loaded_sheet Samples.spin (Samples.strip 3) [] 0%Z _ _ _
            [[0]; [1]; [2]] 1 0 1
            3%Z (Some (2 + 2 ^ 31 + 2 ^ 30)%Z) true true).
  - vm_compute. reflexivity.
  - reflexivity.
  - reflexivity.
  - reflexivity.
  - lia.
  - reflexivity.
Defined.

Section Layers.
Variables (h : list sprite) (sheet : list (list address)) (columns : option Z)
          (flipY : bool) (size_y : nat) (data : list (option Z)).

Let row (y : nat) : nat := if flipY then size_y - 1 - y else y.

Lemma write_shaped (size_x x y : nat) v (l : layer) :
  shaped size_x size_y l -> shaped size_x size_y (alter (fun column => <[ y := v ]> column) x l).
Proof.
  intros [Hl Hc]. split; [rewrite length_alter; exact Hl|].
  rewrite Forall_forall in *. intros column Hin.
  apply list_elem_of_lookup_1 in Hin as [i Hi].
  destruct (decide (x = i)) as [->|Hne].
  - rewrite list_lookup_alter_eq in Hi.
    destruct (l !! i) as [c|] eqn:E; [|discriminate Hi].
    injection Hi as <-. rewrite length_insert. apply Hc.
    eapply list_elem_of_lookup_2. exact E.
  - rewrite list_lookup_alter_ne in Hi by exact Hne.
    apply Hc. eapply list_elem_of_lookup_2. exact Hi.
Qed.

Lemma write_at_cell (size_x x y x' y' : nat) v (l : layer) :
  shaped size_x size_y l -> x < size_x -> y < size_y ->
  at_cell (alter (fun column => <[ y := v ]> column) x l) x' y'
  = if decide (x = x' /\ y = y') then Some v else at_cell l x' y'.
Proof.
  intros [Hl Hc] Hx Hy. unfold at_cell.
  destruct (decide (x = x')) as [<-|Hne].
  - rewrite list_lookup_alter_eq.
    destruct (lookup_lt_is_Some_2 l x ltac:(lia)) as [c Ec]. rewrite Ec. cbn.
    rewrite Forall_forall in Hc.
    pose proof (Hc c (list_elem_of_lookup_2 _ _ _ Ec)) as Hlen.
    destruct (decide (y = y')) as [<-|Hney].
    + rewrite decide_True by tauto. apply list_lookup_insert_eq. lia.
    + rewrite decide_False by tauto. apply list_lookup_insert_ne. exact Hney.
  - rewrite list_lookup_alter_ne by exact Hne.
    rewrite decide_False by tauto. reflexivity.
Qed.

Lemma fill_frame (size_x : nat) (cells : list (nat * nat)) (i : nat) (l l' : layer)
    (x' y' : nat) :
  fill h sheet columns flipY size_y data cells i l = Normal l' ->
  shaped size_x size_y l ->
  (forall x y, (x, y) ∈ cells -> x < size_x /\ y < size_y) ->
  (forall x y, (x, y) ∈ cells -> ~ (x = x' /\ row y = y')) ->
  shaped size_x size_y l' /\ at_cell l' x' y' = at_cell l x' y'.
Proof.
  revert i l. induction cells as [|[x y] cells IH]; intros i l H Hs Hin Hout.
  - injection H as <-. split; [exact Hs|reflexivity].
  - cbn [fill] in H.
    destruct (tile h sheet columns (mjoin (data !! i))) as [sprite|m]; [|discriminate H].
    cbn [mbind completion_bind] in H. fold (row y) in H.
    destruct (Hin x y ltac:(left)) as [Hx Hy].
    assert (Hrow : row y < size_y) by (unfold row; destruct flipY; lia).
    apply IH in H as [Hs' Hc].
    + split; [exact Hs'|]. rewrite Hc.
      rewrite (write_at_cell size_x) by assumption.
      rewrite decide_False; [reflexivity|]. apply Hout. left.
    + apply write_shaped. exact Hs.
    + intros x0 y0 H0. apply Hin. right. exact H0.
    + intros x0 y0 H0. apply Hout. right. exact H0.
Qed.

Lemma fill_cells (size_x : nat) (cells : list (nat * nat)) (i : nat) (l l' : layer) :
  fill h sheet columns flipY size_y data cells i l = Normal l' ->
  shaped size_x size_y l ->
  (forall x y, (x, y) ∈ cells -> x < size_x /\ y < size_y) ->
  NoDup cells ->
  forall k x y, cells !! k = Some (x, y) ->
    exists sprite,
      tile h sheet columns (mjoin (data !! (i + k))) = Normal sprite
      /\ at_cell l' x (row y) = Some (Some sprite).
Proof.
  revert i l. induction cells as [|[x0 y0] cells IH]; intros i l H Hs Hin Hnd k x y Hk.
  - discriminate Hk.
  - cbn [fill] in H.
    destruct (tile h sheet columns (mjoin (data !! i))) as [sprite|m] eqn:Et;
      [|discriminate H].
    cbn [mbind completion_bind] in H. fold (row y0) in H.
    destruct (Hin x0 y0 ltac:(left)) as [Hx Hy].
    assert (Hrow : row y0 < size_y) by (unfold row; destruct flipY; lia).
    apply NoDup_cons in Hnd as [Hnotin Hnd].
    destruct k as [|k].
    + injection Hk as <- <-. exists sprite. rewrite Nat.add_0_r. split; [exact Et|].
      destruct (fill_frame size_x cells (S i) _ l' x0 (row y0) H) as [_ Hc].
      * apply write_shaped. exact Hs.
      * intros x1 y1 H1. apply Hin. right. exact H1.
      * intros x1 y1 H1 [-> E].
        assert (y1 = y0).
        { destruct (Hin x0 y1 ltac:(right; exact H1)) as [_ Hy1].
          unfold row in E. destruct flipY; lia. }
        subst y1. exact (Hnotin H1).
      * rewrite Hc, (write_at_cell size_x) by assumption.
        rewrite decide_True by tauto. reflexivity.
    + replace (i + S k) with (S i + k) by lia.
      eapply IH; try eassumption.
      * apply write_shaped. exact Hs.
      * intros x1 y1 H1. apply Hin. right. exact H1.
Qed.

End Layers.

(** X23.  A layer that loads has [size.x] columns of [size.y]
    cells; the cell read at position [x + y * size.x] of the data is at
    [layer[x][y]], or at [layer[x][size.y - 1 - y]] when the map has
    [y_up] set, and it holds the sprite of that number. *)
Theorem layer_cells (h : list sprite) (sheet : list (list address))
    (columns : option Z) (flipY : bool) (size_x size_y : nat)
    (data : list (option Z)) (l : layer) (x y : nat) :
  load_layer h sheet columns flipY size_x size_y data = Normal l ->
  x < size_x -> y < size_y ->
  length l = size_x
  /\ (forall column, column ∈ l -> length column = size_y)
  /\ exists sprite,
       tile h sheet columns (mjoin (data !! (x + y * size_x))) = Normal sprite
       /\ l !! x ≫= (fun column => column !! (if flipY then size_y - 1 - y else y))
          = Some (Some sprite).
Proof.
  intros H Hx Hy. unfold load_layer in H.
  assert (Hs0 : shaped size_x size_y (replicate size_x (replicate size_y None))).
  { split; [apply length_replicate|]. apply Forall_forall. intros c Hc.
    apply elem_of_replicate in Hc as [-> _]. apply length_replicate. }
  assert (Hin : forall x y,
    (x, y) ∈ flat_map (fun y => List.map (fun x => (x, y)) (seq 0 size_x)) (seq 0 size_y)
    -> x < size_x /\ y < size_y).
  { intros x0 y0 H0. apply PixelsFacts.pairs_elem in H0. exact H0. }
  destruct (fill_frame h sheet columns flipY size_y data size_x _ 0 _ l size_x size_y H Hs0 Hin)
    as [[Hl Hc] _].
  { intros x0 y0 H0 [E _]. apply Hin in H0. lia. }
  split; [exact Hl|]. split; [rewrite Forall_forall in Hc; exact Hc|].
  assert (Hnd : NoDup (flat_map (fun y => List.map (fun x => (x, y)) (seq 0 size_x))
                         (seq 0 size_y))).
  { clear. induction size_y as [|n IH] using nat_ind; [constructor|].
    rewrite seq_S, flat_map_app. cbn [flat_map]. rewrite app_nil_r.
    apply NoDup_app. split; [exact IH|]. split.
    + intros [x y] H1 H2. apply PixelsFacts.pairs_elem in H1 as [_ H1].
      apply list_elem_of_In, in_map_iff in H2 as (x' & E & _).
      injection E as _ E. lia.
    + apply NoDup_fmap_2; [intros a b [= ->]; reflexivity|apply NoDup_seq]. }
  assert (Hk : flat_map (fun y => List.map (fun x => (x, y)) (seq 0 size_x))
                 (seq 0 size_y) !! (x + y * size_x) = Some (x, y)).
  { clear - Hx Hy. revert y Hy. induction size_y as [|n IH]; intros y Hy; [lia|].
    rewrite seq_S, flat_map_app. cbn [flat_map]. rewrite app_nil_r, Nat.add_0_l.
    assert (Hlen : length (flat_map (fun y => List.map (fun x => (x, y)) (seq 0 size_x))
                             (seq 0 n)) = n * size_x).
    { clear. induction n as [|n IH]; [reflexivity|].
      rewrite seq_S, flat_map_app, length_app, IH. cbn.
      rewrite app_nil_r, length_map, length_seq. lia. }
    destruct (decide (y < n)) as [Hlt|Hge].
    + assert ((y + 1) * size_x <= n * size_x) by (apply Nat.mul_le_mono_r; lia).
      rewrite lookup_app_l by (rewrite Hlen; lia). apply IH. exact Hlt.
    + assert (y = n) by lia. subst y.
      rewrite lookup_app_r by (rewrite Hlen; lia). rewrite Hlen.
      replace (x + n * size_x - n * size_x) with x by lia.
      rewrite list_lookup_fmap, lookup_seq_lt by exact Hx. reflexivity. }
  exact (fill_cells h sheet columns flipY size_y data size_x _ 0 _ l H Hs0 Hin Hnd
           (x + y * size_x) x y Hk).
Qed.

Lemma layer_cells_witness :
  exists sheet h g l,
    Samples.compiled Samples.plain 2 = Some (sheet, h)
    /\ grid sheet = columns g
    /\ load_layer h g (Some 2%Z) true 2 2
                  [Some 1%Z; Some 2%Z; Some 0%Z; Some (2 ^ 31 + 1)%Z] = Normal l
    /\ length l = 2
    /\ (forall column, column ∈ l -> length column = 2)
    /\ exists sprite,
         tile h g (Some 2%Z)
              (mjoin ([Some 1%Z; Some 2%Z; Some 0%Z; Some (2 ^ 31 + 1)%Z] !! (1 + 0 * 2)))
         = Normal sprite
         /\ l !! 1 ≫= (fun column => column !! (2 - 1 - 0)) = Some (Some sprite).
Proof.
  eexists _, _, [[0]; [1]], _. split; [vm_compute; reflexivity|].
  split; [reflexivity|].
  split; [vm_compute; reflexivity|].
  match goal with |- length ?l = _ /\ _ =>
    apply (layer_cells _ _ (Some 2%Z) true 2 2
             [Some 1%Z; Some 2%Z; Some 0%Z; Some (2 ^ 31 + 1)%Z] l 1 0)
  end.
  - vm_compute. reflexivity.
  - lia.
  - lia.
Defined.

End TilemapFacts.

(** ** Constants *)

Module ConstantsFacts.
Import JS Constants.

(** Induction over a value and the values inside it. *)
Section Induction.
Variable P : data -> Prop.
Hypothesis at_null : P Null.
Hypothesis at_undefined : P Undefined.
Hypothesis at_boolean : forall b, P (Boolean b).
Hypothesis at_number : forall x, P (Number x).
Hypothesis at_pi : forall q, P (PiTimes q).
Hypothesis at_string : forall s, P (String s).
Hypothesis at_function : P Function.
Hypothesis at_array : forall elements, Forall P elements -> P (Array elements).
Hypothesis at_object :
  forall properties, Forall (fun kv => P kv.2) properties -> P (Object properties).

Lemma data_induction : forall x, P x.
Proof.
  fix IH 1. intros [| |b|x|q|s| |elements|properties].
  - exact at_null.
  - exact at_undefined.
  - apply at_boolean.
  - apply at_number.
  - apply at_pi.
  - apply at_string.
  - exact at_function.
  - apply at_array. induction elements as [|e elements IHl]; constructor; [apply IH|exact IHl].
  - apply at_object.
    induction properties as [|[k v] properties IHl]; constructor; [apply IH|exact IHl].
Qed.

End Induction.

(** X24.  After [nullToUndefined] no [null] is
    left at any depth; a second pass changes nothing; and a value without
    [null] comes back as it is. *)
Theorem nullToUndefined_leaves_no_null (x : data) :
  null_free (nullToUndefined x) = true
  /\ nullToUndefined (nullToUndefined x) = nullToUndefined x
  /\ (null_free x = true -> nullToUndefined x = x).
Proof.
  induction x as [| |b|y|q|s| |elements IH|properties IH] using data_induction;
    try (cbn; repeat split; congruence).
  - assert (H : forall e, In e elements ->
              null_free (nullToUndefined e) = true
              /\ nullToUndefined (nullToUndefined e) = nullToUndefined e
              /\ (null_free e = true -> nullToUndefined e = e)).
    { intros e He. rewrite Forall_forall in IH. apply IH, list_elem_of_In, He. }
    clear IH. cbn [nullToUndefined null_free]. repeat split.
    + rewrite forallb_forall. intros e He. apply in_map_iff in He as (e0 & <- & He0).
      apply (H e0 He0).
    + f_equal. rewrite List.map_map. apply List.map_ext_in. intros e He.
      apply (H e He).
    + intros Hn. f_equal. rewrite forallb_forall in Hn.
      rewrite <- (List.map_id elements) at 2. apply List.map_ext_in. intros e He.
      apply (H e He), Hn, He.
  - assert (H : forall k v, In (k, v) properties ->
              null_free (nullToUndefined v) = true
              /\ nullToUndefined (nullToUndefined v) = nullToUndefined v
              /\ (null_free v = true -> nullToUndefined v = v)).
    { intros k v He. rewrite Forall_forall in IH.
      apply (IH (k, v)), list_elem_of_In, He. }
    clear IH. cbn [nullToUndefined null_free]. repeat split.
    + rewrite forallb_forall. intros e He. apply in_map_iff in He as ([k v] & <- & He0).
      apply (H k v He0).
    + f_equal. rewrite List.map_map. apply List.map_ext_in. intros [k v] He.
      f_equal. apply (H k v He).
    + intros Hn. f_equal. rewrite forallb_forall in Hn.
      rewrite <- (List.map_id properties) at 2. apply List.map_ext_in. intros [k v] He.
      f_equal. apply (H k v He), (Hn (k, v)), He.
Qed.

Lemma each_stops {A B} (f : A -> option (completion B)) (l : list A) (x : A)
    (ys : list B) :
  x ∈ l -> (forall y, f x <> Some (Normal y)) -> each f l <> Some (Normal ys).
Proof.
  revert ys. induction l as [|a l IH]; intros ys Hin Hx; [inversion Hin|].
  cbn [each]. apply elem_of_cons in Hin as [<-|Hin].
  - destruct (f x) as [[y|m]|]; try discriminate. exfalso. exact (Hx y eq_refl).
  - destruct (f a) as [[y|m]|]; try discriminate.
    destruct (each f l) as [[ys'|m]|] eqn:E; try discriminate.
    exfalso. exact (IH ys' Hin Hx eq_refl).
Qed.

Lemma get_object (properties : list (jsstring * data)) (k : jsstring) :
  exists v, get (Object properties) k = Normal v.
Proof. eexists. reflexivity. Qed.

Ltac decide_types :=
  repeat match goal with
         | |- context [bool_decide (?a = ?b)] =>
           first [ rewrite (bool_decide_eq_true_2 (a = b)) by reflexivity
                 | rewrite (bool_decide_eq_false_2 (a = b)) by (vm_compute; discriminate) ]
         end.

(** X25.  A constant that holds a reference, or a raw
    value with a URL, in a component, a property or an element at any depth
    never evaluates to a value. *)
Theorem refused_never_evaluates (fuel : nat) (json v : data) :
  refused json -> evalJSONGameConstant fuel json <> Some (Normal v).
Proof.
  revert json v. induction fuel as [|fuel IH]; intros json v Hr; [discriminate|].
  destruct Hr as [properties Ht|properties url Ht Hu Hne
                 |properties type names value name component Ht Hc Hv Ho Hin Hg Hr
                 |properties fields key field Ht Hv Hin Hr
                 |properties elements element Ht Hv Hin Hr];
    cbn [evalJSONGameConstant]; rewrite Ht;
    destruct (get_object properties (u "value")) as [value' Hv'];
    destruct (get_object properties (u "url")) as [url' Hu'];
    rewrite ?Hv, ?Hu, ?Hv', ?Hu'.
  - decide_types. cbn [orb]. change (components (u "reference")) with (@None (list string)).
    cbv iota. discriminate.
  - decide_types. destruct url; try discriminate. contradiction.
  - assert (Hnames : forall p, each
              (fun name0 : string =>
                 match get value (u name0) with
                 | Normal component0 =>
                   match evalJSONGameConstant fuel component0 with
                   | Some (Normal v0) => Some (Normal (u name0, v0))
                   | Some (Throw m) => Some (Throw m)
                   | None => None
                   end
                 | Throw m => Some (Throw m)
                 end) names <> Some (Normal p)).
    { intros p. apply (each_stops _ names name); try exact Hin.
      intros y. rewrite Hg.
      destruct (evalJSONGameConstant fuel component) as [[v0|m]|] eqn:E;
        try discriminate. exfalso. exact (IH component v0 Hr E). }
    assert (Hknown : type ∈ List.map u ["xy"; "xz"; "xyz"; "hsv"; "hsva"; "rgb"; "rgba"]%string).
    { unfold components in Hc. cbn [List.map].
      repeat (case_bool_decide;
              [subst type; apply (bool_decide_eq_true_1 _); vm_compute; reflexivity|]).
      discriminate Hc. }
    cbn [List.map] in Hknown.
    repeat (apply elem_of_cons in Hknown as [->|Hknown];
            [decide_types; cbn [orb]; rewrite ?Ho, ?Hc;
             try change (default [] (Some names)) with names;
             match goal with
             | |- context [each ?f ?l] =>
               destruct (each f l) as [[p|m]|] eqn:E;
               try discriminate; exfalso; exact (Hnames p eq_refl)
             end|]).
    inversion Hknown.
  - decide_types. cbn [orb]. change (components (u "object")) with (@None (list string)).
    cbv iota.
    match goal with
    | |- context [each ?f fields] =>
      destruct (each f fields) as [[p|m]|] eqn:E; try discriminate;
      exfalso; refine (each_stops f fields (key, field) p Hin _ E)
    end.
    intros y. cbn [snd].
    destruct (evalJSONGameConstant fuel field) as [[v0|m]|] eqn:E'; try discriminate.
    exfalso. exact (IH field v0 Hr E').
  - decide_types. cbn [orb]. change (components (u "array")) with (@None (list string)).
    cbv iota.
    match goal with
    | |- context [each ?f elements] =>
      destruct (each f elements) as [[p|m]|] eqn:E; try discriminate;
      exfalso; refine (each_stops f elements element p Hin _ E)
    end.
    intros y E'. exact (IH element y Hr E').
Qed.

Lemma refused_never_evaluates_witness :
  evalJSONGameConstant 3 ConstantSamples.xy_with_reference
  = Some (Throw nested_reference)
  /\ evalJSONGameConstant 3 ConstantSamples.xy_with_reference
     <> Some (Normal Undefined).
Proof.
  split; [vm_compute; reflexivity|].
  apply (refused_never_evaluates 3 ConstantSamples.xy_with_reference Undefined).
  eapply (refused_component _ (u "xy") _ _ "y"%string).
  - reflexivity.
  - reflexivity.
  - reflexivity.
  - reflexivity.
  - apply (bool_decide_eq_true_1 _). vm_compute. reflexivity.
  - reflexivity.
  - apply refused_reference. reflexivity.
Defined.

End ConstantsFacts.

(** ** Reloading *)

Module ReloadFacts.
Import JS Assets Reload.

Section Kinds.
Variable kind : jsstring -> asset_type.
Variable makeURLAbsolute : jsstring -> jsstring -> jsstring.











End Kinds.

(** The loader that the manifest calls for a URL is the one of the type of
    the URL. *)
Lemma dispatch_typed (assetName : jsstring) (j : json) (assetURL : jsstring)
    (c : call) (st : session) :
  dispatch assetName j assetURL = Some c -> call_typed kind_of_url c st.
Proof.
  unfold dispatch. destruct (extension assetURL) as [type|] eqn:E; [|discriminate].
  repeat case_bool_decide; intros [= <-]; cbn [call_typed];
    unfold kind_of_url, dispatch; rewrite E; subst type; reflexivity.
Qed.


End ReloadFacts.

(** ** The parts of a URL *)

Module UrlFacts.
Import JS Url.

Lemma strip_query_none (url : jsstring) :
  contains (chr "?") url = false -> strip_query url = url.
Proof.
  induction url as [|c r IH]; [reflexivity|]. cbn [contains existsb strip_query].
  intros H. apply orb_false_elim in H as [Hc Hr].
  rewrite N.eqb_sym, Hc. cbn [andb]. f_equal. apply IH, Hr.
Qed.

(** A URL splits at its last slash. *)
Lemma split_at_last_slash (url : jsstring) :
  contains (chr "/") url = true ->
  exists dir file,
    url = dir ++ chr "/" :: file /\ contains (chr "/") file = false.
Proof.
  induction url as [|c r IH]; [discriminate|]. cbn [contains existsb]. intros H.
  destruct (existsb (N.eqb (chr "/")) r) eqn:Er.
  - destruct (IH Er) as (dir & file & -> & Hf). exists (c :: dir), file. auto.
  - rewrite orb_false_r in H. apply N.eqb_eq in H as <-. exists [], r. auto.
Qed.

Lemma to_last_slash_app (dir file : jsstring) :
  contains (chr "/") file = false ->
  to_last_slash (dir ++ chr "/" :: file) = dir ++ [chr "/"].
Proof.
  intros Hf. induction dir as [|c dir IH]; cbn [app to_last_slash].
  - rewrite N.eqb_refl, Hf. reflexivity.
  - assert (E : contains (chr "/") (dir ++ chr "/" :: file) = true).
    { unfold contains. rewrite existsb_app. cbn. rewrite orb_true_r. reflexivity. }
    rewrite E, andb_false_r, IH. reflexivity.
Qed.

Lemma before_slash_app (file rest : jsstring) :
  contains (chr "/") file = false ->
  before_slash (file ++ chr "/" :: rest) = file.
Proof.
  induction file as [|c file IH]; cbn [app before_slash contains existsb].
  - rewrite N.eqb_refl. reflexivity.
  - intros H. apply orb_false_elim in H as [Hc Hr].
    rewrite N.eqb_sym, Hc. f_equal. apply IH, Hr.
Qed.

Lemma contains_reverse (c : N) (s : jsstring) :
  contains c (reverse s) = contains c s.
Proof.
  unfold contains. induction s as [|x s IH]; [reflexivity|].
  rewrite reverse_cons, existsb_app, IH. cbn. rewrite orb_false_r. apply orb_comm.
Qed.

Lemma after_last_slash_none (file : jsstring) (found : option jsstring) :
  contains (chr "/") file = false ->
  forallb (fun c => negb (is_line_terminator c)) file = true ->
  AfterLoadGame.after_last_slash file found = found.
Proof.
  revert found. induction file as [|c file IH]; intros found Hf Hl; [reflexivity|].
  cbn [contains existsb forallb AfterLoadGame.after_last_slash] in *.
  apply orb_false_elim in Hf as [Hc Hr]. apply andb_prop in Hl as [Hlc Hlr].
  apply negb_true_iff in Hlc. rewrite Hlc, N.eqb_sym, Hc. apply IH; assumption.
Qed.

Lemma after_last_slash_app (dir file : jsstring) (found : option jsstring) :
  contains (chr "/") file = false ->
  forallb (fun c => negb (is_line_terminator c)) (dir ++ chr "/" :: file) = true ->
  AfterLoadGame.after_last_slash (dir ++ chr "/" :: file) found = Some file.
Proof.
  intros Hf. revert found. induction dir as [|c dir IH]; intros found Hl;
    cbn [app forallb AfterLoadGame.after_last_slash] in *;
    apply andb_prop in Hl as [Hlc Hlr]; apply negb_true_iff in Hlc; rewrite Hlc.
  - rewrite N.eqb_refl. apply after_last_slash_none; assumption.
  - destruct (c =? chr "/")%N; apply IH, Hlr.
Qed.

(** X27.  A URL without a query that has a slash is its directory
    followed by its file; the directory ends in a slash and is its own
    directory; the file has no slash, and on a URL of one line it is what
    [urlFilename] returns. *)
Theorem url_parts (url : jsstring) :
  contains (chr "?") url = false -> contains (chr "/") url = true ->
  urlDir url ++ urlFile url = url
  /\ urlDir (urlDir url) = urlDir url
  /\ contains (chr "/") (urlFile url) = false
  /\ (exists dir, urlDir url = dir ++ [chr "/"])
  /\ (forallb (fun c => negb (is_line_terminator c)) url = true ->
      urlFilename url = urlFile url).
Proof.
  intros Hq Hs. unfold urlDir. rewrite strip_query_none by exact Hq.
  destruct (split_at_last_slash url Hs) as (dir & file & -> & Hf).
  rewrite to_last_slash_app by exact Hf.
  assert (Hfile : urlFile (dir ++ chr "/" :: file) = file).
  { unfold urlFile. rewrite reverse_app, reverse_cons, <- app_assoc. cbn [app].
    rewrite before_slash_app by (rewrite contains_reverse; exact Hf).
    apply reverse_involutive. }
  rewrite Hfile.
  assert (Hq' : contains (chr "?") (dir ++ [chr "/"]) = false).
  { unfold contains in *. rewrite existsb_app in *.
    apply orb_false_elim in Hq as [Hq _]. rewrite Hq. reflexivity. }
  repeat split.
  - rewrite <- app_assoc. reflexivity.
  - rewrite strip_query_none by exact Hq'.
    apply (to_last_slash_app dir []). reflexivity.
  - exact Hf.
  - exists dir. reflexivity.
  - intros Hl. unfold urlFilename, AfterLoadGame.remove_url_prefix.
    rewrite (after_last_slash_app dir file None Hf Hl). reflexivity.
Qed.

Lemma url_parts_witness :
  urlDir (u "games/quad/quad.game.json") ++ urlFile (u "games/quad/quad.game.json")
  = u "games/quad/quad.game.json"
  /\ urlDir (urlDir (u "games/quad/quad.game.json"))
     = urlDir (u "games/quad/quad.game.json")
  /\ contains (chr "/") (urlFile (u "games/quad/quad.game.json")) = false
  /\ (exists dir, urlDir (u "games/quad/quad.game.json") = dir ++ [chr "/"])
  /\ (forallb (fun c => negb (is_line_terminator c)) (u "games/quad/quad.game.json")
      = true ->
      urlFilename (u "games/quad/quad.game.json")
      = urlFile (u "games/quad/quad.game.json")).
Proof. apply (url_parts (u "games/quad/quad.game.json")); reflexivity. Defined.

End UrlFacts.

(** ** The way back of an oscillating animation *)

Module OscillateFacts.
Import JS Spritesheet Timeline NumberFacts SpritesheetFacts TimelineFacts.
Local Open Scope Q_scope.

Lemma lasts_lookup (h : list sprite) (animation : list address) (ds : list Q)
    (k : nat) (d : Q) :
  lasts h animation ds -> ds !! k = Some d ->
  frames_at h animation (Z.of_nat k) = Some (Fin d) /\ 0 < d.
Proof.
  intros Hl Hk. destruct (Forall2_lookup_r _ _ _ _ _ Hl Hk) as (a & Ha & Hf & Hd).
  split; [|exact Hd]. unfold frames_at. rewrite at_index_nat, Ha.
  cbn [mbind option_bind]. destruct (h !! a) as [s|]; [|discriminate Hf].
  cbn in Hf |- *. exact Hf.
Qed.

Lemma Qsum_take_S (ds : list Q) (k : nat) (d : Q) :
  ds !! k = Some d -> Qsum (take (S k) ds) == Qsum (take k ds) + d.
Proof.
  revert k. induction ds as [|x ds IH]; intros k H; [discriminate H|].
  destruct k as [|k].
  - injection H as ->. cbn [take Qsum]. rewrite take_0. cbn [Qsum]. lra.
  - change ((x :: ds) !! S k) with (ds !! k) in H. apply IH in H.
    change (take (S (S k)) (x :: ds)) with (x :: take (S k) ds).
    change (take (S k) (x :: ds)) with (x :: take k ds).
    cbn [Qsum]. lra.
Qed.

Lemma Qsum_dyadic (k : Z) (ds : list Q) :
  (0 <= k)%Z -> Forall (dyadic k) ds -> dyadic k (Qsum ds).
Proof.
  intros Hk. induction 1 as [|d ds Hd _ IH]; cbn [Qsum].
  - apply (dyadic_Z k 0 Hk).
  - apply dyadic_plus; assumption.
Qed.

Lemma Qsum_nonneg (ds : list Q) : Forall (fun d => 0 < d) ds -> 0 <= Qsum ds.
Proof. induction 1 as [|d ds Hd _ IH]; cbn [Qsum]; lra. Qed.

Lemma Qsum_take_le (ds : list Q) (n : nat) :
  Forall (fun d => 0 < d) ds -> Qsum (take n ds) <= Qsum ds.
Proof.
  intros H. revert n. induction H as [|d ds Hd Hds IH]; intros [|n]; cbn [take Qsum].
  - lra.
  - lra.
  - pose proof (Qsum_nonneg ds Hds). lra.
  - specialize (IH n). lra.
Qed.

Lemma lasts_positive (h : list sprite) (animation : list address) (ds : list Q) :
  lasts h animation ds -> Forall (fun d => 0 < d) ds.
Proof. induction 1 as [|a d rest ds [_ Hd] _ IH]; constructor; assumption. Qed.

(** The scan from the last but one sprite towards the first.  The
    durations and the counter are multiples of [2 ^ -k] and the counter is
    below [2 ^ (53 - k)]: the subtractions are exact. *)
Lemma count_backwards_interval (k : Z) (h : list sprite) (animation : list address)
    (ds : list Q) :
  (0 <= k <= 1074)%Z -> Forall (dyadic k) ds ->
  lasts h animation ds ->
  forall (i : nat) (t : Q),
    dyadic k t -> t * 2 ^ k < 2 ^ 53 ->
    (i < length ds)%nat -> 0 <= t ->
    t < Qsum (take (S i) ds) - Qsum (take 1 ds) ->
    exists n, count_backwards h animation i (Fin t) = Normal n
      /\ (1 <= n <= i)%nat
      /\ Qsum (take (S i) ds) - Qsum (take (S n) ds) <= t
      /\ t < Qsum (take (S i) ds) - Qsum (take n ds).
Proof.
  intros Hk Hds Hl. pose proof (pow2_pos k) as Hkpos.
  induction i as [|i IH]; intros t Hdt Hb Hi H0 Ht; [lra|].
  destruct (lookup_lt_is_Some_2 ds (S i) Hi) as [d Hd].
  destruct (lasts_lookup h animation ds (S i) d Hl Hd) as [Hf Hpos].
  pose proof (Qsum_take_S ds (S i) d Hd) as Hs.
  assert (Hdd : dyadic k d).
  { rewrite Forall_forall in Hds. apply Hds.
    eapply list_elem_of_lookup_2, Hd. }
  cbn [count_backwards]. rewrite Hf. cbn [ge].
  destruct (Qle_bool d t) eqn:E.
  - apply Qle_bool_iff in E.
    assert (Hsub : sub (Fin t) (Fin d) = Fin (Qred (t - d))).
    { apply sub_exact; apply (dyadic_representable k); try assumption.
      - rewrite Qabs_pos by lra.
        assert (d * 2 ^ k <= t * 2 ^ k) by (apply Qmult_le_compat_r; lra). lra.
      - apply dyadic_minus; assumption.
      - rewrite Qabs_pos by lra.
        assert ((t - d) * 2 ^ k <= t * 2 ^ k) by (apply Qmult_le_compat_r; lra). lra. }
    rewrite Hsub. pose proof (Qred_correct (t - d)) as E1.
    destruct (IH (Qred (t - d))) as (n & Hn & Hbn & H1 & H2).
    + apply (dyadic_comp k (t - d)); [symmetry; exact E1|].
      apply dyadic_minus; assumption.
    + assert (Qred (t - d) * 2 ^ k <= t * 2 ^ k) by (apply Qmult_le_compat_r; lra).
      lra.
    + lia.
    + lra.
    + lra.
    + exists n. rewrite Hn. split; [reflexivity|]. split; [lia|]. lra.
  - exists (S i). split; [reflexivity|]. split; [lia|].
    assert (t < d).
    { destruct (Qlt_le_dec t d) as [|Hle]; [assumption|].
      apply Qle_bool_iff in Hle. congruence. }
    split; lra.
Qed.

(** X28.  An oscillating animation whose durations are multiples of
    [2 ^ -k] with a sum of at most [2 ^ (51 - k)], so that the arithmetic
    of the sampling is exact.  With [t] the frame [floor(f)] reduced by the
    period: before the sum of the durations the sprite returned is the one
    during whose time [t] falls; from there on it is the one during whose
    time the mirrored time [2 * sum - last - t] falls, where a sprite's
    time now includes its end and not its start. *)
Theorem oscillate_sampling_interval (k : Z) (h : list sprite)
    (animation : Animation.t) (ds : list Q) (first final period f : Q) :
  (0 <= k <= 1074)%Z -> Forall (dyadic k) ds -> Qsum ds * 2 ^ (k + 2) <= 2 ^ 53 ->
  Animation.extrapolate animation = u "oscillate" ->
  lasts h (Animation.elements animation) ds ->
  head ds = Some first -> last ds = Some final ->
  Animation.period animation = Fin period ->
  period == 2 * Qsum ds - first - final ->
  0 < period ->
  let t := Qmod (inject_Z (Qfloor f)) period in
  exists n a, animationFrame h animation (Fin f) = Normal (Some a)
    /\ Animation.elements animation !! n = Some a
    /\ (t < Qsum ds ->
        Qsum (take n ds) <= t /\ t < Qsum (take (S n) ds))
    /\ (Qsum ds <= t ->
        Qsum (take n ds) < 2 * Qsum ds - final - t
        /\ 2 * Qsum ds - final - t <= Qsum (take (S n) ds)).
Proof.
  intros Hk Hds Hbound He Hl Hfirst Hfinal Hp Hperiod Hpos t.
  pose proof (pow2_pos k) as Hkpos.
  pose proof (Forall2_length _ _ _ Hl) as Hlen.
  rewrite head_lookup in Hfirst. rewrite last_lookup in Hfinal.
  assert (Hne : (1 <= length ds)%nat).
  { apply lookup_lt_Some in Hfirst. lia. }
  destruct (lasts_lookup _ _ _ _ _ Hl Hfirst) as [Hf0 Hd0].
  destruct (lasts_lookup _ _ _ _ _ Hl Hfinal) as [Hf1 Hd1].
  pose proof (Qsum_take_S ds 0 first Hfirst) as Hs0. rewrite take_0 in Hs0.
  cbn [Qsum] in Hs0.
  pose proof (Qsum_take_S ds _ final Hfinal) as Hs1.
  replace (S (Init.Nat.pred (length ds))) with (length ds) in Hs1 by lia.
  rewrite firstn_all in Hs1.
  assert (Hdfirst : dyadic k first).
  { rewrite Forall_forall in Hds. apply Hds.
    eapply list_elem_of_lookup_2, Hfirst. }
  assert (Hdfinal : dyadic k final).
  { rewrite Forall_forall in Hds. apply Hds.
    eapply list_elem_of_lookup_2, Hfinal. }
  assert (Hdsum : dyadic k (Qsum ds)) by (apply Qsum_dyadic; [lia|exact Hds]).
  assert (Hdp : dyadic k period).
  { apply (dyadic_comp k _ _ (Qeq_sym _ _ Hperiod)).
    apply dyadic_minus; [|exact Hdfinal]. apply dyadic_minus; [|exact Hdfirst].
    apply (dyadic_comp k (Qsum ds + Qsum ds)); [ring|].
    apply dyadic_plus; exact Hdsum. }
  assert (Hsum4 : Qsum ds * 2 ^ k * 4 <= 2 ^ 53).
  { replace (k + 2)%Z with (k + 1 + 1)%Z in Hbound by lia.
    rewrite !pow2_succ in Hbound. lra. }
  pose proof (Qsum_take_le ds (Init.Nat.pred (length ds)) (lasts_positive _ _ _ Hl))
    as Hprefix.
  assert (Hsumpos : 0 < Qsum ds) by lra.
  assert (Hpb : period * 2 ^ (k + 1) <= 2 ^ 53).
  { rewrite pow2_succ.
    assert (period * 2 ^ k <= 2 * Qsum ds * 2 ^ k)
      by (apply Qmult_le_compat_r; lra).
    lra. }
  assert (Hscale : forall x, x <= 2 * Qsum ds -> 0 <= x -> Qabs x * 2 ^ k < 2 ^ 53).
  { intros x Hx Hx0. rewrite Qabs_pos by exact Hx0.
    assert (x * 2 ^ k <= 2 * Qsum ds * 2 ^ k) by (apply Qmult_le_compat_r; lra).
    assert (0 < Qsum ds * 2 ^ k) by (apply Qmult_lt_0_compat; assumption).
    lra. }
  unfold animationFrame.
  rewrite He, Hp. rewrite bool_decide_eq_false_2 by discriminate.
  unfold floor, of_Z.
  rewrite (wrap_fin k) by (try assumption; apply dyadic_Z; lia).
  fold t.
  pose proof (Qmod_bounds (inject_Z (Qfloor f)) period Hpos) as [B1 B2].
  fold t in B1, B2. pose proof (Qred_correct t) as Er.
  assert (Hdt : dyadic k (Qred t)).
  { apply (dyadic_comp k t); [symmetry; exact Er|]. unfold t, Qmod.
    apply dyadic_minus; [apply dyadic_Z; lia|apply dyadic_times_Z, Hdp]. }
  unfold find_frame. rewrite He. rewrite bool_decide_eq_true_2 by reflexivity.
  change (frames_at h (Animation.elements animation) 0)
    with (frames_at h (Animation.elements animation) (Z.of_nat 0)).
  rewrite Hf0.
  replace (Z.of_nat (length (Animation.elements animation)) - 1)%Z
    with (Z.of_nat (Init.Nat.pred (length ds))) by lia.
  rewrite Hf1. rewrite Hp.
  rewrite (add_exact period first).
  2:{ apply (dyadic_representable k); [exact Hk|apply dyadic_plus; assumption|].
      apply Hscale; lra. }
  pose proof (Qred_correct (period + first)) as Ea.
  rewrite (add_exact (Qred (period + first)) final).
  2:{ apply (dyadic_representable k); [exact Hk| |apply Hscale; lra].
      apply dyadic_plus; [|exact Hdfinal].
      apply (dyadic_comp k (period + first)); [symmetry; exact Ea|].
      apply dyadic_plus; assumption. }
  pose proof (Qred_correct (Qred (period + first) + final)) as Eb.
  rewrite scale_exact.
  2:{ apply (representable_comp (Qsum ds)); [rewrite Eb, Ea, Hperiod; field|].
      apply (dyadic_representable k); [exact Hk|exact Hdsum|apply Hscale; lra]. }
  set (r := Qred (Qred (Qred (period + first) + final) * (1 # 2))).
  assert (Hr : r == Qsum ds).
  { unfold r. rewrite !Qred_correct. lra. }
  cbn [ge].
  destruct (Qle_bool r (Qred t)) eqn:E.
  - (* the way back *)
    apply Qle_bool_iff in E.
    assert (Hmid : t - Qsum ds < Qsum (take (Init.Nat.pred (length ds)) ds) - first) by lra.
    assert (H3 : (3 <= length ds)%nat).
    { destruct ds as [|x [|y [|z ds']]].
      - discriminate Hfirst.
      - exfalso. cbn [length Init.Nat.pred take Qsum] in Hmid, Hr. lra.
      - exfalso. cbn [length Init.Nat.pred take Qsum] in Hmid, Hs0, Hr. lra.
      - cbn [length]. lia. }
    destruct (Z.leb_spec (Z.of_nat (length (Animation.elements animation)) - 2) 0) as [Hle|_];
      [lia|].
    replace (Z.to_nat (Z.of_nat (length (Animation.elements animation)) - 2))
      with (length ds - 2)%nat by lia.
    rewrite (sub_exact (Qred t) r).
    2:{ apply (representable_comp (Qsum ds)); [symmetry; exact Hr|].
        apply (dyadic_representable k); [exact Hk|exact Hdsum|apply Hscale; lra]. }
    2:{ apply (dyadic_representable k); [exact Hk| |apply Hscale; lra].
        apply dyadic_minus; [exact Hdt|].
        apply (dyadic_comp k (Qsum ds)); [symmetry; exact Hr|exact Hdsum]. }
    set (t' := Qred (Qred t - r)).
    assert (Ht' : t' == t - Qsum ds).
    { unfold t'. rewrite !Qred_correct. lra. }
    destruct (count_backwards_interval k h _ ds Hk Hds Hl (length ds - 2) t')
      as (n & Hn & Hb & H1 & H2).
    + apply (dyadic_comp k (t - Qsum ds)); [symmetry; exact Ht'|].
      apply dyadic_minus; [|exact Hdsum].
      apply (dyadic_comp k (Qred t)); [exact Er|exact Hdt].
    + rewrite <- (Qabs_pos t') by lra. apply Hscale; lra.
    + lia.
    + lra.
    + replace (S (length ds - 2)) with (Init.Nat.pred (length ds)) by lia.
      rewrite Hs0. lra.
    + rewrite Hn. cbn [mbind completion_bind].
      destruct (lookup_lt_is_Some_2 (Animation.elements animation) n ltac:(lia)) as [a Ha].
      exists n, a. rewrite at_index_nat, Ha.
      replace (S (length ds - 2)) with (Init.Nat.pred (length ds)) in H1, H2 by lia.
      split; [reflexivity|]. split; [reflexivity|]. split; intros Hside; [lra|].
      split; lra.
  - (* the way out *)
    assert (Hlt : t < Qsum ds).
    { destruct (Qlt_le_dec t (Qsum ds)) as [|Hle]; [assumption|].
      assert (Hle' : r <= Qred t) by lra. apply Qle_bool_iff in Hle'. congruence. }
    destruct (search_forward_interval k h (Animation.elements animation) ds 0
                (Qred t) Hk Hds Hdt)
      as (n & -> & Hn & H1 & H2); [|exact Hl|lra|lra|].
    { rewrite <- (Qabs_pos (Qred t)) by lra. apply Hscale; lra. }
    cbn [mbind completion_bind Nat.add].
    destruct (lookup_lt_is_Some_2 (Animation.elements animation) n ltac:(lia)) as [a Ha].
    exists n, a.
    replace (Z.min (Z.of_nat n) _) with (Z.of_nat n) by lia.
    rewrite at_index_nat, Ha.
    split; [reflexivity|]. split; [reflexivity|]. split; intros Hside; [lra|lra].
Qed.

Lemma oscillate_sampling_interval_witness :
  exists sheet h animation,
    Samples.compiled OscillateSamples.sway 4 = Some (sheet, h)
    /\ animation_named (u "sway") sheet = Some animation
    /\ exists n a,
         animationFrame h animation (Fin (25 # 2)) = Normal (Some a)
         /\ Animation.elements animation !! n = Some a
         /\ (Qmod (inject_Z (Qfloor (25 # 2))) 15 < Qsum [1; 2; 3; 4] ->
             Qsum (take n [1; 2; 3; 4]) <= Qmod (inject_Z (Qfloor (25 # 2))) 15
             /\ Qmod (inject_Z (Qfloor (25 # 2))) 15 < Qsum (take (S n) [1; 2; 3; 4]))
         /\ (Qsum [1; 2; 3; 4] <= Qmod (inject_Z (Qfloor (25 # 2))) 15 ->
             Qsum (take n [1; 2; 3; 4])
             < 2 * Qsum [1; 2; 3; 4] - 4 - Qmod (inject_Z (Qfloor (25 # 2))) 15
             /\ 2 * Qsum [1; 2; 3; 4] - 4 - Qmod (inject_Z (Qfloor (25 # 2))) 15
                <= Qsum (take (S n) [1; 2; 3; 4])).
Proof.
  eexists _, _, _. split; [vm_compute; reflexivity|].
  split; [vm_compute; reflexivity|].
  match goal with |- exists n a, animationFrame ?h ?an _ = _ /\ _ =>
    apply (oscillate_sampling_interval 0 h an [1; 2; 3; 4] 1 4 15 (25 # 2)) end.
  - lia.
  - repeat constructor; [exists 1%Z|exists 2%Z|exists 3%Z|exists 4%Z]; reflexivity.
  - vm_compute. discriminate.
  - reflexivity.
  - repeat constructor.
  - reflexivity.
  - reflexivity.
  - reflexivity.
  - reflexivity.
  - reflexivity.
Defined.

End OscillateFacts.

(** ** Every object is counted once *)

Module StatsFacts.
Import JS Stats.
Local Open Scope Z_scope.

Ltac sets :=
  apply set_eq; intros ?;
  rewrite ?elem_of_union, ?elem_of_list_to_set, ?elem_of_cons, ?elem_of_nil,
          ?elem_of_singleton, ?elem_of_empty;
  intuition (subst; auto).

Lemma Zsum_perm (l k : list Z) : l ≡ₚ k -> Zsum l = Zsum k.
Proof.
  unfold Zsum. induction 1 as [|x l k _ IH|x y l|l k m _ IH1 _ IH2]; cbn [foldr];
    [reflexivity|lia|lia|congruence].
Qed.

Lemma Zsum_app (l k : list Z) : Zsum (l ++ k) = Zsum l + Zsum k.
Proof.
  unfold Zsum. induction l as [|x l IH]; cbn [foldr app]; [reflexivity|lia].
Qed.

Lemma elem_of_news (P : address -> bool) (seen : gset address) (l : list address)
    (x : address) :
  x ∈ news P seen l <-> x ∈ l /\ P x = true /\ x ∉ seen.
Proof.
  unfold news. rewrite elem_of_remove_dups, list_elem_of_filter. tauto.
Qed.

Lemma news_split (P : address -> bool) (seen : gset address) (l1 l2 : list address) :
  news P seen (l1 ++ l2)
  ≡ₚ news P seen l1 ++ news P (list_to_set l1 ∪ seen) l2.
Proof.
  apply NoDup_Permutation.
  - apply NoDup_remove_dups.
  - apply NoDup_app. split; [apply NoDup_remove_dups|].
    split; [|apply NoDup_remove_dups].
    intros x H1 H2. apply elem_of_news in H1 as (H1 & _ & _).
    apply elem_of_news in H2 as (_ & _ & H2). apply H2.
    apply elem_of_union. left. apply elem_of_list_to_set. exact H1.
  - intros x.
    rewrite elem_of_app, !elem_of_news, elem_of_app, elem_of_union, elem_of_list_to_set.
    destruct (decide (x ∈ l1)) as [Hx|Hx]; tauto.
Qed.

Lemma news_seen (P : address -> bool) (seen : gset address) (l : list address) :
  (forall x, x ∈ l -> x ∈ seen) -> news P seen l = [].
Proof.
  intros H. destruct (news P seen l) as [|x r] eqn:E; [reflexivity|].
  assert (Hx : x ∈ news P seen l) by (rewrite E; left).
  apply elem_of_news in Hx as (Hx & _ & Hn). exfalso. apply Hn, H, Hx.
Qed.

Lemma news_single (P : address -> bool) (seen : gset address) (x : address) :
  x ∉ seen -> news P seen [x] = if P x then [x] else [].
Proof.
  intros Hx. unfold news. destruct (P x) eqn:E.
  - rewrite filter_cons_True by (split; assumption). reflexivity.
  - rewrite filter_cons_False by (intros [H _]; congruence). reflexivity.
Qed.

Lemma adds_refl (h : list asset) (st : resourceStats) : adds h st st [] [].
Proof. unfold adds. cbn. repeat apply conj; lia. Qed.

Lemma adds_trans (h : list asset) (st1 st2 st3 : resourceStats)
    (s1 s2 p1 p2 : list address) :
  adds h st1 st2 s1 p1 -> adds h st2 st3 s2 p2 ->
  adds h st1 st3 (s1 ++ s2) (p1 ++ p2).
Proof.
  unfold adds. intros (A1 & A2 & A3 & A4) (B1 & B2 & B3 & B4).
  rewrite !length_app, !fmap_app, !Zsum_app. repeat apply conj; lia.
Qed.

Lemma adds_perm (h : list asset) (st st' : resourceStats)
    (s s' p p' : list address) :
  s ≡ₚ s' -> p ≡ₚ p' -> adds h st st' s p -> adds h st st' s' p'.
Proof.
  unfold adds. intros Hs Hp (A1 & A2 & A3 & A4).
  rewrite <- (Permutation_length Hs), <- (Permutation_length Hp).
  rewrite <- (Zsum_perm _ _ (fmap_Permutation (pixels h) _ _ Hs)).
  rewrite <- (Zsum_perm _ _ (fmap_Permutation (kilobytes h) _ _ Hp)).
  repeat apply conj; assumption.
Qed.

(** One more object, of the first step of either loop. *)
Lemma adds_step (h : list asset) (seen : gset address) (x : address)
    (l : list address) (st1 st2 st3 : resourceStats) :
  x ∉ seen ->
  adds h st1 st2 (if visible_sheet h x then [x] else [])
                 (if visible_sound h x then [x] else []) ->
  adds h st2 st3 (news (visible_sheet h) ({[ x ]} ∪ seen) l)
                 (news (visible_sound h) ({[ x ]} ∪ seen) l) ->
  adds h st1 st3 (news (visible_sheet h) seen (x :: l))
                 (news (visible_sound h) seen (x :: l)).
Proof.
  intros Hx H1 H2.
  assert (E : list_to_set [x] ∪ seen = {[ x ]} ∪ seen) by sets.
  eapply adds_perm; [| |exact (adds_trans _ _ _ _ _ _ _ _ H1 H2)].
  - symmetry. rewrite <- (news_single _ seen x Hx), <- E.
    apply (news_split _ seen [x] l).
  - symmetry. rewrite <- (news_single _ seen x Hx), <- E.
    apply (news_split _ seen [x] l).
Qed.

(** An object that was counted before. *)
Lemma adds_skip (h : list asset) (seen : gset address) (l1 l2 : list address)
    (st st' : resourceStats) :
  (forall x, x ∈ l1 -> x ∈ seen) ->
  adds h st st' (news (visible_sheet h) seen l2) (news (visible_sound h) seen l2) ->
  adds h st st' (news (visible_sheet h) seen (l1 ++ l2))
                (news (visible_sound h) seen (l1 ++ l2)).
Proof.
  intros H1 H2.
  assert (E : list_to_set l1 ∪ seen = seen).
  { apply set_eq. intros x. rewrite elem_of_union, elem_of_list_to_set.
    specialize (H1 x). tauto. }
  eapply adds_perm; [| |exact H2].
  - symmetry. etransitivity; [apply news_split|].
    rewrite (news_seen _ seen l1 H1), E. reflexivity.
  - symmetry. etransitivity; [apply news_split|].
    rewrite (news_seen _ seen l1 H1), E. reflexivity.
Qed.

(** What [recordSpriteStats] adds for a font or a sheet. *)
Lemma recordSpriteStats_adds (h : list asset) (a : address) (x : asset)
    (st : resourceStats) :
  h !! a = Some x ->
  (forall name url c l, x <> Sound name url c l) ->
  (forall name table, x <> Map name table) ->
  exists st', recordSpriteStats x st = Normal st'
    /\ adds h st st' (if visible_sheet h a then [a] else [])
                     (if visible_sound h a then [a] else []).
Proof.
  intros Ha Hs Hm. unfold visible_sheet, visible_sound, adds, pixels. rewrite Ha.
  destruct x as [n url w hh|n url w hh|n url c l|n table];
    [| |exfalso; exact (Hs _ _ _ _ eq_refl)|exfalso; exact (Hm _ _ eq_refl)];
    cbn [recordSpriteStats]; destruct (underscore n); cbn [negb];
    eexists; (split; [reflexivity|]); cbn; rewrite ?Ha; cbn; repeat apply conj; lia.
Qed.

Lemma recordSoundStats_adds (h : list asset) (a : address)
    (name url : jsstring) (c l : Z) (st : resourceStats) :
  h !! a = Some (Sound name url c l) ->
  exists st', recordSoundStats (Sound name url c l) st = Normal st'
    /\ adds h st st' (if visible_sheet h a then [a] else [])
                     (if visible_sound h a then [a] else []).
Proof.
  intros Ha. unfold visible_sheet, visible_sound, adds, kilobytes. rewrite Ha.
  cbn [recordSoundStats]. destruct (underscore name); cbn [negb];
    eexists; (split; [reflexivity|]); cbn; rewrite ?Ha; cbn; repeat apply conj; lia.
Qed.

(** The loop over the table of a map. *)
Lemma table_loop (h : list asset) (table : list (jsstring * address)) :
  (forall e, e ∈ table ->
     exists n url w hh, h !! e.2 = Some (Spritesheet n url w hh)) ->
  forall (seen : gset address) (st : resourceStats),
  exists st',
    for_in (count_table_entry h) table (seen, st)
    = Normal (list_to_set table.*2 ∪ seen, st')
    /\ adds h st st' (news (visible_sheet h) seen table.*2)
                     (news (visible_sound h) seen table.*2).
Proof.
  induction table as [|e table IH]; intros Ht seen st.
  - exists st. split; [cbn; f_equal; f_equal; sets|apply adds_refl].
  - cbn [for_in fmap list_fmap].
    change (count_table_entry h e (seen, st))
      with (if bool_decide (e.2 ∈ seen) then Normal (seen, st)
            else x ← deref h e.2; st1 ← recordSpriteStats x st;
                 Normal ({[ e.2 ]} ∪ seen, st1)).
    assert (Ht' : forall e', e' ∈ table ->
              exists n url w hh, h !! e'.2 = Some (Spritesheet n url w hh)).
    { intros e' He'. apply Ht. right. exact He'. }
    case_bool_decide as Hseen.
    + cbn [mbind completion_bind].
      destruct (IH Ht' seen st) as (st' & Hrun & Hadds).
      exists st'. rewrite Hrun. split; [f_equal; f_equal; sets|].
      apply (adds_skip h seen [e.2]); [|exact Hadds].
      intros x Hx. apply list_elem_of_singleton in Hx as ->. exact Hseen.
    + destruct (Ht e ltac:(left)) as (n & url & w & hh & He).
      unfold deref. rewrite He. cbn [mbind completion_bind].
      destruct (recordSpriteStats_adds h e.2 _ st He) as (st1 & Hrec & Hadd1);
        [discriminate|discriminate|].
      rewrite Hrec. cbn [mbind completion_bind].
      destruct (IH Ht' ({[ e.2 ]} ∪ seen) st1) as (st' & Hrun & Hadds).
      exists st'. rewrite Hrun. split; [f_equal; f_equal; sets|].
      exact (adds_step h seen e.2 _ st st1 st' Hseen Hadd1 Hadds).
Qed.

Lemma adds_app (h : list asset) (seen : gset address) (l1 l2 : list address)
    (st1 st2 st3 : resourceStats) :
  adds h st1 st2 (news (visible_sheet h) seen l1) (news (visible_sound h) seen l1) ->
  adds h st2 st3 (news (visible_sheet h) (list_to_set l1 ∪ seen) l2)
                 (news (visible_sound h) (list_to_set l1 ∪ seen) l2) ->
  adds h st1 st3 (news (visible_sheet h) seen (l1 ++ l2))
                 (news (visible_sound h) seen (l1 ++ l2)).
Proof.
  intros H1 H2.
  eapply adds_perm; [| |exact (adds_trans _ _ _ _ _ _ _ _ H1 H2)];
    symmetry; apply news_split.
Qed.

Lemma typed_cons (h : list asset) (key : jsstring) (a : address)
    (assets : list (jsstring * address)) :
  typed h ((key, a) :: assets) = true ->
  typed h assets = true
  /\ (underscore key = false ->
      exists x, h !! a = Some x
        /\ forall n table e, x = Map n table -> e ∈ table ->
             exists n' url w hh, h !! e.2 = Some (Spritesheet n' url w hh)).
Proof.
  unfold typed. cbn [forallb fst snd]. intros H.
  apply andb_prop in H as [H1 H2]. split; [exact H2|]. intros Hk.
  rewrite Hk in H1. cbn [orb] in H1.
  destruct (h !! a) as [x|]; [|discriminate H1].
  exists x. split; [reflexivity|]. intros n table e -> He.
  rewrite forallb_forall in H1. apply list_elem_of_In in He.
  specialize (H1 e He).
  destruct (h !! e.2) as [[| n' url w hh | |]|]; try discriminate H1.
  exists n', url, w, hh. reflexivity.
Qed.

(** The loop over the assets. *)
Lemma asset_loop (h : list asset) (assets : list (jsstring * address)) :
  typed h assets = true ->
  forall (seen : gset address) (st : resourceStats),
    closed h seen ->
    exists seen' st',
      for_in (count_asset h) assets (seen, st) = Normal (seen', st')
      /\ adds h st st' (news (visible_sheet h) seen (visits h assets))
                       (news (visible_sound h) seen (visits h assets)).
Proof.
  induction assets as [|[key a] assets IH]; intros Ht seen st Hc.
  - exists seen, st. split; [reflexivity|apply adds_refl].
  - apply typed_cons in Ht as [Ht Ha]. specialize (IH Ht).
    cbn [for_in].
    change (count_asset h (key, a) (seen, st))
      with (if underscore key then Normal (seen, st)
            else if bool_decide (a ∈ seen) then Normal (seen, st)
            else x ← deref h a;
                 match x with
                 | Font _ _ _ _ | Spritesheet _ _ _ _ =>
                   st1 ← recordSpriteStats x st; Normal ({[ a ]} ∪ seen, st1)
                 | Sound _ _ _ _ =>
                   st1 ← recordSoundStats x st; Normal ({[ a ]} ∪ seen, st1)
                 | Map _ spritesheet_table =>
                   for_in (count_table_entry h) spritesheet_table ({[ a ]} ∪ seen, st)
                 end).
    unfold visits. cbn [flat_map fst snd]. fold (visits h assets).
    destruct (underscore key) eqn:Hk.
    { cbn [mbind completion_bind app]. apply IH, Hc. }
    destruct (Ha eq_refl) as (x & Hx & Htable). clear Ha.
    case_bool_decide as Hseen.
    { cbn [mbind completion_bind].
      destruct (IH seen st Hc) as (seen' & st' & Hrun & Hadds).
      exists seen', st'. split; [exact Hrun|].
      apply (adds_skip h seen (a :: _)); [|exact Hadds].
      intros y Hy. apply elem_of_cons in Hy as [->|Hy]; [exact Hseen|].
      rewrite Hx in Hy. destruct x as [| | |n table]; try (apply elem_of_nil in Hy; contradiction).
      apply list_elem_of_fmap in Hy as (e & -> & He).
      exact (Hc a n table e Hseen Hx He). }
    unfold deref. rewrite Hx. cbn [mbind completion_bind].
    assert (Hc1 : (forall n table, x <> Map n table) -> closed h ({[ a ]} ∪ seen)).
    { intros Hnm m n table e Hm Hhm He. apply elem_of_union. right.
      apply elem_of_union in Hm as [Hm|Hm].
      - apply elem_of_singleton in Hm as ->. rewrite Hx in Hhm.
        injection Hhm as ->. exfalso. exact (Hnm _ _ eq_refl).
      - exact (Hc m n table e Hm Hhm He). }
    destruct x as [n url w hh|n url w hh|n url c l|n table].
    + destruct (recordSpriteStats_adds h a _ st Hx) as (st1 & Hrec & Hadd1);
        [discriminate|discriminate|].
      rewrite Hrec. cbn [mbind completion_bind].
      destruct (IH ({[ a ]} ∪ seen) st1) as (seen' & st' & Hrun & Hadds).
      { apply Hc1. discriminate. }
      exists seen', st'. split; [exact Hrun|].
      exact (adds_step h seen a _ st st1 st' Hseen Hadd1 Hadds).
    + destruct (recordSpriteStats_adds h a _ st Hx) as (st1 & Hrec & Hadd1);
        [discriminate|discriminate|].
      rewrite Hrec. cbn [mbind completion_bind].
      destruct (IH ({[ a ]} ∪ seen) st1) as (seen' & st' & Hrun & Hadds).
      { apply Hc1. discriminate. }
      exists seen', st'. split; [exact Hrun|].
      exact (adds_step h seen a _ st st1 st' Hseen Hadd1 Hadds).
    + destruct (recordSoundStats_adds h a _ _ _ _ st Hx) as (st1 & Hrec & Hadd1).
      rewrite Hrec. cbn [mbind completion_bind].
      destruct (IH ({[ a ]} ∪ seen) st1) as (seen' & st' & Hrun & Hadds).
      { apply Hc1. discriminate. }
      exists seen', st'. split; [exact Hrun|].
      exact (adds_step h seen a _ st st1 st' Hseen Hadd1 Hadds).
    + clear Hc1.
      destruct (table_loop h table (fun e => Htable n table e eq_refl) ({[ a ]} ∪ seen) st)
        as (st1 & Hrec & Hadd1).
      rewrite Hrec.
      destruct (IH (list_to_set table.*2 ∪ ({[ a ]} ∪ seen)) st1)
        as (seen' & st' & Hrun & Hadds).
      { intros m n' table' e Hm Hhm He.
        apply elem_of_union in Hm as [Hm|Hm].
        - apply elem_of_list_to_set, list_elem_of_fmap in Hm as (e' & -> & He').
          destruct (Htable n table e' eq_refl He') as (? & ? & ? & ? & Hs).
          rewrite Hs in Hhm. discriminate Hhm.
        - apply elem_of_union in Hm as [Hm|Hm].
          + apply elem_of_singleton in Hm as ->. rewrite Hx in Hhm.
            injection Hhm as -> ->. apply elem_of_union. left.
            apply elem_of_list_to_set, list_elem_of_fmap. exists e. split; [reflexivity|exact He].
          + apply elem_of_union. right. apply elem_of_union. right.
            exact (Hc m n' table' e Hm Hhm He). }
      exists seen', st'. split; [exact Hrun|].
      apply (adds_step h seen a _ st st st' Hseen).
      * unfold visible_sheet, visible_sound. rewrite Hx. apply adds_refl.
      * exact (adds_app h _ _ _ st st1 st' Hadd1 Hadds).
Qed.

Lemma news_empty (P : address -> bool) (l : list address) :
  news P ∅ l = distinct P l.
Proof.
  unfold news, distinct. f_equal. apply list_filter_iff. intros x.
  split; [intros [H _]; exact H|intros H; split; [exact H|apply not_elem_of_empty]].
Qed.

(** X29.  When the table of every map refers to
    spritesheets, [computeResourceStats] ends normally, and it counts every
    object once, however many keys and tables refer to it: the fonts and
    sheets whose own name has no underscore at its head, and the sounds
    with such a name, among the assets with such a key and the sheets of
    the maps among them. *)
Theorem each_object_counted_once (h : list asset)
    (assets : list (jsstring * address)) (st : resourceStats) :
  typed h assets = true ->
  let sheets := distinct (visible_sheet h) (visits h assets) in
  let played := distinct (visible_sound h) (visits h assets) in
  exists st',
    computeResourceStats h assets st = Normal st'
    /\ spritesheets st' = spritesheets st + Z.of_nat (length sheets)
    /\ spritePixels st' = spritePixels st + Zsum (pixels h <$> sheets)
    /\ sounds st' = sounds st + Z.of_nat (length played)
    /\ soundKilobytes st' = soundKilobytes st + Zsum (kilobytes h <$> played).
Proof.
  intros Ht sheets played.
  destruct (asset_loop h assets Ht ∅ st) as (seen' & st' & Hrun & Hadds).
  { intros m n table e Hm. apply elem_of_empty in Hm. contradiction. }
  exists st'. unfold computeResourceStats. rewrite Hrun.
  split; [reflexivity|]. rewrite !news_empty in Hadds. exact Hadds.
Qed.

Lemma each_object_counted_once_witness :
  typed StatsSamples.store StatsSamples.assets = true
  /\ exists st',
       computeResourceStats StatsSamples.store StatsSamples.assets StatsSamples.zero
       = Normal st'
       /\ spritesheets st'
          = spritesheets StatsSamples.zero
            + Z.of_nat (length (distinct (visible_sheet StatsSamples.store)
                                  (visits StatsSamples.store StatsSamples.assets)))
       /\ spritePixels st'
          = spritePixels StatsSamples.zero
            + Zsum (pixels StatsSamples.store
                      <$> distinct (visible_sheet StatsSamples.store)
                            (visits StatsSamples.store StatsSamples.assets))
       /\ sounds st'
          = sounds StatsSamples.zero
            + Z.of_nat (length (distinct (visible_sound StatsSamples.store)
                                  (visits StatsSamples.store StatsSamples.assets)))
       /\ soundKilobytes st'
          = soundKilobytes StatsSamples.zero
            + Zsum (kilobytes StatsSamples.store
                      <$> distinct (visible_sound StatsSamples.store)
                            (visits StatsSamples.store StatsSamples.assets)).
Proof.
  split; [reflexivity|].
  apply (each_object_counted_once StatsSamples.store StatsSamples.assets StatsSamples.zero).
  reflexivity.
Defined.

End StatsFacts.

(** ** The loop of [parseCSV] *)

Module ParserLoopFacts.
Import JS Parser ParserFacts.

(** Once the loop has ended, more fuel changes nothing. *)
Lemma match_all_more_fuel (strData : jsstring) (fuel fuel' : nat) :
  fuel <= fuel' ->
  forall lastIndex data result,
    match_all fuel strData lastIndex data = Some result ->
    match_all fuel' strData lastIndex data = Some result.
Proof.
  revert fuel'. induction fuel as [|fuel IH]; intros fuel' Hle lastIndex data result H;
    [discriminate H|].
  destruct fuel' as [|fuel']; [lia|].
  cbn [match_all] in H |- *.
  destruct (exec lastIndex (drop lastIndex strData)) as [[[sep cell] j]|]; [|exact H].
  apply (IH fuel'); [lia|exact H].
Qed.

(** X30.  The loop over the matches of [parseCSV]
    never ends on the empty text.  On any other text it has ended after as
    many matches as the text has units and one more, the grid does not
    depend on the bound beyond that, it has a row, and its rows have one
    length. *)
Theorem parseCSV_ends_unless_empty (strData : jsstring) (trim : bool) :
  (strData = [] -> forall fuel, parseCSV fuel strData trim = None)
  /\ (strData <> [] ->
      exists grid,
        (forall fuel, length strData < fuel ->
                      parseCSV fuel strData trim = Some grid)
        /\ grid <> []
        /\ forall row row', row ∈ grid -> row' ∈ grid -> length row = length row').
Proof.
  split.
  - intros -> fuel. apply empty_text_never_parsed.
  - intros Hne.
    destruct (parseCSV_returns strData trim Hne) as (data & grid & Hd & Hg & Hrows & _).
    exists grid. split; [|split].
    + intros fuel Hf. unfold parseCSV in Hg |- *.
      rewrite (match_all_more_fuel strData (S (length strData)) fuel ltac:(lia) _ _ _ Hd).
      rewrite Hd in Hg. exact Hg.
    + unfold parseCSV in Hg. rewrite Hd in Hg. cbn in Hg. injection Hg as <-.
      apply TableFacts.match_all_nonempty in Hd; [|discriminate].
      destruct data; [contradiction|discriminate].
    + intros row row' Hr Hr'. rewrite (Hrows row Hr), (Hrows row' Hr'). reflexivity.
Qed.

End ParserLoopFacts.
